(** * Live event tracking and alerting engine: a shallow embedding

    The development follows the three services of the repository:

    - [Config]    : [src/config/index.ts] (per-league targets, limits);
    - [Telegram]  : [src/services/telegram.service.ts] (the outbound
                    message queue and its drain loop);
    - [Tracker]   : the tracker service (the per-match state machine, the
                    history ledger, completion detection and the rolling
                    database limit), together with the parts of the SQLite
                    schema of [src/config/database.ts] it relies on.

    Modelling conventions.

    - A JavaScript [number] that only travels through [===], storage and
      retrieval is an exact rational ([Qc], canonical so that Leibniz
      equality is [===]); the IEEE special values are outside the model.
      Integers (league ids, scores, limits) are [Z], counters are [nat].
    - A nullable SQLite column is an [option]; the INTEGER 0/1 flags are
      [bool] (the code only ever tests their truthiness).
    - The [matches] table is a finite map keyed by its [UNIQUE NOT NULL]
      column [match_id]; each row also carries its AUTOINCREMENT [id], which
      is the identity of a record over its lifetime.  The [odds_history]
      table is a list of rows in insertion order.
    - A SQL statement that can raise a constraint error returns an [option];
      [None] is the exception, which leaves the database as it was.
    - The upstream feed, the clock and the messaging gateway are oracles
      passed as arguments. *)

From Stdlib Require Import ZArith QArith Qcanon String Ascii OrdersEx.
From stdpp Require Import base option list strings gmap sorting pretty.

Open Scope Z_scope.

(** JavaScript numbers that are only compared and stored. *)
Abbreviation number := Qc.

(* ------------------------------------------------------------------ *)
(** * Rows and payloads ([src/models/types.ts]) *)

Inductive Status := live | finished.

Global Instance Status_eq_dec : EqDecision Status.
Proof. solve_decision. Defined.

Record Match := mkMatch {
  id : nat;                          (* INTEGER PRIMARY KEY AUTOINCREMENT *)
  match_id : string;                 (* TEXT UNIQUE NOT NULL *)
  bet365_id : option string;
  league_id : Z;
  home_team : string;
  away_team : string;
  detection_time : string;
  detected_odds : option number;
  current_goal_line : option number;
  current_score : option string;
  status : Status;
  final_score_home : option Z;
  final_score_away : option Z;
  match_end_time : option string;
  alert_sent : bool;
  result_alert_sent : bool;
  touched_15 : bool
}.

Record OddsHistory := mkOdds {
  oh_match_id : string;
  oh_odds_value : option number;
  oh_handicap : option number;
  oh_add_time : option string
}.

(** One entry of the list returned by [getInplayFilterMatches]. *)
Record LiveMatch := mkLive {
  lm_id : string;
  ourEventId : string;
  bet365Id : string;
  leagueId : Z;
  leagueName : string;
  homeTeam : string;
  awayTeam : string;
  score : string
}.

(** The value returned by [checkAsianGoalLine]. *)
Record GoalLineResult := mkGoalLine {
  handicap : number;
  overOdds : string;
  underOdds : string;
  gl_score : string
}.

(** JavaScript truthiness of an optional string: neither null nor empty. *)
Definition truthy (s : option string) : bool :=
  match s with
  | Some EmptyString | None => false
  | Some _ => true
  end.

(* ------------------------------------------------------------------ *)
(** * Configuration ([src/config/index.ts]) *)

Module Config.

Record t := mk {
  botToken : string;
  chatId : string;
  targetGoalLines : gmap Z number;
  maxMatches : Z
}.

(** [this.targetGoalLines[leagueId] ?? 1.5] *)
Definition getTargetGoalLine (cfg : t) (leagueId : Z) : number :=
  default (Q2Qc 1.5) (targetGoalLines cfg !! leagueId).

(** The table written in the source file. *)
Definition shipped_targets : gmap Z number :=
  <[23114 := Q2Qc 2.5]> (<[37298 := Q2Qc 1.5]>
    (<[38439 := Q2Qc 3.5]> (<[22614 := Q2Qc 3.5]> ∅))).

Definition shipped (token chat : string) : t :=
  mk token chat shipped_targets 3200.

End Config.

(* ------------------------------------------------------------------ *)
(** * The notification queue ([src/services/telegram.service.ts]) *)

Module Telegram.

(** The formatted Markdown text is kept symbolic: one constructor per
    formatter, carrying the values the text is built from. *)
Inductive Message :=
| TargetDetectionAlert (m : Match) (g : GoalLineResult) (target : number)
| ResultAlert (m : Match)
| TestMessage.

Record QueueItem := mkItem {
  item_chatId : string;
  message : Message;
  retries : nat
}.

(** The mutable fields of the service; [bot] is decided by the
    configuration at construction time. *)
Record t := mk {
  messageQueue : list QueueItem;
  isProcessingQueue : bool
}.

Definition maxRetries : nat := 3.
Definition retryDelay : nat := 1000.

Definition bot_ready (cfg : Config.t) : bool :=
  negb (String.eqb (Config.botToken cfg) "").

(** [sendMessage]: refuse when unconfigured, otherwise push at the tail
    and report success.  The drain loop it kicks runs on its own
    ([processQueue] below). *)
Definition sendMessage (cfg : Config.t) (msg : Message)
    (chat : option string) (tg : t) : bool * t :=
  let targetChatId := if truthy chat then default ""%string chat
                      else Config.chatId cfg in
  if negb (bot_ready cfg) || String.eqb targetChatId "" then (false, tg)
  else (true, mk (messageQueue tg ++ [mkItem targetChatId msg 0%nat])
                 (isProcessingQueue tg)).

(** Whether [sendMessage] with the configured chat is accepted. *)
Definition accepts (cfg : Config.t) : bool :=
  negb (negb (bot_ready cfg) || String.eqb (Config.chatId cfg) "").

Definition sendTargetDetectionAlert cfg (m : Match) (g : GoalLineResult)
    (target : number) (tg : t) : bool * t :=
  sendMessage cfg (TargetDetectionAlert m g target) None tg.

Definition sendResultAlert cfg (m : Match) (tg : t) : bool * t :=
  sendMessage cfg (ResultAlert m) None tg.

Definition sendTestMessage cfg (tg : t) : bool * t :=
  sendMessage cfg TestMessage None tg.

(** What one pass of the drain loop does, in order. *)
Inductive Event :=
| Delivered (i : QueueItem)
| Failed (i : QueueItem)
| Requeued (i : QueueItem)
| Dropped (i : QueueItem)
| Slept (ms : nat).

Definition bump (i : QueueItem) : QueueItem :=
  mkItem (item_chatId i) (message i) (S (retries i)).

(** One iteration of the [while] loop on a non-empty queue.  [ok] is the
    outcome of [bot.sendMessage] for the shifted item. *)
Definition iteration (ok : bool) (item : QueueItem)
    (rest : list QueueItem) : list Event * list QueueItem :=
  if ok then ([Delivered item; Slept 100], rest)
  else if (retries item <? maxRetries)%nat then
    let item' := bump item in
    ([Failed item; Requeued item';
      Slept (retryDelay * retries item'); Slept 100],
     rest ++ [item'])
  else ([Failed item; Dropped item; Slept 100], rest).

(** The [while (this.messageQueue.length > 0)] loop.  [gateway n] is the
    outcome of the [n]-th call to the gateway; the result is the trace,
    the queue that is left and the number of calls made. *)
Fixpoint drain (fuel : nat) (gateway : nat → bool) (n : nat)
    (q : list QueueItem) : list Event * list QueueItem * nat :=
  match fuel, q with
  | O, _ | _, [] => ([], q, n)
  | S fuel, item :: rest =>
      let '(ev, q') := iteration (gateway n) item rest in
      let '(evs, qf, nf) := drain fuel gateway (S n) q' in
      (ev ++ evs, qf, nf)
  end.

Definition processQueue (fuel : nat) (gateway : nat → bool) (n : nat)
    (tg : t) : list Event * t * nat :=
  if isProcessingQueue tg || bool_decide (messageQueue tg = []) then
    ([], tg, n)
  else
    let '(evs, qf, nf) := drain fuel gateway n (messageQueue tg) in
    (evs, mk qf (negb (bool_decide (qf = []))), nf).

(** Delivery attempts recorded in a trace for the message of [i]. *)
Definition is_attempt (e : Event) : bool :=
  match e with Delivered _ | Failed _ => true | _ => false end.

Definition attempts (tr : list Event) : nat :=
  length (filter (λ e, is_attempt e = true) tr).

Definition is_delivery (e : Event) : bool :=
  match e with Delivered _ => true | _ => false end.

(** Iterations left for an item that keeps failing. *)
Definition work (i : QueueItem) : nat := S (maxRetries - retries i).

Definition total_work (q : list QueueItem) : nat :=
  foldr (λ i acc, (work i + acc)%nat) 0%nat q.

End Telegram.

(* ------------------------------------------------------------------ *)
(** * Parsing a score string (JavaScript [split], [trim], [parseInt]) *)

Module Score.

Open Scope string_scope.

(** [s.split('-')] *)
Fixpoint split_dash (s : string) : list string :=
  match s with
  | EmptyString => [EmptyString]
  | String c s' =>
      if Ascii.eqb c "-" then EmptyString :: split_dash s'
      else match split_dash s' with
           | [] => [String c EmptyString]
           | p :: ps => String c p :: ps
           end
  end.

(** ASCII white space and line terminators. *)
Definition is_space (c : ascii) : bool :=
  let n := nat_of_ascii c in
  ((9 <=? n) && (n <=? 13))%nat || (n =? 32)%nat.

Fixpoint trim_start (s : string) : string :=
  match s with
  | EmptyString => EmptyString
  | String c s' => if is_space c then trim_start s' else s
  end.

Fixpoint trim_end (s : string) : string :=
  match s with
  | EmptyString => EmptyString
  | String c s' =>
      match trim_end s' with
      | EmptyString => if is_space c then EmptyString
                       else String c EmptyString
      | t => String c t
      end
  end.

Definition trim (s : string) : string := trim_end (trim_start s).

Definition digit (c : ascii) : option Z :=
  let n := nat_of_ascii c in
  if ((48 <=? n) && (n <=? 57))%nat then Some (Z.of_nat (n - 48)) else None.

(** Value of the longest prefix of decimal digits; [None] when that
    prefix is empty. *)
Fixpoint digits (acc : option Z) (s : string) : option Z :=
  match s with
  | EmptyString => acc
  | String c s' =>
      match digit c with
      | Some d => digits (Some (10 * default 0 acc + d)) s'
      | None => acc
      end
  end.

(** [parseInt(s, 10)]; [None] is NaN. *)
Definition parseInt (s : string) : option Z :=
  match trim_start s with
  | String "-" s' => Z.opp <$> digits None s'
  | String "+" s' => digits None s'
  | s' => digits None s'
  end.

(** [const [home, away] = ss.split('-').map(s => parseInt(s.trim(), 10))]
    followed by [isNaN(x) ? null : x] on each side. *)
Definition parseScore (ss : string) : option Z * option Z :=
  let parts := (λ s, parseInt (trim s)) <$> split_dash ss in
  (mjoin (parts !! 0%nat), mjoin (parts !! 1%nat)).

(** [`${home}-${away}`] *)
Definition scoreString (home away : Z) : string :=
  pretty home +:+ "-" +:+ pretty away.

End Score.

(* ------------------------------------------------------------------ *)
(** * The tracker service and its database *)

Module Tracker.

(** ** State *)

Record World := mkWorld {
  matches : gmap string Match;        (* table [matches], by [match_id] *)
  next_id : nat;                      (* its AUTOINCREMENT counter *)
  odds_history : list OddsHistory;    (* table [odds_history] *)
  telegram : Telegram.t
}.

Definition empty_world : World := mkWorld ∅ 1%nat [] (Telegram.mk [] false).

Definition with_matches (f : gmap string Match → gmap string Match)
    (w : World) : World :=
  mkWorld (f (matches w)) (next_id w) (odds_history w) (telegram w).

Definition with_odds (f : list OddsHistory → list OddsHistory)
    (w : World) : World :=
  mkWorld (matches w) (next_id w) (f (odds_history w)) (telegram w).

Definition with_telegram (tg : Telegram.t) (w : World) : World :=
  mkWorld (matches w) (next_id w) (odds_history w) tg.

(** ** Oracles *)

Record PrematchGoalLine := mkPrematch {
  pm_handicap : number;
  pm_overOdds : string;
  pm_underOdds : string
}.

(** The handicaps of market [1_3] (Asian goal line) of a historical odds
    summary at the start, at kickoff and at the end of the match, as
    [parseFloat] reads them; [None] where the summary has no such
    entry. *)
Record OddsSummary := mkSummary {
  start_handicap : option number;
  kickoff_handicap : option number;
  end_handicap : option number
}.

(** [extractHistoricalAsianGoalLine]: the handicap the line started at
    (the kickoff one if there is no start entry) and whether any of the
    three entries was at 1.5. *)
Definition extractHistoricalAsianGoalLine (s : OddsSummary)
    : option (number * bool) :=
  let touched15 :=
    bool_decide (start_handicap s = Some (Q2Qc 1.5))
    || bool_decide (kickoff_handicap s = Some (Q2Qc 1.5))
    || bool_decide (end_handicap s = Some (Q2Qc 1.5)) in
  let startHandicap :=
    match start_handicap s with
    | Some h => Some h
    | None => kickoff_handicap s
    end in
  (λ h, (h, touched15)) <$> startHandicap.

(** What the upstream feed and the clock answer during one poll cycle. *)
Record Upstream := mkUpstream {
  (* [betsapiService.checkAsianGoalLine(ourEventId)] *)
  checkAsianGoalLine : string → option GoalLineResult;
  (* [getBet365PrematchOdds] followed by [extractPrematchAsianGoalLine] *)
  prematchAsianGoalLine : string → option PrematchGoalLine;
  (* [getMatchResult(bet365_id)], then its field [ss] *)
  getMatchResult : string → option (option string);
  (* [getHistoricalOddsSummary] followed by
     [extractHistoricalAsianGoalLine]: the handicap and [touched15] *)
  historicalAsianGoalLine : string → option (number * bool);
  (* [new Date().toISOString()] while the given match is handled *)
  now : string → string
}.

(** ** Row updates, one per [UPDATE] statement *)

(** [SET detected_odds = ?, current_goal_line = ?, current_score = ?,
    touched_15 = 1] *)
Definition set_touched (h : number) (sc : string) (m : Match) : Match :=
  mkMatch (id m) (match_id m) (bet365_id m) (league_id m) (home_team m)
    (away_team m) (detection_time m) (Some h) (Some h) (Some sc)
    (status m) (final_score_home m) (final_score_away m)
    (match_end_time m) (alert_sent m) (result_alert_sent m) true.

(** [SET alert_sent = 1, touched_15 = 1] *)
Definition set_alert_sent (m : Match) : Match :=
  mkMatch (id m) (match_id m) (bet365_id m) (league_id m) (home_team m)
    (away_team m) (detection_time m) (detected_odds m)
    (current_goal_line m) (current_score m) (status m)
    (final_score_home m) (final_score_away m) (match_end_time m)
    true (result_alert_sent m) true.

(** [SET detected_odds = ?, current_goal_line = ?, current_score = ?] *)
Definition set_goal_line (h : number) (sc : string) (m : Match) : Match :=
  mkMatch (id m) (match_id m) (bet365_id m) (league_id m) (home_team m)
    (away_team m) (detection_time m) (Some h) (Some h) (Some sc)
    (status m) (final_score_home m) (final_score_away m)
    (match_end_time m) (alert_sent m) (result_alert_sent m) (touched_15 m).

(** [SET current_score = ?] *)
Definition set_score (sc : string) (m : Match) : Match :=
  mkMatch (id m) (match_id m) (bet365_id m) (league_id m) (home_team m)
    (away_team m) (detection_time m) (detected_odds m)
    (current_goal_line m) (Some sc) (status m) (final_score_home m)
    (final_score_away m) (match_end_time m) (alert_sent m)
    (result_alert_sent m) (touched_15 m).

(** [SET current_score = ?, current_goal_line = ?] *)
Definition set_score_and_line (sc : string) (gl : number) (m : Match)
    : Match :=
  mkMatch (id m) (match_id m) (bet365_id m) (league_id m) (home_team m)
    (away_team m) (detection_time m) (detected_odds m) (Some gl) (Some sc)
    (status m) (final_score_home m) (final_score_away m)
    (match_end_time m) (alert_sent m) (result_alert_sent m) (touched_15 m).

(** [COALESCE(current_score, ?)] *)
Definition coalesce (a b : option string) : option string :=
  match a with Some _ => a | None => b end.

(** [SET status = 'finished', final_score_home = ?, final_score_away = ?,
    current_score = COALESCE(current_score, ?), match_end_time = ?] *)
Definition set_finished (home away : option Z) (ss : option string)
    (t : string) (m : Match) : Match :=
  mkMatch (id m) (match_id m) (bet365_id m) (league_id m) (home_team m)
    (away_team m) (detection_time m) (detected_odds m)
    (current_goal_line m) (coalesce (current_score m) ss) finished
    home away (Some t) (alert_sent m) (result_alert_sent m) (touched_15 m).

(** [SET result_alert_sent = 1] *)
Definition set_result_alert_sent (m : Match) : Match :=
  mkMatch (id m) (match_id m) (bet365_id m) (league_id m) (home_team m)
    (away_team m) (detection_time m) (detected_odds m)
    (current_goal_line m) (current_score m) (status m)
    (final_score_home m) (final_score_away m) (match_end_time m)
    (alert_sent m) true (touched_15 m).

(** [SET final_score_home = ?, final_score_away = ?,
    current_score = COALESCE(current_score, ?)] *)
Definition set_final_score (home away : Z) (ss : string) (m : Match)
    : Match :=
  mkMatch (id m) (match_id m) (bet365_id m) (league_id m) (home_team m)
    (away_team m) (detection_time m) (detected_odds m)
    (current_goal_line m) (coalesce (current_score m) (Some ss))
    (status m) (Some home) (Some away) (match_end_time m) (alert_sent m)
    (result_alert_sent m) (touched_15 m).

(** [SET detected_odds = ?, current_goal_line = ?, touched_15 = ?] *)
Definition set_backfilled (h : number) (touched : bool) (m : Match)
    : Match :=
  mkMatch (id m) (match_id m) (bet365_id m) (league_id m) (home_team m)
    (away_team m) (detection_time m) (Some h) (Some h) (current_score m)
    (status m) (final_score_home m) (final_score_away m)
    (match_end_time m) (alert_sent m) (result_alert_sent m) touched.

(** ** SQL statements *)

(** [UPDATE matches SET ... WHERE match_id = ?] *)
Definition update_where (matchId : string) (f : Match → Match)
    (w : World) : World :=
  with_matches (alter f matchId) w.

(** [SELECT * FROM matches WHERE match_id = ?] *)
Definition getMatch (matchId : string) (w : World) : option Match :=
  matches w !! matchId.

(** A scan of the table, in rowid order. *)
Definition by_rowid (a b : Match) : Prop := (id a ≤ id b)%nat.

Global Instance by_rowid_dec a b : Decision (by_rowid a b).
Proof. unfold by_rowid. apply _. Defined.

Definition rows (w : World) : list Match :=
  merge_sort by_rowid (snd <$> map_to_list (matches w)).

(** [SELECT * FROM matches WHERE status = 'live'] *)
Definition getLiveMatches (w : World) : list Match :=
  filter (λ m, status m = live) (rows w).

(** [INSERT INTO matches (...) VALUES (..., 'live', touched)]; the other
    columns take their defaults.  [None]: the UNIQUE constraint on
    [match_id] fails. *)
Definition insert_match (mt : LiveMatch) (t : string)
    (h : option number) (touched : bool) (w : World) : option World :=
  match matches w !! lm_id mt with
  | Some _ => None
  | None =>
      let row :=
        mkMatch (next_id w) (lm_id mt) (Some (bet365Id mt)) (leagueId mt)
          (homeTeam mt) (awayTeam mt) t h h (Some (score mt)) live
          None None None false false touched in
      Some (mkWorld (<[lm_id mt := row]> (matches w)) (S (next_id w))
              (odds_history w) (telegram w))
  end.

(** Equality of two column values as a UNIQUE index sees it: a NULL is
    distinct from everything, itself included. *)
Definition sql_eq (a b : option number) : bool :=
  match a, b with
  | Some x, Some y => bool_decide (x = y)
  | _, _ => false
  end.

(** [UNIQUE(match_id, handicap, odds_value)] *)
Definition same_key (a b : OddsHistory) : bool :=
  String.eqb (oh_match_id a) (oh_match_id b)
  && sql_eq (oh_handicap a) (oh_handicap b)
  && sql_eq (oh_odds_value a) (oh_odds_value b).

(** [INSERT OR IGNORE INTO odds_history ...].  [None]: the foreign key
    to [matches(match_id)] fails, which OR IGNORE does not absorb. *)
Definition insert_or_ignore_odds (r : OddsHistory) (w : World)
    : option World :=
  match matches w !! oh_match_id r with
  | None => None
  | Some _ =>
      if existsb (same_key r) (odds_history w) then Some w
      else Some (with_odds (λ l, l ++ [r]) w)
  end.

(** [DELETE FROM odds_history WHERE match_id = ?] *)
Definition delete_odds (matchId : string) (w : World) : World :=
  with_odds (filter (λ r, oh_match_id r ≠ matchId)) w.

(** [DELETE FROM matches WHERE match_id = ?].  [None]: history rows still
    refer to the row (foreign keys are enforced). *)
Definition delete_match (matchId : string) (w : World) : option World :=
  match matches w !! matchId with
  | None => Some w
  | Some _ =>
      if existsb (λ r, String.eqb (oh_match_id r) matchId) (odds_history w)
      then None
      else Some (with_matches (delete matchId) w)
  end.

Section WithConfig.

Variable cfg : Config.t.

(** [parseFloat], with [None] for NaN. *)
Variable parseFloat : string → option number.

(** ** The per-match methods *)

(** [sendTargetDetectionAlert]: hand the alert to the queue and, when
    it was accepted, record it. *)
Definition sendTargetDetectionAlert (m : Match) (g : GoalLineResult)
    (target : number) (w : World) : World :=
  let '(success, tg) :=
    Telegram.sendTargetDetectionAlert cfg m g target (telegram w) in
  let w := with_telegram tg w in
  if success then update_where (match_id m) set_alert_sent w else w.

Definition handleTargetGoalLineDetection (up : Upstream) (mt : LiveMatch)
    (g : GoalLineResult) (target : number) (w : World) : option World :=
  let matchId := lm_id mt in
  w ← insert_match mt (now up matchId) (Some (handicap g)) true w;
  match getMatch matchId w with
  | Some savedMatch => Some (sendTargetDetectionAlert savedMatch g target w)
  | None => Some w
  end.

Definition markMatchAsTouchedTarget (matchId : string) (h : number)
    (sc : string) (w : World) : World :=
  update_where matchId (set_touched h sc) w.

Definition saveMatchWithGoalLine (up : Upstream) (mt : LiveMatch)
    (h : option number) (w : World) : option World :=
  insert_match mt (now up (lm_id mt)) h false w.

Definition updateMatchGoalLine (matchId : string) (h : number)
    (sc : string) (w : World) : World :=
  update_where matchId (set_goal_line h sc) w.

Definition updateMatchScore (matchId : string) (sc : string)
    (w : World) : World :=
  update_where matchId (set_score sc) w.

Definition updateMatchScoreAndGoalLine (matchId : string) (sc : string)
    (goalLine : number) (w : World) : World :=
  update_where matchId (set_score_and_line sc goalLine) w.

(** [parseFloat(overOdds) || 0] is the stored odds value. *)
Definition saveGoalLineHistory (up : Upstream) (matchId : string)
    (h : number) (over under : string) (w : World) : option World :=
  insert_or_ignore_odds
    (mkOdds matchId (Some (default (Q2Qc 0) (parseFloat over))) (Some h)
       (Some (now up matchId))) w.

(** The resolver chain at the head of [processMatchWithGoalLine]: the
    primary source, then the pre-match snapshot when a fixture id is
    there. *)
Definition resolveGoalLine (up : Upstream) (mt : LiveMatch)
    : option GoalLineResult :=
  match checkAsianGoalLine up (ourEventId mt) with
  | Some g => Some g
  | None =>
      if truthy (Some (bet365Id mt)) then
        match prematchAsianGoalLine up (bet365Id mt) with
        | Some p => Some (mkGoalLine (pm_handicap p) (pm_overOdds p)
                            (pm_underOdds p) (score mt))
        | None => None
        end
      else None
  end.

(** The branch taken for an observation that carries a goal line. *)
Definition applyGoalLine (up : Upstream) (mt : LiveMatch)
    (existingMatch : option Match) (g : GoalLineResult)
    (targetGoalLine : number) (w : World) : option World :=
  let matchId := lm_id mt in
  let isTargetGoalLine := bool_decide (handicap g = targetGoalLine) in
  if isTargetGoalLine then
    match existingMatch with
    | None => handleTargetGoalLineDetection up mt g targetGoalLine w
    | Some em =>
        if negb (alert_sent em) then
          Some (sendTargetDetectionAlert em g targetGoalLine
                  (markMatchAsTouchedTarget matchId (handicap g)
                     (score mt) w))
        else
          Some (updateMatchScoreAndGoalLine matchId (score mt)
                  (handicap g) w)
    end
  else
    match existingMatch with
    | None => saveMatchWithGoalLine up mt (Some (handicap g)) w
    | Some em =>
        if touched_15 em then
          Some (updateMatchScoreAndGoalLine matchId (score mt)
                  (handicap g) w)
        else
          Some (updateMatchGoalLine matchId (handicap g) (score mt) w)
    end.

(** [processMatchWithGoalLine].  The body sits in a [try]/[catch] that
    only logs: an exception ends the processing of this match and keeps
    whatever was written before it. *)
Definition processMatchWithGoalLine (up : Upstream) (mt : LiveMatch)
    (w : World) : World :=
  let matchId := lm_id mt in
  let existingMatch := getMatch matchId w in
  let goalLineResult := resolveGoalLine up mt in
  let targetGoalLine := Config.getTargetGoalLine cfg (leagueId mt) in
  match goalLineResult with
  | Some g =>
      match applyGoalLine up mt existingMatch g targetGoalLine w with
      | None => w
      | Some w1 =>
          default w1
            (saveGoalLineHistory up matchId (handicap g) (overOdds g)
               (underOdds g) w1)
      end
  | None =>
      match existingMatch with
      | None => default w (saveMatchWithGoalLine up mt None w)
      | Some _ => updateMatchScore matchId (score mt) w
      end
  end.

(** ** Completion *)

(** The two local variables [homeScore], [awayScore] of
    [markMatchAsFinished] when the [UPDATE] runs. *)
Definition finalScore (up : Upstream) (m : Match) : option Z * option Z :=
  let parsed :=
    if truthy (current_score m)
    then Score.parseScore (default ""%string (current_score m))
    else (None, None) in
  if bool_decide (parsed.1 = None) || bool_decide (parsed.2 = None) then
    if truthy (bet365_id m) then
      match getMatchResult up (default ""%string (bet365_id m)) with
      | Some ss =>
          if truthy ss then
            match Score.parseScore (default ""%string ss) with
            | (Some home, Some away) => (Some home, Some away)
            | _ => parsed
            end
          else parsed
      | None => parsed
      end
    else parsed
  else parsed.

Definition markMatchAsFinished (up : Upstream) (m : Match) (w : World)
    : World :=
  let t := now up (match_id m) in
  let '(homeScore, awayScore) := finalScore up m in
  let scoreString :=
    match homeScore, awayScore with
    | Some h, Some a => Some (Score.scoreString h a)
    | _, _ => None
    end in
  let w :=
    update_where (match_id m)
      (set_finished homeScore awayScore scoreString t) w in
  if negb (result_alert_sent m) then
    match getMatch (match_id m) w with
    | Some updatedMatch =>
        let '(success, tg) :=
          Telegram.sendResultAlert cfg updatedMatch (telegram w) in
        let w := with_telegram tg w in
        if success
        then update_where (match_id m) set_result_alert_sent w
        else w
    | None => w
    end
  else w.

(** The body of the loop of [checkFinishedMatchesV2]. *)
Definition finishIfAbsent (up : Upstream) (liveMatchIds : list string)
    (w : World) (m : Match) : World :=
  if bool_decide (match_id m ∈ liveMatchIds) then w
  else markMatchAsFinished up m w.

Definition checkFinishedMatchesV2 (up : Upstream)
    (currentLiveMatches : list LiveMatch) (w : World) : World :=
  let dbLiveMatches := getLiveMatches w in
  if bool_decide (dbLiveMatches = []) then w
  else
    let liveMatchIds := lm_id <$> currentLiveMatches in
    foldl (finishIfAbsent up liveMatchIds) w dbLiveMatches.

(** ** The rolling database limit *)

Definition by_detection_time (a b : Match) : Prop :=
  String.leb (detection_time a) (detection_time b) = true.

Global Instance by_detection_time_dec a b
  : Decision (by_detection_time a b).
Proof. unfold by_detection_time. apply _. Defined.

(** [SELECT match_id FROM matches WHERE status = 'finished'
    ORDER BY detection_time ASC LIMIT ?] *)
Definition oldestFinished (limit : Z) (w : World) : list string :=
  match_id <$>
    take (Z.to_nat limit)
      (merge_sort by_detection_time
         (filter (λ m, status m = finished) (rows w))).

Inductive Stmt :=
| DeleteOdds (matchId : string)
| DeleteMatch (matchId : string).

Definition exec (s : Stmt) (w : World) : option World :=
  match s with
  | DeleteOdds i => Some (delete_odds i w)
  | DeleteMatch i => delete_match i w
  end.

(** Statements in sequence inside a [try]: the first exception stops
    the run.  The flag tells whether the run went through. *)
Fixpoint run (ss : list Stmt) (w : World) : World * bool :=
  match ss with
  | [] => (w, true)
  | s :: ss =>
      match exec s w with
      | Some w' => run ss w'
      | None => (w, false)
      end
  end.

(** The statements issued by [enforceMatchLimit]: the two loops, one
    after the other. *)
Definition evictions (matchIds : list string) : list Stmt :=
  (DeleteOdds <$> matchIds) ++ (DeleteMatch <$> matchIds).

Definition enforceMatchLimit (w : World) : World :=
  let maxMatches := Config.maxMatches cfg in
  let totalCount := Z.of_nat (size (matches w)) in
  if bool_decide (totalCount ≤ maxMatches) then w
  else
    let toDelete := totalCount - maxMatches in
    let matchIds := oldestFinished toDelete w in
    if bool_decide (matchIds = []) then w
    else (run (evictions matchIds) w).1.

(** ** One poll cycle *)

Definition poll (up : Upstream) (liveMatches : list LiveMatch)
    (w : World) : World :=
  let w := foldl (λ w mt, processMatchWithGoalLine up mt w)
             w liveMatches in
  let w := checkFinishedMatchesV2 up liveMatches w in
  enforceMatchLimit w.

(** ** The two backfill passes *)

(** [backfillMissingScores]: one iteration of its loop. *)
Definition backfillScore (up : Upstream) (m : Match) (w : World)
    : World :=
  if truthy (bet365_id m) then
    match getMatchResult up (default ""%string (bet365_id m)) with
    | Some ss =>
        if truthy ss then
          match Score.parseScore (default ""%string ss) with
          | (Some home, Some away) =>
              update_where (match_id m)
                (set_final_score home away (default ""%string ss)) w
          | _ => w
          end
        else w
    | None => w
    end
  else w.

Definition backfillMissingScores (up : Upstream) (w : World) : World :=
  let matchesWithMissingScores :=
    filter (λ m, status m = finished
                 ∧ (final_score_home m = None ∨ final_score_away m = None))
           (rows w) in
  foldl (λ w m, backfillScore up m w) w matchesWithMissingScores.

(** [backfillMissingGoalLines]: one iteration of its loop. *)
Definition backfillGoalLine (up : Upstream) (m : Match) (w : World)
    : World :=
  match historicalAsianGoalLine up (match_id m) with
  | Some (h, touched15) =>
      update_where (match_id m) (set_backfilled h touched15) w
  | None => w
  end.

(** [WHERE detected_odds IS NULL ORDER BY id DESC LIMIT 200] *)
Definition backfillMissingGoalLines (up : Upstream) (w : World)
    : World :=
  let matchesWithMissingGoalLine :=
    take 200 (reverse (filter (λ m, detected_odds m = None) (rows w))) in
  foldl (λ w m, backfillGoalLine up m w) w matchesWithMissingGoalLine.

(** ** The operations that write the [matches] table *)

Inductive Op :=
| Poll (up : Upstream) (liveMatches : list LiveMatch)
| BackfillScores (up : Upstream)
| BackfillGoalLines (up : Upstream).

Definition step (op : Op) (w : World) : World :=
  match op with
  | Poll up liveMatches => poll up liveMatches w
  | BackfillScores up => backfillMissingScores up w
  | BackfillGoalLines up => backfillMissingGoalLines up w
  end.

Definition steps (ops : list Op) (w : World) : World :=
  foldl (λ w op, step op w) w ops.

Definition polls (ps : list (Upstream * list LiveMatch)) (w : World)
    : World :=
  foldl (λ w p, poll p.1 p.2 w) w ps.

End WithConfig.

End Tracker.

(* ------------------------------------------------------------------ *)
(** * Vocabulary of the statements *)

Module RowView.

Import Tracker.

(** Well-formed databases: a row sits under its own [match_id] and its
    rowid was handed out by the counter. *)
Definition wf (w : World) : Prop :=
  map_Forall (λ i m, match_id m = i ∧ (id m < next_id w)%nat) (matches w).

Global Instance wf_dec w : Decision (wf w).
Proof. unfold wf. apply _. Defined.

(** The record with rowid [r] stored under [i], while it exists. *)
Definition record (i : string) (r : nat) (w : World) : option Match :=
  match matches w !! i with
  | Some m => if bool_decide (id m = r) then Some m else None
  | None => None
  end.

Section WithConfig.

Variable cfg : Config.t.

(** What the branches of [processMatchWithGoalLine] do to the row of the
    observed match when that row exists; [g] is the resolved goal line.
    Lemma [process_existing] proves the agreement. *)
Definition observe (mt : LiveMatch) (g : option GoalLineResult)
    (m : Match) : Match :=
  match g with
  | None => set_score (score mt) m
  | Some g =>
      if bool_decide
           (handicap g = Config.getTargetGoalLine cfg (leagueId mt)) then
        if negb (alert_sent m) then
          let m' := set_touched (handicap g) (score mt) m in
          if Telegram.accepts cfg then set_alert_sent m' else m'
        else set_score_and_line (score mt) (handicap g) m
      else if touched_15 m then
        set_score_and_line (score mt) (handicap g) m
      else set_goal_line (handicap g) (score mt) m
  end.

(** The notifications these branches hand to the queue. *)
Definition observe_alerts (mt : LiveMatch) (g : option GoalLineResult)
    (m : Match) : list Telegram.Message :=
  match g with
  | None => []
  | Some g =>
      let target := Config.getTargetGoalLine cfg (leagueId mt) in
      if bool_decide (handicap g = target) && negb (alert_sent m)
         && Telegram.accepts cfg
      then [Telegram.TargetDetectionAlert m g target]
      else []
  end.

(** The row written for a match seen for the first time. *)
Definition created (up : Upstream) (mt : LiveMatch)
    (g : option GoalLineResult) (rowid : nat) : Match :=
  let h := handicap <$> g in
  let at_target :=
    bool_decide (h = Some (Config.getTargetGoalLine cfg (leagueId mt))) in
  mkMatch rowid (lm_id mt) (Some (bet365Id mt)) (leagueId mt)
    (homeTeam mt) (awayTeam mt) (now up (lm_id mt)) h h
    (Some (score mt)) live None None None
    (at_target && Telegram.accepts cfg) false at_target.

(** The notification handed to the queue on that occasion; it carries
    the row as it was read back right after the [INSERT]. *)
Definition created_alerts (up : Upstream) (mt : LiveMatch)
    (g : option GoalLineResult) (rowid : nat)
    : list Telegram.Message :=
  match g with
  | None => []
  | Some g =>
      let target := Config.getTargetGoalLine cfg (leagueId mt) in
      if bool_decide (handicap g = target) && Telegram.accepts cfg
      then [Telegram.TargetDetectionAlert
              (mkMatch rowid (lm_id mt) (Some (bet365Id mt)) (leagueId mt)
                 (homeTeam mt) (awayTeam mt) (now up (lm_id mt))
                 (Some (handicap g)) (Some (handicap g))
                 (Some (score mt)) live None None None false false true)
              g target]
      else []
  end.

(** The history table after the observation [g] of match [mt]. *)
Definition recorded (parseFloat : string → option number)
    (up : Upstream) (mt : LiveMatch) (g : option GoalLineResult)
    (l : list OddsHistory) : list OddsHistory :=
  match g with
  | None => l
  | Some g =>
      let r := mkOdds (lm_id mt)
                 (Some (default (Q2Qc 0) (parseFloat (overOdds g))))
                 (Some (handicap g)) (Some (now up (lm_id mt))) in
      if existsb (same_key r) l then l else l ++ [r]
  end.

(** The row [markMatchAsFinished] writes for the row [m] it was given,
    before the completion flag. *)
Definition finished_row (up : Upstream) (m : Match) : Match :=
  let fs := finalScore up m in
  set_finished fs.1 fs.2
    (match fs.1, fs.2 with
     | Some h, Some a => Some (Score.scoreString h a)
     | _, _ => None
     end)
    (now up (match_id m)) m.

(** The row after [markMatchAsFinished], and what it hands to the
    queue. *)
Definition finish (up : Upstream) (m : Match) : Match :=
  if negb (result_alert_sent m) && Telegram.accepts cfg
  then set_result_alert_sent (finished_row up m)
  else finished_row up m.

Definition finish_alerts (up : Upstream) (m : Match)
    : list Telegram.Message :=
  if negb (result_alert_sent m) && Telegram.accepts cfg
  then [Telegram.ResultAlert (finished_row up m)]
  else [].

End WithConfig.

(** How the row under [i] in [w'] relates to the database [w] it came
    from: it descends from the row that was there, or it is a row created
    since. *)
Definition evolves (R : Match → Match → Prop) (N : Match → Prop)
    (i : string) (w w' : World) : Prop :=
  ∀ m', matches w' !! i = Some m' →
    (∃ m, matches w !! i = Some m ∧ R m m')
    ∨ ((next_id w ≤ id m')%nat ∧ N m').

(** The queue entries a list of messages becomes. *)
Definition queued (cfg : Config.t) (msgs : list Telegram.Message)
    : list Telegram.QueueItem :=
  (λ msg, Telegram.mkItem (Config.chatId cfg) msg 0%nat) <$> msgs.

Definition push (cfg : Config.t) (msgs : list Telegram.Message)
    (tg : Telegram.t) : Telegram.t :=
  Telegram.mk (Telegram.messageQueue tg ++ queued cfg msgs)
    (Telegram.isProcessingQueue tg).

(** The subject of a notification: the record it was formatted from. *)
Definition detection_for (i : string) (r : nat)
    (item : Telegram.QueueItem) : bool :=
  match Telegram.message item with
  | Telegram.TargetDetectionAlert m _ _ =>
      bool_decide (match_id m = i ∧ id m = r)
  | _ => false
  end.

Definition completion_for (i : string) (r : nat)
    (item : Telegram.QueueItem) : bool :=
  match Telegram.message item with
  | Telegram.ResultAlert m => bool_decide (match_id m = i ∧ id m = r)
  | _ => false
  end.


Definition count (p : Telegram.QueueItem → bool)
    (q : list Telegram.QueueItem) : nat :=
  length (filter (λ i, p i = true) q).

(** The relations along which a record is followed: [R] relates a row to
    its later states, [N] holds of a row when it is created. *)
Class RowOrder (R : Match → Match → Prop) (N : Match → Prop) : Prop := {
  row_refl : ∀ m, R m m;
  row_trans : ∀ m1 m2 m3, R m1 m2 → R m2 m3 → R m1 m3;
  row_id : ∀ m m', R m m' → id m' = id m;
  row_closed : ∀ m m', N m → R m m' → N m'
}.

(** One piece of the tracker's work, as seen from the key [i]. *)
Definition tracks (R : Match → Match → Prop) (N : Match → Prop)
    (i : string) (w w' : World) : Prop :=
  wf w' ∧ (next_id w ≤ next_id w')%nat ∧ evolves R N i w w'.

(** What no statement of the tracker undoes. *)
Definition settles (m m' : Match) : Prop :=
  id m' = id m ∧ match_id m' = match_id m
  ∧ (status m = finished → status m' = finished)
  ∧ (alert_sent m = true → alert_sent m' = true)
  ∧ (result_alert_sent m = true → result_alert_sent m' = true).

(** The touched flag of [m] stands the way the poll cycle sets it: with
    the detection alert recorded, or with the target [t] of the league as
    detected goal line. *)
Definition settled_at (t : number) (m : Match) : Prop :=
  touched_15 m = true → alert_sent m = true ∨ detected_odds m = Some t.

(** From such a row on, the flag and the detected goal line stay. *)
Definition frozen (t : number) (m m' : Match) : Prop :=
  id m' = id m
  ∧ (settled_at t m →
     settled_at t m'
     ∧ (touched_15 m = true →
        touched_15 m' = true ∧ detected_odds m' = detected_odds m)).

(** Notifications of one kind are handed over at most once per record:
    [new] is what the queue has gained, [p i r] picks the notifications
    about the record [(i, r)], [f] is the flag that records the
    hand-over, and [base i r] is 1 when the flag was already set at the
    start. *)
Definition once_only (p : string → nat → Telegram.QueueItem → bool)
    (f : Match → bool) (base : string → nat → nat)
    (new : list Telegram.QueueItem) (w : World) : Prop :=
  ∀ i r,
    (count (p i r) new + base i r ≤ 1)%nat
    ∧ ((count (p i r) new + base i r = 1)%nat →
       (r < next_id w)%nat
       ∧ ∀ m, matches w !! i = Some m → id m = r → f m = true).

Definition flagged (f : Match → bool) (w : World) (i : string) (r : nat)
    : nat :=
  match record i r w with
  | Some m => if f m then 1%nat else 0%nat
  | None => 0%nat
  end.

(** Both kinds of notification, for what the queue gained since it was
    [q0]. *)
Definition notified_once (bd br : string → nat → nat)
    (q0 : list Telegram.QueueItem) (w : World) : Prop :=
  wf w
  ∧ ∃ new,
      Telegram.messageQueue (telegram w) = q0 ++ new
      ∧ once_only detection_for alert_sent bd new w
      ∧ once_only completion_for result_alert_sent br new w.

(** The statements that leave the detection fields alone. *)
Definition quiet (m m' : Match) : Prop :=
  settles m m'
  ∧ detected_odds m' = detected_odds m
  ∧ touched_15 m' = touched_15 m
  ∧ alert_sent m' = alert_sent m.

(** The rows [backfillScore] and [backfillGoalLine] leave behind. *)
Definition backfilled_score (up : Upstream) (m : Match) : Match :=
  if truthy (bet365_id m) then
    match getMatchResult up (default ""%string (bet365_id m)) with
    | Some ss =>
        if truthy ss then
          match Score.parseScore (default ""%string ss) with
          | (Some home, Some away) =>
              set_final_score home away (default ""%string ss) m
          | _ => m
          end
        else m
    | None => m
    end
  else m.

Definition backfilled_line (up : Upstream) (m : Match) : Match :=
  match historicalAsianGoalLine up (match_id m) with
  | Some (h, touched15) => set_backfilled h touched15 m
  | None => m
  end.

(** The resolution order of the final score, step by step: (a) the two
    sides parsed from the stored score; (b) failing that, the two sides of
    the score found by the remote lookup; (c) failing that too, whatever
    the stored score gave, side by side. *)
Definition scoreFromCurrent (m : Match) : option Z * option Z :=
  if truthy (current_score m)
  then Score.parseScore (default ""%string (current_score m))
  else (None, None).

Definition scoreFromLookup (up : Upstream) (m : Match) : option (Z * Z) :=
  if truthy (bet365_id m) then
    match getMatchResult up (default ""%string (bet365_id m)) with
    | Some ss =>
        if truthy ss then
          match Score.parseScore (default ""%string ss) with
          | (Some home, Some away) => Some (home, away)
          | _ => None
          end
        else None
    | None => None
    end
  else None.

Definition resolvedOutcome (up : Upstream) (m : Match)
    : option Z * option Z :=
  match scoreFromCurrent m with
  | (Some home, Some away) => (Some home, Some away)
  | partial =>
      match scoreFromLookup up m with
      | Some (home, away) => (Some home, Some away)
      | None => partial
      end
  end.

(** The tables after the two loops of [enforceMatchLimit]. *)
Definition evict (ids : list string) (db : gmap string Match)
    : gmap string Match :=
  foldl (λ db i, delete i db) db ids.

Definition purge (ids : list string) (l : list OddsHistory)
    : list OddsHistory :=
  foldl (λ l i, filter (λ r, oh_match_id r ≠ i) l) l ids.

(** The ids [enforceMatchLimit] picks. *)
Definition evicted (cfg : Config.t) (w : World) : list string :=
  let totalCount := Z.of_nat (size (matches w)) in
  if bool_decide (totalCount ≤ Config.maxMatches cfg) then []
  else oldestFinished (totalCount - Config.maxMatches cfg) w.

Definition finishedRows (w : World) : list Match :=
  filter (λ m, status m = finished) (rows w).


End RowView.

(* ------------------------------------------------------------------ *)
(** * Concrete configurations, feeds and databases *)

Module Examples.

Import Tracker.
Open Scope string_scope.

Definition cfg0 : Config.t := Config.shipped "token" "chat".

(** No odds string parses. *)
Definition pf0 (s : string) : option number := None.

Definition clock (s : string) : string := "2024-01-01T10:00:00.000Z".

(** A feed that knows no goal line and no result. *)
Definition up_none : Upstream :=
  mkUpstream (λ _, None) (λ _, None) (λ _, None) (λ _, None) clock.

(** A feed whose primary source reports the goal line [h]. *)
Definition up_line (h : number) : Upstream :=
  mkUpstream (λ _, Some (mkGoalLine h "1.90" "1.95" "0-0"))
    (λ _, None) (λ _, None) (λ _, None) clock.

(** A feed whose historical odds summary is [s]. *)
Definition up_history (s : OddsSummary) : Upstream :=
  mkUpstream (λ _, None) (λ _, None) (λ _, None)
    (λ _, extractHistoricalAsianGoalLine s) clock.

(** A line that started at 2 and stood at 1.5 at kickoff. *)
Definition summary_2_then_target : OddsSummary :=
  mkSummary (Some (Q2Qc 2)) (Some (Q2Qc 1.5)) None.

(** A match of the H2H GG League (target 1.5) and one of a league that
    is not in the table. *)
Definition mt0 : LiveMatch :=
  mkLive "m1" "m1" "b1" 37298 "H2H GG League" "A" "B" "0-0".

Definition mt_other : LiveMatch :=
  mkLive "m9" "m9" "b9" 99999 "Other" "C" "D" "0-0".

(** The same match with a half-written score. *)
Definition mt_half : LiveMatch :=
  mkLive "m1" "m1" "b1" 37298 "H2H GG League" "A" "B" "2-".

(** A database with the row of [mt0], first seen without a goal line. *)
Definition w_seen : World := poll cfg0 pf0 up_none [mt0] empty_world.

(** ... after a backfill pass found that the line had started at 2 and
    had been at 1.5 since. *)
Definition w_backfilled : World :=
  step cfg0 pf0 (BackfillGoalLines (up_history summary_2_then_target))
    w_seen.

(** ... and a database where the match was seen at its target. *)
Definition w_touched : World :=
  poll cfg0 pf0 (up_line (Q2Qc 1.5)) [mt0] empty_world.

(** The half-scored match is seen once, then leaves the feed. *)
Definition w_half_seen : World := poll cfg0 pf0 up_none [mt_half] empty_world.

Definition w_half_finished : World := poll cfg0 pf0 up_none [] w_half_seen.

(** A limit of two rows, and three matches first seen one after the
    other; the first two then leave the feed. *)
Definition cfg2 : Config.t :=
  Config.mk "token" "chat" Config.shipped_targets 2.

Definition up_seq : Upstream :=
  mkUpstream (λ _, None) (λ _, None) (λ _, None) (λ _, None)
    (λ i, "2024-01-01T10:00:00.000Z-" +:+ i).

Definition mt_a : LiveMatch := mkLive "a" "a" "ba" 37298 "L" "A1" "A2" "1-0".
Definition mt_b : LiveMatch := mkLive "b" "b" "bb" 37298 "L" "B1" "B2" "0-2".
Definition mt_c : LiveMatch := mkLive "c" "c" "bc" 37298 "L" "C1" "C2" "0-0".

Definition w_three : World :=
  poll cfg2 pf0 up_seq [mt_a; mt_b; mt_c] empty_world.

Definition w_over : World :=
  checkFinishedMatchesV2 cfg2 up_seq [mt_c] w_three.

(** Three cycles on [mt0]: at its target, above it, at it again. *)
Definition cycle (h : number) : Upstream * list LiveMatch :=
  (up_line h, [mt0]).

(** The cycle in which [mt0] is seen at 1.5 after the backfill. *)
Definition w_backfilled_then_target : World :=
  polls cfg0 pf0 [cycle (Q2Qc 1.5)] w_backfilled.

(** [mt0] is seen at its target in two cycles, then leaves the feed
    for two cycles. *)
Definition seen_twice_gone_twice : list Op :=
  [Poll (up_line (Q2Qc 1.5)) [mt0]; Poll (up_line (Q2Qc 1.5)) [mt0];
   Poll up_none []; Poll up_none []].

Definition item0 : Telegram.QueueItem :=
  Telegram.mkItem "chat" Telegram.TestMessage 0.

End Examples.

(* ------------------------------------------------------------------ *)
(** * Reading a trace of the drain loop *)

Module QueueView.

Import Telegram.

(** The items a trace reports as delivered, and as dropped, in order. *)
Definition delivered (tr : list Event) : list QueueItem :=
  omap (λ e, match e with Delivered i => Some i | _ => None end) tr.

Definition dropped (tr : list Event) : list QueueItem :=
  omap (λ e, match e with Dropped i => Some i | _ => None end) tr.

Definition is_failure (e : Event) : bool :=
  match e with Failed _ | Requeued _ | Dropped _ => true | _ => false end.

(** The retry counts and the pauses a trace may show. *)
Definition within_bounds (e : Event) : Prop :=
  match e with
  | Requeued i => (1 ≤ retries i ≤ maxRetries)%nat
  | Slept ms => (ms ≤ retryDelay * maxRetries)%nat
  | _ => True
  end.

End QueueView.

(* ------------------------------------------------------------------ *)
(** * Reading score strings *)

Module ScoreView.

(** Every character of [s] satisfies [P]. *)
Fixpoint all_chars (P : ascii → bool) (s : string) : bool :=
  match s with
  | EmptyString => true
  | String c s' => P c && all_chars P s'
  end.


Definition not_dash (c : ascii) : bool := negb (Ascii.eqb c "-").

End ScoreView.

(* ------------------------------------------------------------------ *)
(** * What the columns of a row tell about each other *)

Module Coherence.

Import Tracker.

(** The columns of a row agree: the score is there; the two goal-line
    columns are null together; a row without detected goal line is not
    flagged as touched and a row with a recorded alert is; a live row
    has no outcome, and a finished row has its end time. *)
Definition sound (m : Match) : Prop :=
  current_score m ≠ None
  ∧ (detected_odds m = None ↔ current_goal_line m = None)
  ∧ (detected_odds m = None → touched_15 m = false)
  ∧ (alert_sent m = true → touched_15 m = true)
  ∧ (status m = live →
     final_score_home m = None ∧ final_score_away m = None
     ∧ match_end_time m = None ∧ result_alert_sent m = false)
  ∧ (status m = finished → match_end_time m ≠ None).

(** A statement that keeps the rowid and, on a row whose columns
    agree, the agreement. *)
Definition keeps (m m' : Match) : Prop :=
  id m' = id m ∧ (sound m → sound m').

Definition all_sound (w : World) : Prop :=
  ∀ i m, getMatch i w = Some m → sound m.

End Coherence.

(* ------------------------------------------------------------------ *)
(** * Start-up of the database ([src/config/database.ts]) *)

Module Schema.

Import Tracker.



End Schema.

(* ------------------------------------------------------------------ *)
(** * The row of a fed match *)

Module PollView.

Import Tracker RowView.

(** The row of the fed match [mt] after the processing loop of a poll
    cycle that started on [w]: the row that was there, observed, or a
    row created with a fresh rowid. *)
Definition seen (cfg : Config.t) (up : Upstream) (mt : LiveMatch)
    (w : World) (m' : Match) : Prop :=
  let g := resolveGoalLine up mt in
  (∃ m, matches w !! lm_id mt = Some m ∧ m' = observe cfg mt g m)
  ∨ (matches w !! lm_id mt = None
     ∧ ∃ r, (next_id w ≤ r)%nat ∧ m' = created cfg up mt g r).

End PollView.

(* ------------------------------------------------------------------ *)
(** * A gateway that is not configured *)

Module Silence.

Import Tracker.

(** The two alert flags of a row are what they were. *)
Definition unflagged (m m' : Match) : Prop :=
  id m' = id m
  ∧ alert_sent m' = alert_sent m
  ∧ result_alert_sent m' = result_alert_sent m.

Definition flagless (m : Match) : Prop :=
  alert_sent m = false ∧ result_alert_sent m = false.

(** The shipped configuration without a bot token. *)
Definition cfg_off : Config.t := Config.shipped "" "chat".

End Silence.

(* ------------------------------------------------------------------ *)
(** * The backfill passes with their reports *)

Module Backfill.

Import Tracker.
Local Open Scope string_scope.

(** [`${match.home_team} vs ${match.away_team}`] *)
Definition teams (m : Match) : string :=
  home_team m +:+ " vs " +:+ away_team m.

(** One entry of [details] of [backfillMissingScores]. *)
Record ScoreDetail := mkScoreDetail {
  sd_matchId : string;
  sd_teams : string;
  sd_result : string
}.

(** The local variables of the loop of [backfillMissingScores], with
    the database. *)
Record ScoreRun := mkScoreRun {
  sr_world : World;
  sr_updated : nat;
  sr_failed : nat;
  sr_details : list ScoreDetail
}.

(** The value [backfillMissingScores] returns. *)
Record ScoreReport := mkScoreReport {
  processed : nat;
  updated : nat;
  failed : nat;
  details : list ScoreDetail
}.

(** One iteration of the loop.  No statement of the body raises, so
    the [catch] that would report ['ERROR'] is never entered. *)
Definition backfillScoreCounted (up : Upstream) (st : ScoreRun)
    (m : Match) : ScoreRun :=
  let notFound :=
    mkScoreRun (sr_world st) (sr_updated st) (S (sr_failed st))
      (sr_details st
       ++ [mkScoreDetail (match_id m) (teams m) "NOT_FOUND"]) in
  if truthy (bet365_id m) then
    match getMatchResult up (default "" (bet365_id m)) with
    | Some ss =>
        if truthy ss then
          match Score.parseScore (default "" ss) with
          | (Some home, Some away) =>
              mkScoreRun
                (update_where (match_id m)
                   (set_final_score home away (default "" ss))
                   (sr_world st))
                (S (sr_updated st)) (sr_failed st)
                (sr_details st
                 ++ [mkScoreDetail (match_id m) (teams m)
                       (Score.scoreString home away)])
          | _ => notFound
          end
        else notFound
    | None => notFound
    end
  else notFound.

(** [backfillMissingScores], with what it returns. *)
Definition backfillMissingScoresReport (up : Upstream) (w : World)
    : World * ScoreReport :=
  let matchesWithMissingScores :=
    filter (λ m, status m = finished
                 ∧ (final_score_home m = None ∨ final_score_away m = None))
           (rows w) in
  let st := foldl (backfillScoreCounted up) (mkScoreRun w 0 0 [])
              matchesWithMissingScores in
  (sr_world st,
   mkScoreReport (length matchesWithMissingScores) (sr_updated st)
     (sr_failed st) (sr_details st)).






End Backfill.

(* ------------------------------------------------------------------ *)
(** * Starting and stopping the tracker *)

Module Lifecycle.

(** The two fields [start] and [stop] work on, and what they do to the
    runtime: [timers] are the interval timers that are set (each
    [setInterval] returns a fresh handle and sets a timer, each
    [clearInterval] removes the timer of its handle), and
    [initialPolls] counts the polls [start] launches itself. *)
Record t := mk {
  isRunning : bool;
  pollingInterval : option nat;
  timers : list nat;
  next_handle : nat;
  initialPolls : nat
}.

Definition initial : t := mk false None [] 0 0.

Definition start (s : t) : t :=
  if isRunning s then s
  else
    let h := next_handle s in
    mk true (Some h) (timers s ++ [h]) (S h) (S (initialPolls s)).

Definition stop (s : t) : t :=
  match pollingInterval s with
  | Some h =>
      mk false None (filter (λ k, k ≠ h) (timers s)) (next_handle s)
        (initialPolls s)
  | None =>
      mk false None (timers s) (next_handle s) (initialPolls s)
  end.

Definition isTrackerRunning (s : t) : bool := isRunning s.

(** The calls that reach the service: the two routes, the automatic
    start and the shutdown handlers. *)
Inductive Call := Start | Stop.

Definition call (s : t) (c : Call) : t :=
  match c with Start => start s | Stop => stop s end.

Definition calls (cs : list Call) (s : t) : t := foldl call s cs.

(** The number of calls of [start] that found the service stopped. *)
Fixpoint effective (running : bool) (cs : list Call) : nat :=
  match cs with
  | [] => 0
  | Start :: cs => (if running then 0 else 1) + effective true cs
  | Stop :: cs => effective false cs
  end.

End Lifecycle.

(* ------------------------------------------------------------------ *)
(** * The feed client: its cache and the selection of the leagues *)

Module BetsAPI.

Import Tracker.
Local Open Scope string_scope.

Section Cache.

Context {A : Type}.

Record Entry := mkEntry { data : A; timestamp : Z }.

Definition cacheTTL : Z := 10000.

(** [getCached]; [now] is [Date.now()]. *)
Definition getCached (now : Z) (key : string) (cache : gmap string Entry)
    : option A :=
  match cache !! key with
  | Some cached =>
      if bool_decide (now - timestamp cached < cacheTTL)
      then Some (data cached) else None
  | None => None
  end.

Definition setCache (now : Z) (key : string) (d : A)
    (cache : gmap string Entry) : gmap string Entry :=
  <[key := mkEntry d now]> cache.

End Cache.

Global Arguments Entry : clear implicits.

(** [a || b] on strings. *)
Definition or_else (a : option string) (b : string) : string :=
  if truthy a then default "" a else b.

(** One element of [response.data.results], with the fields the
    selection reads; [None] is [undefined], also for a field of an
    object that is itself missing. *)
Record BetsAPIMatch := mkApiMatch {
  am_id : string;
  am_bet365_id : option string;
  am_league_id : option string;
  am_league_name : option string;
  am_home_name : option string;
  am_away_name : option string;
  am_ss : option string
}.

(** One entry of [config.bet365LeaguePatterns]; [test] is
    [pattern.test]. *)
Record LeaguePattern := mkPattern {
  test : string → bool;
  p_leagueId : Z;
  p_name : string
}.

(** The parts of the configuration the selection reads. *)
Record Leagues := mkLeagues {
  targetLeagues : list Z;
  leagueNames : gmap Z string;
  bet365LeaguePatterns : list LeaguePattern
}.

(** The body of the loop of [getInplayFilterMatches]: what one match
    of the response adds to [targetMatches]. *)
Definition targetMatch (lc : Leagues) (m : BetsAPIMatch)
    : option LiveMatch :=
  let leagueId := Score.parseInt (or_else (am_league_id m) "0") in
  let leagueName := or_else (am_league_name m) "" in
  let entry (lid : Z) (lname : string) :=
    mkLive (am_id m) (am_id m) (or_else (am_bet365_id m) (am_id m))
      lid lname (or_else (am_home_name m) "Unknown")
      (or_else (am_away_name m) "Unknown") (or_else (am_ss m) "0-0") in
  let byPattern :=
    (λ ip, entry (p_leagueId ip.2) (p_name ip.2))
    <$> list_find (λ p, test p leagueName = true)
          (bet365LeaguePatterns lc) in
  match leagueId with
  | Some lid =>
      if bool_decide (lid ∈ targetLeagues lc)
      then Some (entry lid (or_else (leagueNames lc !! lid) leagueName))
      else byPattern
  | None => byPattern
  end.

Definition selectTargets (lc : Leagues) (results : list BetsAPIMatch)
    : list LiveMatch :=
  omap (targetMatch lc) results.

Definition cacheKey : string := "inplay_filter_matches".

(** [getInplayFilterMatches].  [response] is what the request gives:
    [None] when it throws, else [response.data.results], itself [None]
    when missing; [t_get] and [t_set] are [Date.now()] when the cache is
    read and when it is written. *)
Definition getInplayFilterMatches (lc : Leagues)
    (response : option (option (list BetsAPIMatch))) (t_get t_set : Z)
    (cache : gmap string (Entry (list LiveMatch)))
    : list LiveMatch * gmap string (Entry (list LiveMatch)) :=
  match getCached t_get cacheKey cache with
  | Some cached => (cached, cache)
  | None =>
      match response with
      | Some results =>
          let targetMatches := selectTargets lc (default [] results) in
          (targetMatches, setCache t_set cacheKey targetMatches cache)
      | None => ([], cache)
      end
  end.

End BetsAPI.

(* ------------------------------------------------------------------ *)
(** * The read side of the tracker service *)

Module Queries.

Import Tracker.
Local Open Scope string_scope.

(** The text of the [status] column. *)
Definition status_text (s : Status) : string :=
  match s with live => "live" | finished => "finished" end.

(** JavaScript truthiness of an optional number: neither [undefined],
    nor [NaN] (both [None]), nor zero. *)
Definition truthy_number (z : option Z) : bool :=
  match z with
  | Some z => negb (z =? 0)%Z
  | None => false
  end.

(** The argument of [getAllMatches] and of [getMatchesCount]. *)
Record ListOptions := mkOptions {
  o_status : option string;
  o_leagueId : option Z;
  o_limit : option Z;
  o_offset : option Z
}.

(** The [WHERE] clause both queries build: [1=1], then [AND status = ?]
    and [AND league_id = ?] for the options that are truthy. *)
Definition selected (o : ListOptions) (m : Match) : Prop :=
  (truthy (o_status o) = true →
   status_text (status m) = default "" (o_status o))
  ∧ (truthy_number (o_leagueId o) = true →
     league_id m = default 0%Z (o_leagueId o)).

Global Instance selected_dec o m : Decision (selected o m).
Proof. unfold selected. apply _. Defined.

(** [ORDER BY detection_time DESC] *)
Definition newest_first (a b : Match) : Prop :=
  String.leb (detection_time b) (detection_time a) = true.

Global Instance newest_first_dec a b : Decision (newest_first a b).
Proof. unfold newest_first. apply _. Defined.

(** The rows the [WHERE] clause keeps, in the order of the [ORDER BY];
    rows with the same detection time come in an order the query does
    not fix. *)
Definition listing (o : ListOptions) (w : World) : list Match :=
  merge_sort newest_first (filter (selected o) (rows w)).

(** [LIMIT n]: a negative [n] is no limit. *)
Definition sql_limit (n : Z) (l : list Match) : list Match :=
  if (n <? 0)%Z then l else take (Z.to_nat n) l.

(** [OFFSET n]: a negative [n] skips nothing. *)
Definition sql_offset (n : Z) (l : list Match) : list Match :=
  drop (Z.to_nat n) l.

(** [getAllMatches].  [None]: the statement does not compile, which
    [db.prepare] reports by throwing; SQLite has no [OFFSET] without
    [LIMIT]. *)
Definition getAllMatches (o : ListOptions) (w : World)
    : option (list Match) :=
  let found := listing o w in
  if truthy_number (o_limit o) then
    if truthy_number (o_offset o) then
      Some (sql_limit (default 0%Z (o_limit o))
              (sql_offset (default 0%Z (o_offset o)) found))
    else Some (sql_limit (default 0%Z (o_limit o)) found)
  else if truthy_number (o_offset o) then None
  else Some found.

(** [getMatchesCount]: [SELECT COUNT( * )] under the same clause; the
    two paging options are not read. *)
Definition getMatchesCount (o : ListOptions) (w : World) : nat :=
  length (filter (selected o) (rows w)).




(** ** [getStats] *)

(** [SELECT league_id, COUNT( * ) ... GROUP BY league_id] and its
    companion with [SUM(CASE WHEN touched_15 = 1 ...)]: one row per
    league that has rows. *)
Definition leagues (w : World) : list Z :=
  remove_dups (league_id <$> rows w).

Definition inLeague (k : Z) (w : World) : list Match :=
  filter (λ m, league_id m = k) (rows w).

Definition touchedRows (l : list Match) : list Match :=
  filter (λ m, touched_15 m = true) l.

Record LeagueTouched := mkLeagueTouched {
  lt_total : nat;
  lt_touched : nat;
  lt_ratio : number
}.

Record Stats := mkStats {
  totalMatches : nat;
  liveMatches : nat;
  finishedMatches : nat;
  touchedTargetTotal : nat;
  byLeague : gmap Z nat;
  touchedTargetByLeague : gmap Z LeagueTouched
}.

Section WithRounding.

(** [Math.round((touched / total) * 1000) / 10], the percentage with
    one decimal as floating-point arithmetic gives it. *)
Variable percent : nat → nat → number.

Definition getStats (w : World) : Stats :=
  let total := length (rows w) in
  let liveCount := length (filter (λ m, status m = live) (rows w)) in
  let finishedCount :=
    length (filter (λ m, status m = finished) (rows w)) in
  let touchedTargetTotal := length (touchedRows (rows w)) in
  let byLeagueRows :=
    (λ k, (k, length (inLeague k w))) <$> leagues w in
  let touchedByLeagueRows :=
    (λ k, (k, length (inLeague k w),
           length (touchedRows (inLeague k w)))) <$> leagues w in
  let byLeague :=
    foldl (λ acc row, <[row.1 := row.2]> acc) ∅ byLeagueRows in
  let touchedTargetByLeague :=
    foldl (λ acc row,
             let '(k, total, touched) := row in
             <[k := mkLeagueTouched total touched
                      (if (0 <? total)%nat then percent touched total
                       else Q2Qc 0)]> acc)
      ∅ touchedByLeagueRows in
  mkStats total liveCount finishedCount touchedTargetTotal byLeague
    touchedTargetByLeague.

End WithRounding.


(** ** [getLeagueGoalLineStats] *)

(** [league_id = ? AND status = 'finished' AND final_score_home IS NOT
    NULL AND final_score_away IS NOT NULL] *)
Definition scored (leagueId : Z) (m : Match) : Prop :=
  league_id m = leagueId ∧ status m = finished
  ∧ final_score_home m ≠ None ∧ final_score_away m ≠ None.

Global Instance scored_dec leagueId m : Decision (scored leagueId m).
Proof. unfold scored. apply _. Defined.

(** A row of the second statement. *)
Record OddsRow := mkOddsRow {
  or_match_id : string;
  or_handicap : number;
  or_final_score_home : Z;
  or_final_score_away : Z
}.

Global Instance OddsRow_eq_dec : EqDecision OddsRow.
Proof. solve_decision. Defined.

(** [FROM odds_history oh JOIN matches m ON oh.match_id = m.match_id]
    with the [WHERE] clause: [match_id] is unique in [matches], so a
    history row joins with one row at most. *)
Definition joinedRow (leagueId : Z) (w : World) (r : OddsHistory)
    : option OddsRow :=
  m ← getMatch (oh_match_id r) w;
  h ← oh_handicap r;
  home ← final_score_home m;
  away ← final_score_away m;
  if decide (league_id m = leagueId ∧ status m = finished)
  then Some (mkOddsRow (oh_match_id r) h home away)
  else None.

(** [GROUP BY oh.match_id, oh.handicap]: one row for each pair; the
    two scores are those of the one match of the group.  SQL leaves the
    order of the groups open; the theorems are stated for every
    arrangement of this list. *)
Definition oddsRows (leagueId : Z) (w : World) : list OddsRow :=
  remove_dups (omap (joinedRow leagueId w) (odds_history w)).

(** The rows of the statement at goal line [g], and those of them
    with more goals than the line. *)
Definition offered (g : number) (rs : list OddsRow) : list OddsRow :=
  filter (λ r, or_handicap r = g) rs.

Definition over (g : number) (rs : list OddsRow) : list OddsRow :=
  filter (λ r, g < Qc_of_Z (or_final_score_home r + or_final_score_away r))%Qc
    (offered g rs).

(** The history has a row with goal line [g] for the match. *)
Definition has_line (g : number) (w : World) (m : Match) : Prop :=
  Exists (λ r, oh_match_id r = match_id m ∧ oh_handicap r = Some g)
    (odds_history w).

Global Instance has_line_dec g w m : Decision (has_line g w m).
Proof. unfold has_line. apply _. Defined.

(** [Map<number, { total; hits }>], in insertion order. *)
Record Tally := mkTally { t_total : nat; t_hits : nat }.

Fixpoint map_get (k : number) (l : list (number * Tally)) : option Tally :=
  match l with
  | [] => None
  | (k', v) :: l => if decide (k' = k) then Some v else map_get k l
  end.

Fixpoint map_set (k : number) (v : Tally) (l : list (number * Tally))
    : list (number * Tally) :=
  match l with
  | [] => [(k, v)]
  | (k', v') :: l =>
      if decide (k' = k) then (k, v) :: l else (k', v') :: map_set k v l
  end.

(** The body of the loop over [oddsRows]; its null test never fires,
    the statement has filtered the nulls out. *)
Definition tallyRow (goalLineMap : list (number * Tally)) (row : OddsRow)
    : list (number * Tally) :=
  let goalLine := or_handicap row in
  let totalGoals := (or_final_score_home row + or_final_score_away row)%Z in
  let overHit := bool_decide (goalLine < Qc_of_Z totalGoals)%Qc in
  let existing := default (mkTally 0 0) (map_get goalLine goalLineMap) in
  map_set goalLine
    (mkTally (S (t_total existing))
       (if overHit then S (t_hits existing) else t_hits existing))
    goalLineMap.

Record GoalLineStat := mkGoalLineStat {
  gl_goalLine : number;
  timesAvailable : nat;
  overHits : nat;
  hitRate : number;
  roi : number
}.

Record LeagueGoalLineStats := mkLeagueGoalLineStats {
  lg_totalMatches : nat;
  goalLineStats : list GoalLineStat
}.

(** [(a, b) => a.goalLine - b.goalLine] *)
Definition by_goalLine (a b : GoalLineStat) : Prop :=
  (gl_goalLine a ≤ gl_goalLine b)%Qc.

Global Instance by_goalLine_dec : RelDecision by_goalLine.
Proof. intros a b. unfold by_goalLine. apply _. Defined.

Section WithFloats.

(** [Math.round(hitRate * 10) / 10] and [Math.round(roi * 10) / 10]
    as floating-point arithmetic gives them from [hits] and
    [total]. *)
Variable roundedHitRate roundedRoi : nat → nat → number.

Definition toStat (e : number * Tally) : GoalLineStat :=
  mkGoalLineStat e.1 (t_total e.2) (t_hits e.2)
    (roundedHitRate (t_hits e.2) (t_total e.2))
    (roundedRoi (t_hits e.2) (t_total e.2)).

Definition goalLineStatsOf (rs : list OddsRow) : list GoalLineStat :=
  merge_sort by_goalLine (toStat <$> foldl tallyRow [] rs).

Definition getLeagueGoalLineStats (leagueId : Z) (w : World)
    : LeagueGoalLineStats :=
  let totalMatches := length (filter (scored leagueId) (rows w)) in
  mkLeagueGoalLineStats totalMatches
    (goalLineStatsOf (oddsRows leagueId w)).

End WithFloats.

End Queries.

(* ================================================================== *)
(** * Properties *)

(* ------------------------------------------------------------------ *)
(** ** The target of a league *)

Section TargetLookup.

Import Config.

Lemma getTargetGoalLine_unconfigured cfg leagueId :
  targetGoalLines cfg !! leagueId = None →
  getTargetGoalLine cfg leagueId = Q2Qc 1.5.
Proof. unfold getTargetGoalLine. by intros ->. Qed.

Lemma getTargetGoalLine_configured cfg leagueId v :
  targetGoalLines cfg !! leagueId = Some v →
  getTargetGoalLine cfg leagueId = v.
Proof. unfold getTargetGoalLine. by intros ->. Qed.

End TargetLookup.

(* ------------------------------------------------------------------ *)
(** ** The drain loop of the notification queue *)

Section Queue.

Import Telegram.

Lemma total_work_app q1 q2 :
  total_work (q1 ++ q2) = (total_work q1 + total_work q2)%nat.
Proof. induction q1 as [|i q1 IH]; simpl; [done|]. rewrite IH. lia. Qed.

Lemma total_work_cons item q :
  total_work (item :: q) = (work item + total_work q)%nat.
Proof. done. Qed.

Lemma total_work_requeue item rest :
  (retries item < maxRetries)%nat →
  S (total_work (rest ++ [bump item])) = total_work (item :: rest).
Proof.
  intros Hlt. rewrite total_work_app, !total_work_cons.
  unfold total_work, work, bump, maxRetries in *. simpl. lia.
Qed.

Lemma total_work_drop item rest :
  (maxRetries ≤ retries item)%nat →
  S (total_work rest) = total_work (item :: rest).
Proof.
  intros Hge. rewrite total_work_cons.
  unfold work, maxRetries in *. lia.
Qed.

Lemma attempts_app tr1 tr2 :
  attempts (tr1 ++ tr2) = (attempts tr1 + attempts tr2)%nat.
Proof. unfold attempts. by rewrite filter_app, length_app. Qed.

(** Every iteration makes exactly one call to the gateway and strictly
    lowers the work that is left. *)
Lemma iteration_progress ok item rest :
  attempts (iteration ok item rest).1 = 1%nat
  ∧ (total_work (iteration ok item rest).2 < total_work (item :: rest))%nat.
Proof.
  unfold iteration. destruct ok.
  - split; [done|]. rewrite total_work_cons. unfold work. simpl. lia.
  - destruct (Nat.ltb_spec (retries item) maxRetries) as [Hlt|Hge].
    + split; [done|]. cbn [snd].
      pose proof (total_work_requeue item rest Hlt). lia.
    + split; [done|]. cbn [snd].
      pose proof (total_work_drop item rest Hge). lia.
Qed.

(** The loop ends: with fuel for the work at hand the queue is drained,
    after at most that many calls. *)
Lemma drain_terminates gateway fuel : ∀ n q,
  (total_work q ≤ fuel)%nat →
  (drain fuel gateway n q).1.2 = []
  ∧ (attempts (drain fuel gateway n q).1.1 ≤ total_work q)%nat
  ∧ (drain fuel gateway n q).2
    = (n + attempts (drain fuel gateway n q).1.1)%nat.
Proof.
  induction fuel as [|fuel IH]; intros n q Hq.
  - destruct q as [|i q].
    + cbn. unfold attempts. cbn. repeat split; lia.
    + rewrite total_work_cons in Hq. unfold work in Hq. lia.
  - destruct q as [|item rest].
    + cbn. unfold attempts. cbn. repeat split; lia.
    + cbn [drain].
      pose proof (iteration_progress (gateway n) item rest) as [Ha Hw].
      destruct (iteration (gateway n) item rest) as [ev q'] eqn:Hit.
      cbn [fst snd] in Ha, Hw.
      destruct (IH (S n) q') as (Hq' & Hat & Hn); [lia|].
      destruct (drain fuel gateway (S n) q') as [[evs qf] nf].
      cbn [fst snd] in *. rewrite attempts_app.
      repeat split; [done|lia|lia].
Qed.

(** A gateway that always fails: every unit of work is a failed call and
    nothing is delivered. *)
Lemma drain_always_failing fuel : ∀ n q,
  (total_work q ≤ fuel)%nat →
  attempts (drain fuel (λ _, false) n q).1.1 = total_work q
  ∧ Forall (λ e, is_delivery e = false) (drain fuel (λ _, false) n q).1.1.
Proof.
  induction fuel as [|fuel IH]; intros n q Hq.
  - destruct q as [|i q]; [done|].
    rewrite total_work_cons in Hq. unfold work in Hq. lia.
  - destruct q as [|item rest]; [done|].
    cbn [drain]. unfold iteration.
    destruct (Nat.ltb_spec (retries item) maxRetries) as [Hlt|Hge].
    + pose proof (total_work_requeue item rest Hlt) as Hw.
      destruct (IH (S n) (rest ++ [bump item])) as [Hat Hdel]; [lia|].
      destruct (drain fuel _ (S n) (rest ++ [bump item])) as [[evs qf] nf].
      cbn [fst snd] in *. split.
      * rewrite attempts_app, Hat, <- Hw. done.
      * apply Forall_app. split; [|done]. repeat constructor.
    + pose proof (total_work_drop item rest Hge) as Hw.
      destruct (IH (S n) rest) as [Hat Hdel]; [lia|].
      destruct (drain fuel _ (S n) rest) as [[evs qf] nf].
      cbn [fst snd] in *. split.
      * rewrite attempts_app, Hat, <- Hw. done.
      * apply Forall_app. split; [|done]. repeat constructor.
Qed.

(** C3, as the code has it.  A failed attempt on an item whose
    [retries] is below 3 increments [retries] and puts the item back at
    the tail of the queue, after a pause of 1000 ms times the new count;
    a failed attempt on an item whose [retries] has reached 3 drops it,
    the count as it is.  So an item that always fails is attempted once
    and retried up to the ceiling: four attempts for a fresh item, none of
    them a delivery, after which the queue is empty. *)
Theorem failed_delivery_retry_policy (item : QueueItem)
    (rest : list QueueItem) (fuel n : nat) :
  (work item ≤ fuel)%nat →
  iteration false item rest
  = (if bool_decide (retries item < maxRetries)%nat
     then ([Failed item; Requeued (bump item);
            Slept (retryDelay * S (retries item)); Slept 100],
           rest ++ [bump item])
     else ([Failed item; Dropped item; Slept 100], rest))
  ∧ retries (bump item) = S (retries item)
  ∧ (drain fuel (λ _, false) n [item]).1.2 = []
  ∧ attempts (drain fuel (λ _, false) n [item]).1.1
    = S (maxRetries - retries item)
  ∧ Forall (λ e, is_delivery e = false)
      (drain fuel (λ _, false) n [item]).1.1.
Proof.
  intros Hfuel.
  assert (total_work [item] ≤ fuel)%nat as Hwork
    by (unfold total_work, work in *; simpl; lia).
  split_and!.
  - unfold iteration. case_bool_decide as Hlt.
    + by apply Nat.ltb_lt in Hlt as ->.
    + by apply Nat.ltb_nlt in Hlt as ->.
  - done.
  - by apply drain_terminates.
  - destruct (drain_always_failing fuel n [item] Hwork) as [-> _].
    unfold total_work, work. simpl. lia.
  - by apply drain_always_failing.
Qed.

Lemma failed_delivery_retry_policy_witness :
  (work Examples.item0 ≤ 4)%nat
  ∧ attempts (drain 4 (λ _, false) 0 [Examples.item0]).1.1 = 4%nat.
Proof.
  split; [vm_compute; lia|].
  apply (failed_delivery_retry_policy Examples.item0 [] 4 0).
  vm_compute. lia.
Defined.

(** C3 as stated fails: an item that always fails is attempted four
    times, one more than the ceiling; the third failure leaves its count
    at 3, which is not below 3, and still puts it back; the fourth drops
    it without touching the count. *)
Lemma perpetual_failure_is_attempted_four_times :
  let tr := (drain 10 (λ _, false) 0 [Examples.item0]).1.1 in
  attempts tr = 4%nat
  ∧ ¬ (attempts tr ≤ maxRetries)%nat
  ∧ (iteration false (bump (bump Examples.item0)) []).2
    = [bump (bump (bump Examples.item0))]
  ∧ retries (bump (bump (bump Examples.item0))) = 3%nat
  ∧ (iteration false (bump (bump (bump Examples.item0))) []).1
    = [Failed (bump (bump (bump Examples.item0)));
       Dropped (bump (bump (bump Examples.item0))); Slept 100].
Proof. vm_compute. repeat split. lia. Qed.

End Queue.

Section TrackerBasics.

Import Tracker RowView.

Variable cfg : Config.t.
Variable parseFloat : string → option number.

Lemma alter_present (f : Match → Match) i m (db : gmap string Match) :
  db !! i = Some m → alter f i db = <[i := f m]> db.
Proof.
  intros Hi. apply map_eq. intros j. rewrite lookup_alter, lookup_insert.
  case_decide; subst; [by rewrite Hi|done].
Qed.

Lemma push_nil tg : push cfg [] tg = tg.
Proof. destruct tg. unfold push, queued. simpl. by rewrite app_nil_r. Qed.

Lemma push_push a b tg : push cfg b (push cfg a tg) = push cfg (a ++ b) tg.
Proof.
  unfold push, queued. simpl. by rewrite fmap_app, app_assoc.
Qed.

Lemma sendMessage_configured msg tg :
  Telegram.sendMessage cfg msg None tg
  = (Telegram.accepts cfg,
     if Telegram.accepts cfg then push cfg [msg] tg else tg).
Proof.
  unfold Telegram.sendMessage, Telegram.accepts. simpl.
  by destruct (negb (Telegram.bot_ready cfg) || _).
Qed.

Lemma sendTargetDetectionAlert_eq m g target w :
  sendTargetDetectionAlert cfg m g target w
  = if Telegram.accepts cfg then
      mkWorld (alter set_alert_sent (match_id m) (matches w)) (next_id w)
        (odds_history w)
        (push cfg [Telegram.TargetDetectionAlert m g target] (telegram w))
    else w.
Proof.
  unfold sendTargetDetectionAlert, Telegram.sendTargetDetectionAlert.
  rewrite sendMessage_configured.
  destruct (Telegram.accepts cfg); [done|by destruct w].
Qed.

(** An observation of a match that has a row. *)
Lemma process_existing up mt w m :
  matches w !! lm_id mt = Some m →
  match_id m = lm_id mt →
  let g := resolveGoalLine up mt in
  processMatchWithGoalLine cfg parseFloat up mt w
  = mkWorld (<[lm_id mt := observe cfg mt g m]> (matches w)) (next_id w)
      (recorded parseFloat up mt g (odds_history w))
      (push cfg (observe_alerts cfg mt g m) (telegram w)).
Proof.
  intros Hm Hid g. unfold processMatchWithGoalLine, getMatch. fold g.
  rewrite Hm. destruct g as [g|]; simpl.
  - unfold applyGoalLine, observe_alerts.
    destruct (bool_decide (handicap g = _)) eqn:Ht; simpl.
    + destruct (alert_sent m) eqn:Ha; simpl.
      * unfold updateMatchScoreAndGoalLine, saveGoalLineHistory,
          insert_or_ignore_odds, update_where, with_matches, with_odds.
        simpl. rewrite lookup_alter_eq, Hm. simpl.
        rewrite (alter_present _ _ m _ Hm). rewrite push_nil.
        by destruct (existsb _ _).
      * rewrite sendTargetDetectionAlert_eq. rewrite Hid.
        unfold markMatchAsTouchedTarget, saveGoalLineHistory,
          insert_or_ignore_odds, update_where, with_matches, with_odds.
        destruct (Telegram.accepts cfg); simpl.
        -- rewrite !lookup_alter_eq, Hm. simpl.
           rewrite (alter_present _ _ m _ Hm).
           rewrite (alter_present _ _ _ _ (lookup_insert_eq _ _ _)).
           rewrite insert_insert_eq.
           by destruct (existsb _ _).
        -- rewrite !lookup_alter_eq, Hm. simpl.
           rewrite (alter_present _ _ m _ Hm). rewrite push_nil.
           by destruct (existsb _ _).
    + rewrite push_nil.
      destruct (touched_15 m) eqn:Hto; simpl;
        unfold updateMatchScoreAndGoalLine, updateMatchGoalLine,
          saveGoalLineHistory, insert_or_ignore_odds, update_where,
          with_matches, with_odds; simpl;
        rewrite lookup_alter_eq, Hm; simpl;
        rewrite (alter_present _ _ m _ Hm);
        by destruct (existsb _ _).
  - unfold updateMatchScore, update_where, with_matches. simpl.
    rewrite (alter_present _ _ m _ Hm). by rewrite push_nil.
Qed.

(** An observation of a match that has no row yet. *)
Lemma process_new up mt w :
  matches w !! lm_id mt = None →
  let g := resolveGoalLine up mt in
  processMatchWithGoalLine cfg parseFloat up mt w
  = mkWorld (<[lm_id mt := created cfg up mt g (next_id w)]> (matches w))
      (S (next_id w))
      (recorded parseFloat up mt g (odds_history w))
      (push cfg (created_alerts cfg up mt g (next_id w)) (telegram w)).
Proof.
  intros Hm g. unfold processMatchWithGoalLine, getMatch. fold g.
  rewrite Hm. destruct g as [g|]; simpl.
  - unfold applyGoalLine, created_alerts, created. simpl.
    destruct (bool_decide (handicap g = _)) eqn:Ht; simpl.
    + unfold handleTargetGoalLineDetection, insert_match. rewrite Hm. simpl.
      unfold getMatch. simpl. rewrite lookup_insert_eq.
      rewrite sendTargetDetectionAlert_eq. simpl.
      apply bool_decide_eq_true in Ht.
      rewrite (bool_decide_eq_true_2 (Some (handicap g) = Some _))
        by (by f_equal).
      unfold saveGoalLineHistory, insert_or_ignore_odds, with_odds.
      destruct (Telegram.accepts cfg); simpl.
      * rewrite lookup_alter_eq, lookup_insert_eq. simpl.
        rewrite (alter_present _ _ _ _ (lookup_insert_eq _ _ _)).
        rewrite insert_insert_eq. by destruct (existsb _ _).
      * rewrite lookup_insert_eq, push_nil. by destruct (existsb _ _).
    + unfold saveMatchWithGoalLine, insert_match. rewrite Hm. simpl.
      apply bool_decide_eq_false in Ht.
      rewrite (bool_decide_eq_false_2 (Some (handicap g) = Some _))
        by (intros [=]; done).
      unfold saveGoalLineHistory, insert_or_ignore_odds, with_odds. simpl.
      rewrite lookup_insert_eq, push_nil. by destruct (existsb _ _).
  - unfold saveMatchWithGoalLine, insert_match. rewrite Hm. simpl.
    unfold created. simpl. by rewrite push_nil.
Qed.

End TrackerBasics.

Section Rows.
Import Tracker RowView.

Lemma elem_of_rows w m :
  m ∈ rows w ↔ ∃ i, matches w !! i = Some m.
Proof.
  unfold rows. rewrite merge_sort_Permutation, list_elem_of_fmap.
  split.
  - intros [[i m'] [-> Hin]]. exists i. by apply elem_of_map_to_list.
  - intros [i Hi]. exists (i, m). split; [done|]. by apply elem_of_map_to_list.
Qed.

Lemma elem_of_rows_wf w m :
  wf w → m ∈ rows w ↔ matches w !! match_id m = Some m.
Proof.
  intros Hwf. rewrite elem_of_rows. split; [|eauto].
  intros [i Hi]. by destruct (Hwf i m Hi) as [-> _].
Qed.

Lemma NoDup_rows_match_id w :
  wf w → NoDup (match_id <$> rows w).
Proof.
  intros Hwf. unfold rows. rewrite merge_sort_Permutation.
  assert (match_id <$> (snd <$> map_to_list (matches w))
          = fst <$> map_to_list (matches w)) as ->.
  { rewrite <- list_fmap_compose. apply list_eq_Forall2.
    apply Forall2_fmap, Forall_Forall2_diag, Forall_forall.
    intros [i m] Hin. simpl.
    apply elem_of_map_to_list in Hin. by destruct (Hwf i m Hin). }
  apply NoDup_fst_map_to_list.
Qed.

Lemma length_rows w : length (rows w) = size (matches w).
Proof.
  unfold rows. rewrite merge_sort_Permutation, length_fmap.
  by rewrite length_map_to_list.
Qed.

End Rows.

Section Blocks.
Import Tracker RowView.

Variable cfg : Config.t.
Variable parseFloat : string → option number.

(** *** Loops over a snapshot of rows *)

Lemma snapshot_fold (P : World → Prop) (body : World → Match → World) l :
  ∀ w,
  NoDup (match_id <$> l) →
  (∀ m, m ∈ l → matches w !! match_id m = Some m) →
  (∀ w m j, matches w !! match_id m = Some m → j ≠ match_id m →
            matches (body w m) !! j = matches w !! j) →
  (∀ w m, m ∈ l → matches w !! match_id m = Some m → P w → P (body w m)) →
  P w → P (foldl body w l).
Proof.
  induction l as [|m l IH]; intros w Hnd Hsnap Hframe Hstep HP; [done|].
  simpl. rewrite fmap_cons in Hnd. apply NoDup_cons in Hnd as [Hm Hnd].
  assert (matches w !! match_id m = Some m) as Hcur
    by (apply Hsnap; left).
  apply IH; [done| |done| |].
  - intros m2 Hm2. rewrite Hframe; [|done|].
    + apply Hsnap. by right.
    + intros Heq. apply Hm. rewrite <- Heq. by apply list_elem_of_fmap_2.
  - intros w' m2 Hm2. apply Hstep. by right.
  - apply Hstep; [left|done|done].
Qed.

(** *** Completion of one match *)

Lemma finish_current up m w :
  matches w !! match_id m = Some m →
  markMatchAsFinished cfg up m w
  = mkWorld (<[match_id m := finish cfg up m]> (matches w)) (next_id w)
      (odds_history w) (push cfg (finish_alerts cfg up m) (telegram w)).
Proof.
  intros Hm. unfold markMatchAsFinished, finish, finish_alerts, finished_row.
  destruct (finalScore up m) as [home away]. cbn [fst snd].
  set (ss := match home, away with
             | Some h, Some a => Some (Score.scoreString h a)
             | _, _ => None end).
  unfold update_where, with_matches, getMatch, Telegram.sendResultAlert.
  cbn [matches telegram next_id odds_history].
  destruct (result_alert_sent m) eqn:Hr; cbn [negb andb].
  - rewrite (alter_present _ _ _ _ Hm). by rewrite push_nil.
  - rewrite lookup_alter_eq, Hm. cbn [fmap option_fmap option_map].
    rewrite sendMessage_configured.
    destruct (Telegram.accepts cfg).
    + unfold with_telegram. cbn [matches telegram next_id odds_history].
      rewrite (alter_present _ _ _ _ Hm).
      rewrite (alter_present _ _ _ _ (lookup_insert_eq _ _ _)).
      by rewrite insert_insert_eq.
    + unfold with_telegram. cbn [matches telegram next_id odds_history].
      rewrite (alter_present _ _ _ _ Hm). by rewrite push_nil.
Qed.

(** *** Well-formedness is kept *)

Lemma wf_insert_row w i m m' :
  wf w → matches w !! i = Some m →
  id m' = id m → match_id m' = match_id m →
  ∀ odds tg, wf (mkWorld (<[i := m']> (matches w)) (next_id w) odds tg).
Proof.
  intros Hwf Hm Hid Hkey odds tg j mj. cbn [matches next_id].
  rewrite lookup_insert. case_decide as Hj.
  - intros [= <-]. subst j. rewrite Hid, Hkey. by apply Hwf.
  - apply Hwf.
Qed.

Lemma observe_id mt g m : id (observe cfg mt g m) = id m.
Proof.
  unfold observe. destruct g as [g|]; [|done].
  repeat case_match; done.
Qed.

Lemma observe_match_id mt g m : match_id (observe cfg mt g m) = match_id m.
Proof.
  unfold observe. destruct g as [g|]; [|done].
  repeat case_match; done.
Qed.

Lemma finish_id up m : id (finish cfg up m) = id m.
Proof. unfold finish. by case_match. Qed.

Lemma finish_match_id up m : match_id (finish cfg up m) = match_id m.
Proof. unfold finish. by case_match. Qed.

Lemma wf_process up mt w :
  wf w → wf (processMatchWithGoalLine cfg parseFloat up mt w).
Proof.
  intros Hwf. destruct (matches w !! lm_id mt) as [m|] eqn:Hm.
  - destruct (Hwf _ _ Hm) as [Hkey _].
    rewrite (process_existing cfg parseFloat up mt w m Hm Hkey).
    apply (wf_insert_row w _ m); auto using observe_id, observe_match_id.
  - rewrite (process_new cfg parseFloat up mt w Hm).
    intros j mj. cbn [matches next_id]. rewrite lookup_insert.
    case_decide as Hj.
    + intros [= <-]. split; [done|]. simpl. lia.
    + intros Hmj. destruct (Hwf _ _ Hmj). split; [done|lia].
Qed.

Lemma wf_finish up m w :
  wf w → matches w !! match_id m = Some m →
  wf (markMatchAsFinished cfg up m w).
Proof.
  intros Hwf Hm. rewrite (finish_current up m w Hm).
  apply (wf_insert_row w _ m); auto using finish_id, finish_match_id.
Qed.

Lemma wf_update_where i f w :
  wf w → (∀ m, id (f m) = id m ∧ match_id (f m) = match_id m) →
  wf (update_where i f w).
Proof.
  intros Hwf Hf j mj. unfold update_where, with_matches.
  cbn [matches next_id]. rewrite lookup_alter. case_decide as Hj.
  - subst j. destruct (matches w !! i) as [m|] eqn:Hm; simpl; [|done].
    intros [= <-]. destruct (Hf m) as [-> ->]. by apply Hwf.
  - apply Hwf.
Qed.

End Blocks.

Section Tracking.
Import Tracker RowView.

Variable cfg : Config.t.
Variable parseFloat : string → option number.

Context (R : Match → Match → Prop) (N : Match → Prop) `{!RowOrder R N}.

Lemma tracks_refl i w : wf w → tracks R N i w w.
Proof.
  intros Hwf. split; [done|]. split; [done|].
  intros m' Hm'. left. exists m'. split; [done|apply row_refl].
Qed.

Lemma tracks_trans i w1 w2 w3 :
  tracks R N i w1 w2 → tracks R N i w2 w3 → tracks R N i w1 w3.
Proof.
  intros (Hwf2 & Hn12 & H12) (Hwf3 & Hn23 & H23).
  split; [done|]. split; [lia|].
  intros m3 Hm3. destruct (H23 m3 Hm3) as [(m2 & Hm2 & HR23)|[Hnew HN]].
  - destruct (H12 m2 Hm2) as [(m1 & Hm1 & HR12)|[Hnew HN]].
    + left. exists m1. split; [done|]. by eapply row_trans.
    + right. rewrite (row_id _ _ HR23). split; [done|].
      by eapply row_closed.
  - right. split; [lia|done].
Qed.

(** A piece of work that leaves the row under [i] where it is. *)
Lemma tracks_frame i w w' :
  wf w' → (next_id w ≤ next_id w')%nat →
  matches w' !! i = matches w !! i →
  tracks R N i w w'.
Proof.
  intros Hwf Hn Heq. split; [done|]. split; [done|].
  intros m' Hm'. left. exists m'. rewrite <- Heq. split; [done|apply row_refl].
Qed.

(** A piece of work that rewrites the row under [i]. *)
Lemma tracks_rewrite i w m m' odds tg :
  wf w → matches w !! i = Some m →
  id m' = id m → match_id m' = match_id m → R m m' →
  tracks R N i w (mkWorld (<[i := m']> (matches w)) (next_id w) odds tg).
Proof.
  intros Hwf Hm Hid Hkey HR. split; [by eapply wf_insert_row|].
  split; [done|]. intros m2. cbn [matches]. rewrite lookup_insert_eq.
  intros [= <-]. left. by exists m.
Qed.

(** One observation. *)
Lemma process_tracks i up mt w :
  wf w →
  (lm_id mt = i → ∀ m, matches w !! i = Some m →
     R m (observe cfg mt (resolveGoalLine up mt) m)) →
  (lm_id mt = i → matches w !! i = None →
     N (created cfg up mt (resolveGoalLine up mt) (next_id w))) →
  tracks R N i w (processMatchWithGoalLine cfg parseFloat up mt w).
Proof.
  intros Hwf Hobs Hnew.
  pose proof (wf_process cfg parseFloat up mt w Hwf) as Hwf'.
  destruct (matches w !! lm_id mt) as [m|] eqn:Hm.
  - destruct (Hwf _ _ Hm) as [Hkey _].
    rewrite (process_existing cfg parseFloat up mt w m Hm Hkey) in *.
    destruct (decide (lm_id mt = i)) as [<-|Hne].
    + apply (tracks_rewrite _ w m); auto using observe_id, observe_match_id.
    + apply tracks_frame; [done|done|]. cbn [matches].
      by rewrite lookup_insert_ne.
  - rewrite (process_new cfg parseFloat up mt w Hm) in *.
    destruct (decide (lm_id mt = i)) as [<-|Hne].
    + split; [done|]. split; [cbn; lia|].
      intros m'. cbn [matches]. rewrite lookup_insert_eq. intros [= <-].
      right. split; [done|]. by apply Hnew.
    + apply tracks_frame; [done|cbn; lia|]. cbn [matches].
      by rewrite lookup_insert_ne.
Qed.

(** A loop over a snapshot of rows whose body rewrites the row it was
    given. *)
Lemma loop_tracks i (body : World → Match → World) (F : Match → Match)
    (A : Match → list Telegram.Message) l w :
  (∀ w m, matches w !! match_id m = Some m →
     body w m = mkWorld (<[match_id m := F m]> (matches w)) (next_id w)
                  (odds_history w) (push cfg (A m) (telegram w))) →
  (∀ m, id (F m) = id m ∧ match_id (F m) = match_id m ∧ R m (F m)) →
  wf w →
  NoDup (match_id <$> l) →
  (∀ m, m ∈ l → matches w !! match_id m = Some m) →
  tracks R N i w (foldl body w l).
Proof.
  intros Hbody HF Hwf Hnd Hsnap.
  apply (snapshot_fold (λ w', tracks R N i w w') body l w Hnd Hsnap).
  - intros w' m j Hm Hj. rewrite (Hbody w' m Hm). cbn [matches].
    by rewrite lookup_insert_ne.
  - intros w' m _ Hm Htr. eapply tracks_trans; [done|].
    destruct Htr as (Hwf' & _ & _). destruct (HF m) as (Hid & Hkey & HR).
    rewrite (Hbody w' m Hm).
    destruct (decide (match_id m = i)) as [<-|Hne].
    + by apply (tracks_rewrite _ w' m).
    + apply tracks_frame; [|done|].
      * by eapply wf_insert_row.
      * cbn [matches]. by rewrite lookup_insert_ne.
  - by apply tracks_refl.
Qed.

End Tracking.

Section Loops.
Import Tracker RowView.

Variable cfg : Config.t.
Variable parseFloat : string → option number.

Lemma world_eta w :
  mkWorld (matches w) (next_id w) (odds_history w) (telegram w) = w.
Proof. by destruct w. Qed.

Lemma rewrite_same w m :
  matches w !! match_id m = Some m →
  mkWorld (<[match_id m := m]> (matches w)) (next_id w) (odds_history w)
    (push cfg [] (telegram w)) = w.
Proof. intros Hm. by rewrite insert_id, push_nil, world_eta. Qed.

(** The snapshots the loops run over. *)
Lemma submseteq_NoDup {A} (l k : list A) : l ⊆+ k → NoDup k → NoDup l.
Proof.
  intros Hsub Hk. apply submseteq_Permutation in Hsub as [k' Hk'].
  rewrite Hk' in Hk. by apply NoDup_app in Hk as [? _].
Qed.

Lemma NoDup_snapshot w l :
  wf w → l ⊆+ rows w → NoDup (match_id <$> l).
Proof.
  intros Hwf Hsub. eapply submseteq_NoDup; [by apply fmap_submseteq|].
  by apply NoDup_rows_match_id.
Qed.

Lemma snapshot_current w l :
  wf w → l ⊆+ rows w →
  ∀ m, m ∈ l → matches w !! match_id m = Some m.
Proof.
  intros Hwf Hsub m Hm. apply elem_of_rows_wf; [done|].
  by eapply elem_of_submseteq.
Qed.

(** *** The completion loop *)

Lemma finishIfAbsent_eq up ids w m :
  matches w !! match_id m = Some m →
  finishIfAbsent cfg up ids w m
  = mkWorld
      (<[match_id m :=
           if bool_decide (match_id m ∈ ids) then m else finish cfg up m]>
         (matches w))
      (next_id w) (odds_history w)
      (push cfg (if bool_decide (match_id m ∈ ids) then []
                 else finish_alerts cfg up m) (telegram w)).
Proof.
  intros Hm. unfold finishIfAbsent. case_bool_decide.
  - by rewrite rewrite_same.
  - by apply finish_current.
Qed.

Lemma checkFinished_unfold up feed w :
  checkFinishedMatchesV2 cfg up feed w
  = foldl (finishIfAbsent cfg up (lm_id <$> feed)) w (getLiveMatches w).
Proof.
  unfold checkFinishedMatchesV2. case_bool_decide as He; [|done].
  by rewrite He.
Qed.

Lemma getLiveMatches_rows w : getLiveMatches w ⊆+ rows w.
Proof. apply sublist_submseteq, sublist_filter. Qed.

(** *** The backfill loops *)

Lemma backfillScore_eq up w m :
  matches w !! match_id m = Some m →
  backfillScore up m w
  = mkWorld (<[match_id m := backfilled_score up m]> (matches w))
      (next_id w) (odds_history w) (push cfg [] (telegram w)).
Proof.
  intros Hm. unfold backfillScore, backfilled_score.
  repeat case_match; try by rewrite rewrite_same.
  unfold update_where, with_matches.
  by rewrite (alter_present _ _ _ _ Hm), push_nil.
Qed.

Lemma backfillGoalLine_eq up w m :
  matches w !! match_id m = Some m →
  backfillGoalLine up m w
  = mkWorld (<[match_id m := backfilled_line up m]> (matches w))
      (next_id w) (odds_history w) (push cfg [] (telegram w)).
Proof.
  intros Hm. unfold backfillGoalLine, backfilled_line.
  repeat case_match; try by rewrite rewrite_same.
  unfold update_where, with_matches.
  by rewrite (alter_present _ _ _ _ Hm), push_nil.
Qed.

Lemma backfillScores_rows w :
  filter (λ m, status m = finished
               ∧ (final_score_home m = None ∨ final_score_away m = None))
    (rows w) ⊆+ rows w.
Proof. apply sublist_submseteq, sublist_filter. Qed.

Lemma backfillGoalLines_rows w :
  take 200 (reverse (filter (λ m, detected_odds m = None) (rows w)))
  ⊆+ rows w.
Proof.
  etrans; [apply submseteq_take|]. rewrite reverse_Permutation.
  apply sublist_submseteq, sublist_filter.
Qed.

End Loops.

Section DetectionTimeOrder.
Import Tracker.

Lemma string_compare_OT a : ∀ b, String.compare a b = String_as_OT.compare a b.
Proof.
  induction a as [|x a IH]; intros [|y b]; simpl; try done.
  all: unfold Ascii.compare, Ascii_as_OT.compare, N_as_OT.compare.
  all: destruct (N.compare _ _); auto.
Qed.

Lemma string_leb_lt_eq a b :
  String.leb a b = true ↔ String_as_OT.lt a b ∨ a = b.
Proof.
  unfold String.leb. rewrite string_compare_OT.
  destruct (String_as_OT.compare_spec a b) as [Heq|Hlt|Hgt].
  - split; auto.
  - split; auto.
  - split; [done|]. intros [Hlt| ->].
    + exfalso. eapply (StrictOrder_Irreflexive a).
      by etrans.
    + exfalso. by eapply (StrictOrder_Irreflexive b).
Qed.

Global Instance by_detection_time_trans : Transitive by_detection_time.
Proof.
  intros a b c. unfold by_detection_time.
  rewrite !string_leb_lt_eq. intros [H1|H1] [H2|H2].
  - left. by etrans.
  - left. by rewrite <- H2.
  - left. by rewrite H1.
  - right. congruence.
Qed.

Global Instance by_detection_time_total : Total by_detection_time.
Proof. intros a b. apply String.leb_total. Qed.

End DetectionTimeOrder.

Section Retention.
Import Tracker RowView.

Variable cfg : Config.t.

Lemma lookup_evict ids : ∀ db j,
  evict ids db !! j = if decide (j ∈ ids) then None else db !! j.
Proof.
  induction ids as [|i ids IH]; intros db j; cbn [evict foldl].
  - case_decide as Hin; [by apply elem_of_nil in Hin|done].
  - fold (evict ids (delete i db)). rewrite IH, lookup_delete.
    destruct (decide (j ∈ ids)) as [Hin|Hnin].
    + rewrite decide_True; [done|by right].
    + destruct (decide (i = j)) as [->|Hne].
      * rewrite decide_True; [done|left].
      * rewrite decide_False; [done|].
        intros [?|?]%elem_of_cons; congruence.
Qed.

Lemma elem_of_purge ids : ∀ l r,
  r ∈ purge ids l ↔ r ∈ l ∧ oh_match_id r ∉ ids.
Proof.
  induction ids as [|i ids IH]; intros l r; cbn [purge foldl].
  - split; [intros ?; split; [done|apply not_elem_of_nil]|by intros [? _]].
  - fold (purge ids (filter (λ r, oh_match_id r ≠ i) l)).
    rewrite IH, list_elem_of_filter, not_elem_of_cons. tauto.
Qed.

Lemma size_evict ids : ∀ db,
  NoDup ids → (∀ i, i ∈ ids → is_Some (db !! i)) →
  (size (evict ids db) + length ids = size db)%nat.
Proof.
  induction ids as [|i ids IH]; intros db Hnd Hin; cbn [evict foldl length].
  - lia.
  - fold (evict ids (delete i db)).
    apply NoDup_cons in Hnd as [Hi Hnd].
    assert (is_Some (db !! i)) as Hsome by (apply Hin; left).
    pose proof (map_size_delete_Some i db Hsome) as Hsz.
    assert (size db ≠ 0%nat) as Hne.
    { apply map_size_non_empty_iff. intros ->.
      rewrite lookup_empty in Hsome. by destruct Hsome. }
    specialize (IH (delete i db) Hnd). rewrite Hsz in IH.
    assert (∀ j, j ∈ ids → is_Some (delete i db !! j)) as Hin'.
    { intros j Hj. rewrite lookup_delete_ne; [apply Hin; by right|].
      by intros ->. }
    specialize (IH Hin'). lia.
Qed.

(** The history rows go first ... *)
Lemma run_delete_odds ids : ∀ rest w,
  run ((DeleteOdds <$> ids) ++ rest) w
  = run rest (with_odds (purge ids) w).
Proof.
  induction ids as [|i ids IH]; intros rest w; simpl.
  - by destruct w.
  - rewrite IH. by destruct w.
Qed.

(** ... so that every [DELETE FROM matches] passes the foreign key. *)
Lemma run_delete_matches ids : ∀ w,
  (∀ r, r ∈ odds_history w → oh_match_id r ∉ ids) →
  run (DeleteMatch <$> ids) w = (with_matches (evict ids) w, true).
Proof.
  induction ids as [|i ids IH]; intros w Hodds; simpl.
  - by destruct w.
  - unfold delete_match.
    assert (existsb (λ r, String.eqb (oh_match_id r) i) (odds_history w)
            = false) as ->.
    { apply not_true_is_false. intros (r & Hr & Heq)%existsb_exists.
      apply String.eqb_eq in Heq. apply list_elem_of_In in Hr.
      apply (Hodds r Hr). rewrite Heq. left. }
    assert (∀ w', odds_history w' = odds_history w →
              run (DeleteMatch <$> ids) w' = (with_matches (evict ids) w', true))
      as Hrest.
    { intros w' Hw'. apply IH. rewrite Hw'. intros r Hr Hin.
      apply (Hodds r Hr). by right. }
    destruct (matches w !! i) as [m|] eqn:Hm.
    + rewrite Hrest by done. by destruct w.
    + rewrite Hrest by done. unfold with_matches. simpl.
      by rewrite (delete_id _ _ Hm).
Qed.

Lemma run_evictions ids w :
  run (evictions ids) w
  = (mkWorld (evict ids (matches w)) (next_id w)
       (purge ids (odds_history w)) (telegram w), true).
Proof.
  unfold evictions. rewrite <- (app_nil_r (DeleteMatch <$> ids)) at 1.
  rewrite app_assoc, <- app_assoc, run_delete_odds. rewrite app_nil_r.
  rewrite run_delete_matches; [done|].
  intros r Hr. cbn [odds_history with_odds] in Hr.
  by apply elem_of_purge in Hr as [_ ?].
Qed.

Lemma enforceMatchLimit_eq w :
  enforceMatchLimit cfg w
  = mkWorld (evict (evicted cfg w) (matches w)) (next_id w)
      (purge (evicted cfg w) (odds_history w)) (telegram w).
Proof.
  unfold enforceMatchLimit, evicted.
  case_bool_decide; [by destruct w|].
  case_bool_decide as He; [rewrite He; by destruct w|].
  by rewrite run_evictions.
Qed.

Lemma enforceMatchLimit_run w :
  run (evictions (evicted cfg w)) w = (enforceMatchLimit cfg w, true).
Proof. by rewrite run_evictions, enforceMatchLimit_eq. Qed.

End Retention.

Section Oldest.
Import Tracker RowView.

Variable cfg : Config.t.

Lemma oldestFinished_unfold limit w :
  oldestFinished limit w
  = match_id <$> take (Z.to_nat limit)
                   (merge_sort by_detection_time (finishedRows w)).
Proof. done. Qed.

Lemma sorted_finished_rows w :
  merge_sort by_detection_time (finishedRows w) ⊆+ rows w.
Proof.
  rewrite merge_sort_Permutation. apply sublist_submseteq, sublist_filter.
Qed.

Lemma selection_rows k w :
  take k (merge_sort by_detection_time (finishedRows w)) ⊆+ rows w.
Proof. etrans; [apply submseteq_take|apply sorted_finished_rows]. Qed.

Lemma NoDup_oldestFinished limit w :
  wf w → NoDup (oldestFinished limit w).
Proof.
  intros Hwf. rewrite oldestFinished_unfold.
  eapply NoDup_snapshot; [done|apply selection_rows].
Qed.

Lemma elem_of_oldestFinished limit w i :
  wf w → i ∈ oldestFinished limit w →
  ∃ m, matches w !! i = Some m ∧ status m = finished
       ∧ m ∈ take (Z.to_nat limit)
               (merge_sort by_detection_time (finishedRows w)).
Proof.
  intros Hwf. rewrite oldestFinished_unfold.
  intros (m & -> & Hm)%list_elem_of_fmap. exists m. split; [|split; [|done]].
  - eapply snapshot_current; [done|apply selection_rows|done].
  - apply elem_of_take in Hm as (k & Hk & _).
    apply list_elem_of_lookup_2 in Hk.
    rewrite merge_sort_Permutation in Hk.
    by apply list_elem_of_filter in Hk as [? _].
Qed.

Lemma length_oldestFinished limit w :
  length (oldestFinished limit w)
  = (Z.to_nat limit `min` length (finishedRows w))%nat.
Proof.
  rewrite oldestFinished_unfold, length_fmap, length_take.
  by rewrite merge_sort_Permutation.
Qed.

(** Whatever finished row is not picked is no older than the picked
    ones. *)
Lemma oldestFinished_oldest limit w i j mi mj :
  wf w →
  i ∈ oldestFinished limit w → matches w !! i = Some mi →
  j ∉ oldestFinished limit w → matches w !! j = Some mj →
  status mj = finished →
  by_detection_time mi mj.
Proof.
  intros Hwf Hi Hmi Hj Hmj Hfin.
  destruct (elem_of_oldestFinished _ _ _ Hwf Hi) as (mi' & Hmi' & _ & Hsel).
  assert (mi' = mi) as -> by congruence.
  set (sorted := merge_sort by_detection_time (finishedRows w)) in *.
  assert (StronglySorted by_detection_time sorted) as Hsorted
    by apply (StronglySorted_merge_sort _).
  rewrite <- (take_drop (Z.to_nat limit) sorted) in Hsorted.
  eapply StronglySorted_app_1_elem_of; [done|done|].
  assert (mj ∈ sorted) as Hin.
  { unfold sorted. rewrite merge_sort_Permutation.
    apply list_elem_of_filter. split; [done|].
    apply elem_of_rows. eauto. }
  rewrite <- (take_drop (Z.to_nat limit) sorted) in Hin.
  apply elem_of_app in Hin as [Hin|Hin]; [|done].
  exfalso. apply Hj. rewrite oldestFinished_unfold.
  destruct (Hwf _ _ Hmj) as [<- _]. by apply list_elem_of_fmap_2.
Qed.

End Oldest.

Section Ledger.
Import Tracker RowView.

Variable parseFloat : string → option number.







End Ledger.

Section Claims.
Import Tracker RowView.



(** C9.  When the resolver has no goal line for a match that has a row,
    only the score of that row is rewritten: its detected goal line, its
    current goal line and its touched flag stay as they were, no other
    row, no history row and no notification is written, and the cycle
    goes on with the matches that follow. *)
Theorem unavailable_updates_score_only (cfg : Config.t)
    (parseFloat : string → option number) (up : Upstream)
    (mt : LiveMatch) (rest : list LiveMatch) (w : World) (m : Match) :
  getMatch (lm_id mt) w = Some m →
  resolveGoalLine up mt = None →
  let w' := processMatchWithGoalLine cfg parseFloat up mt w in
  getMatch (lm_id mt) w' = Some (set_score (score mt) m)
  ∧ detected_odds (set_score (score mt) m) = detected_odds m
  ∧ current_goal_line (set_score (score mt) m) = current_goal_line m
  ∧ touched_15 (set_score (score mt) m) = touched_15 m
  ∧ current_score (set_score (score mt) m) = Some (score mt)
  ∧ (∀ j, j ≠ lm_id mt → getMatch j w' = getMatch j w)
  ∧ odds_history w' = odds_history w
  ∧ telegram w' = telegram w
  ∧ foldl (λ w mt, processMatchWithGoalLine cfg parseFloat up mt w) w
      (mt :: rest)
    = foldl (λ w mt, processMatchWithGoalLine cfg parseFloat up mt w) w'
        rest.
Proof.
  intros Hm Hg w'.
  assert (w' = update_where (lm_id mt) (set_score (score mt)) w) as Hw'.
  { unfold w', processMatchWithGoalLine. by rewrite Hg, Hm. }
  split_and!; try done; rewrite Hw';
    unfold update_where, with_matches, getMatch in *;
    cbn [matches odds_history telegram]; try done.
  - by rewrite lookup_alter_eq, Hm.
  - intros j Hj. by rewrite lookup_alter_ne.
Qed.

Lemma unavailable_updates_score_only_witness :
  getMatch "m1"
    (processMatchWithGoalLine Examples.cfg0 Examples.pf0 Examples.up_none
       Examples.mt_half Examples.w_touched)
  = set_score "2-" <$> getMatch "m1" Examples.w_touched.
Proof.
  destruct (getMatch "m1" Examples.w_touched) as [m|] eqn:Hm;
    [|vm_compute in Hm; discriminate].
  apply (unavailable_updates_score_only Examples.cfg0 Examples.pf0
           Examples.up_none Examples.mt_half [] Examples.w_touched m).
  - exact Hm.
  - vm_compute. reflexivity.
Defined.




End Claims.

Section LoopRows.
Import Tracker RowView.

Variable cfg : Config.t.

Context (body : World → Match → World) (F : Match → Match)
        (A : Match → list Telegram.Message).

Hypothesis body_eq : ∀ w m,
  matches w !! match_id m = Some m →
  body w m = mkWorld (<[match_id m := F m]> (matches w)) (next_id w)
               (odds_history w) (push cfg (A m) (telegram w)).

(** The rows outside the snapshot are not touched. *)
Lemma loop_lookup_out l w j :
  NoDup (match_id <$> l) →
  (∀ m, m ∈ l → matches w !! match_id m = Some m) →
  j ∉ match_id <$> l →
  matches (foldl body w l) !! j = matches w !! j.
Proof.
  intros Hnd Hsnap Hj.
  apply (snapshot_fold (λ w', matches w' !! j = matches w !! j) body l w);
    try done.
  - intros w' m k Hm Hk. rewrite (body_eq w' m Hm). cbn [matches].
    by rewrite lookup_insert_ne.
  - intros w' m Hin Hm <-. rewrite (body_eq w' m Hm). cbn [matches].
    rewrite lookup_insert_ne; [done|]. intros <-. apply Hj.
    by apply list_elem_of_fmap_2.
Qed.

(** Each row of the snapshot is rewritten once, from what the snapshot
    holds. *)
Lemma loop_lookup_in l : ∀ w m,
  NoDup (match_id <$> l) →
  (∀ m, m ∈ l → matches w !! match_id m = Some m) →
  m ∈ l →
  matches (foldl body w l) !! match_id m = Some (F m).
Proof.
  induction l as [|m0 l IH]; intros w m Hnd Hsnap Hin.
  - by apply elem_of_nil in Hin.
  - rewrite fmap_cons in Hnd. apply NoDup_cons in Hnd as [Hm0 Hnd].
    assert (matches w !! match_id m0 = Some m0) as Hcur
      by (apply Hsnap; left).
    assert (∀ m2, m2 ∈ l →
              matches (body w m0) !! match_id m2 = Some m2) as Hsnap'.
    { intros m2 Hm2. rewrite (body_eq w m0 Hcur). cbn [matches].
      rewrite lookup_insert_ne; [apply Hsnap; by right|].
      intros Heq. apply Hm0. rewrite Heq. by apply list_elem_of_fmap_2. }
    cbn [foldl]. apply elem_of_cons in Hin as [->|Hin].
    + rewrite loop_lookup_out; [|done|done|done].
      rewrite (body_eq w m0 Hcur). cbn [matches].
      by rewrite lookup_insert_eq.
    + by apply IH.
Qed.

End LoopRows.

Section Claims2.
Import Tracker RowView.

(** C10.  A league without an entry in the per-league table has target
    1.5, a league with an entry has the value of its entry; so a match of
    an unconfigured league that is first seen at 1.5 is stored as having
    touched its target, with 1.5 as detected goal line, and its detection
    alert is handed to the queue when the gateway is configured. *)
Theorem unconfigured_league_target_is_default (cfg : Config.t)
    (parseFloat : string → option number) (up : Upstream)
    (mt : LiveMatch) (g : GoalLineResult) (w : World) :
  Config.targetGoalLines cfg !! leagueId mt = None →
  resolveGoalLine up mt = Some g →
  handicap g = Q2Qc 1.5 →
  getMatch (lm_id mt) w = None →
  let w' := processMatchWithGoalLine cfg parseFloat up mt w in
  Config.getTargetGoalLine cfg (leagueId mt) = Q2Qc 1.5
  ∧ (∀ l v, Config.targetGoalLines cfg !! l = Some v →
            Config.getTargetGoalLine cfg l = v)
  ∧ (∃ m, getMatch (lm_id mt) w' = Some m
          ∧ touched_15 m = true
          ∧ detected_odds m = Some (Q2Qc 1.5)
          ∧ alert_sent m = Telegram.accepts cfg)
  ∧ length (Telegram.messageQueue (telegram w'))
    = (length (Telegram.messageQueue (telegram w))
       + if Telegram.accepts cfg then 1 else 0)%nat.
Proof.
  intros Hl Hg Hh Hm w'.
  pose proof (getTargetGoalLine_unconfigured cfg _ Hl) as Ht.
  split; [done|]. split; [by intros l v; apply getTargetGoalLine_configured|].
  unfold w'. rewrite (process_new cfg parseFloat up mt w Hm), Hg.
  unfold getMatch. cbn [matches telegram]. rewrite lookup_insert_eq.
  unfold created, created_alerts. cbn [fmap option_fmap option_map].
  rewrite Ht, Hh.
  rewrite (bool_decide_eq_true_2 (Some (Q2Qc 1.5) = Some (Q2Qc 1.5)) eq_refl).
  rewrite (bool_decide_eq_true_2 (Q2Qc 1.5 = Q2Qc 1.5) eq_refl).
  cbn [andb].
  split.
  - eexists. split; [done|]. by cbn.
  - unfold push, queued. cbn [Telegram.messageQueue].
    rewrite length_app, length_fmap. by destruct (Telegram.accepts cfg).
Qed.

Lemma unconfigured_league_target_is_default_witness :
  Config.getTargetGoalLine Examples.cfg0 99999 = Q2Qc 1.5
  ∧ (touched_15 <$>
       getMatch "m9"
         (processMatchWithGoalLine Examples.cfg0 Examples.pf0
            (Examples.up_line (Q2Qc 1.5)) Examples.mt_other
            empty_world)) = Some true.
Proof.
  destruct (unconfigured_league_target_is_default Examples.cfg0
              Examples.pf0 (Examples.up_line (Q2Qc 1.5)) Examples.mt_other
              (mkGoalLine (Q2Qc 1.5) "1.90" "1.95" "0-0") empty_world)
    as (Ht & _ & (m & Hm & Htouched & _) & _).
  - vm_compute. reflexivity.
  - vm_compute. reflexivity.
  - reflexivity.
  - vm_compute. reflexivity.
  - split; [exact Ht|]. change "m9"%string with (lm_id Examples.mt_other).
    rewrite Hm. cbn. by rewrite Htouched.
Defined.

(** C4.  The rolling limit deletes finished rows only and keeps every
    other row as it is; it issues the deletions of the history rows of the
    evicted matches before the deletions of their rows, so that no
    deletion is refused and no history row of an evicted match is left;
    and when the table is over the limit by [excess] rows and that many
    finished rows exist, exactly [excess] rows go, the table ends at the
    limit, and every evicted row was detected no later than every
    finished row that stays. *)
Theorem enforceMatchLimit_evicts_oldest_finished (cfg : Config.t)
    (w : World) :
  wf w →
  let w' := enforceMatchLimit cfg w in
  let ids := evicted cfg w in
  let excess := Z.of_nat (size (matches w)) - Config.maxMatches cfg in
  (∀ i m, getMatch i w = Some m → status m = live → getMatch i w' = Some m)
  ∧ (∀ i, getMatch i w' = if decide (i ∈ ids) then None else getMatch i w)
  ∧ (∀ i, i ∈ ids → ∃ m, getMatch i w = Some m ∧ status m = finished)
  ∧ (∀ i, i ∈ ids → ∃ k1 k2,
       evictions ids !! k1 = Some (DeleteOdds i)
       ∧ evictions ids !! k2 = Some (DeleteMatch i) ∧ (k1 < k2)%nat)
  ∧ run (evictions ids) w = (w', true)
  ∧ (∀ r, r ∈ odds_history w' ↔ r ∈ odds_history w ∧ oh_match_id r ∉ ids)
  ∧ (0 < excess → excess ≤ Z.of_nat (length (finishedRows w)) →
     Z.of_nat (length ids) = excess
     ∧ Z.of_nat (size (matches w')) = Config.maxMatches cfg
     ∧ ∀ i j mi mj,
         i ∈ ids → getMatch i w = Some mi →
         getMatch j w' = Some mj → status mj = finished →
         String.leb (detection_time mi) (detection_time mj) = true).
Proof.
  intros Hwf w' ids excess.
  assert (∀ i, i ∈ ids → ∃ m, getMatch i w = Some m ∧ status m = finished)
    as Hfin.
  { intros i. unfold ids, evicted. case_bool_decide; [by intros ?%elem_of_nil|].
    intros Hi. destruct (elem_of_oldestFinished _ _ _ Hwf Hi)
      as (m & Hm & Hst & _). eauto. }
  assert (∀ i, getMatch i w' = if decide (i ∈ ids) then None else getMatch i w)
    as Hlook.
  { intros i. unfold w', getMatch. rewrite enforceMatchLimit_eq.
    cbn [matches]. apply lookup_evict. }
  assert (NoDup ids) as Hnd.
  { unfold ids, evicted. case_bool_decide; [constructor|].
    by apply NoDup_oldestFinished. }
  split_and!; try done.
  - intros i m Hm Hlive. rewrite Hlook. case_decide as Hi; [|done].
    destruct (Hfin i Hi) as (m' & Hm' & Hst). congruence.
  - intros i Hi. apply list_elem_of_lookup in Hi as [k Hk].
    exists k, (length ids + k)%nat. unfold evictions. split_and!.
    + rewrite lookup_app_l by (rewrite length_fmap; by eapply lookup_lt_Some).
      by rewrite list_lookup_fmap, Hk.
    + rewrite lookup_app_r by (rewrite length_fmap; lia).
      rewrite length_fmap, Nat.add_comm, Nat.add_sub.
      by rewrite list_lookup_fmap, Hk.
    + apply lookup_lt_Some in Hk. lia.
  - apply enforceMatchLimit_run.
  - intros r. unfold w'. rewrite enforceMatchLimit_eq. cbn [odds_history].
    apply elem_of_purge.
  - intros Hpos Hle.
    assert (ids = oldestFinished excess w) as Hids.
    { unfold ids, evicted. rewrite bool_decide_eq_false_2; [done|].
      unfold excess in Hpos. lia. }
    assert (Z.of_nat (length ids) = excess) as Hlen.
    { rewrite Hids, length_oldestFinished. lia. }
    split_and!; [done| |].
    + unfold w'. rewrite enforceMatchLimit_eq. cbn [matches].
      assert (∀ i, i ∈ ids → is_Some (matches w !! i)) as Hpres.
      { intros i Hi. destruct (Hfin i Hi) as (m & Hm & _). by exists m. }
      pose proof (size_evict ids (matches w) Hnd Hpres) as Hsz.
      unfold ids, excess in *. lia.
    + intros i j mi mj Hi Hmi Hmj Hst. rewrite Hlook in Hmj.
      case_decide as Hj; [done|]. rewrite Hids in Hi, Hj.
      by eapply (oldestFinished_oldest excess w i j).
Qed.

Lemma enforceMatchLimit_evicts_oldest_finished_witness :
  wf Examples.w_over
  ∧ getMatch "a" (enforceMatchLimit Examples.cfg2 Examples.w_over) = None
  ∧ Z.of_nat (size (matches (enforceMatchLimit Examples.cfg2
                               Examples.w_over))) = 2.
Proof.
  assert (wf Examples.w_over) as Hwf
    by (refine (bool_decide_unpack _ _); vm_compute; exact I).
  split; [exact Hwf|].
  destruct (enforceMatchLimit_evicts_oldest_finished Examples.cfg2
              Examples.w_over Hwf) as (_ & Hlook & _ & _ & _ & _ & Hover).
  split.
  - rewrite Hlook. vm_compute. reflexivity.
  - apply Hover; vm_compute; [reflexivity|discriminate].
Defined.

End Claims2.

Section Completion.
Import Tracker RowView.

Variable cfg : Config.t.

(** The local variables of [markMatchAsFinished] follow the resolution
    order. *)
Lemma finalScore_resolved up m : finalScore up m = resolvedOutcome up m.
Proof.
  unfold finalScore, resolvedOutcome, scoreFromLookup.
  fold (scoreFromCurrent m).
  destruct (scoreFromCurrent m) as [[home|] [away|]]; cbn [fst snd];
    rewrite ?bool_decide_eq_true_2, ?bool_decide_eq_false_2 by done;
    cbn [orb]; try done;
    destruct (truthy (bet365_id m)); try done;
    destruct (getMatchResult up _) as [ss|]; try done;
    destruct (truthy ss); try done;
    by destruct (Score.parseScore _) as [[?|] [?|]].
Qed.

(** The row of a live match that is absent from the feed, after the
    completion loop. *)
Lemma checkFinished_absent up feed w m :
  wf w → getMatch (match_id m) w = Some m → status m = live →
  match_id m ∉ lm_id <$> feed →
  getMatch (match_id m) (checkFinishedMatchesV2 cfg up feed w)
  = Some (finish cfg up m).
Proof.
  intros Hwf Hm Hlive Habsent. unfold getMatch in *.
  rewrite checkFinished_unfold.
  assert (m ∈ getLiveMatches w) as Hin.
  { apply list_elem_of_filter. split; [done|]. by apply elem_of_rows_wf. }
  rewrite (loop_lookup_in cfg _ _ _ (finishIfAbsent_eq cfg up (lm_id <$> feed))).
  - by rewrite bool_decide_eq_false_2.
  - eapply NoDup_snapshot; [done|apply getLiveMatches_rows].
  - eapply snapshot_current; [done|apply getLiveMatches_rows].
  - done.
Qed.

End Completion.

Section Claims3.
Import Tracker RowView.

(** C5, as the code has it.  A live match that is absent from the feed
    is marked finished, with the time of the cycle as end time, and its
    final score is resolved in this order: (a) the two integers parsed
    from the stored score, when both parse (["2-1"] gives 2 and 1);
    (b) failing that, the two integers of the score found by the remote
    lookup under the stored fixture id; (c) failing that too, each side
    keeps what the stored score gave for it, null when it gave nothing,
    so the final score is null on both sides when the stored score gave
    neither. *)
Theorem absent_live_match_is_finished (cfg : Config.t) (up : Upstream)
    (feed : list LiveMatch) (w : World) (m : Match) :
  wf w →
  getMatch (match_id m) w = Some m →
  status m = live →
  match_id m ∉ lm_id <$> feed →
  let w' := checkFinishedMatchesV2 cfg up feed w in
  (∃ m', getMatch (match_id m) w' = Some m'
         ∧ status m' = finished
         ∧ match_end_time m' = Some (now up (match_id m))
         ∧ (final_score_home m', final_score_away m')
           = resolvedOutcome up m)
  ∧ Score.parseScore "2-1" = (Some 2, Some 1)
  ∧ (∀ home away,
       scoreFromCurrent m = (Some home, Some away) →
       resolvedOutcome up m = (Some home, Some away))
  ∧ (∀ home away,
       (scoreFromCurrent m).1 = None ∨ (scoreFromCurrent m).2 = None →
       scoreFromLookup up m = Some (home, away) →
       resolvedOutcome up m = (Some home, Some away))
  ∧ ((scoreFromCurrent m).1 = None ∨ (scoreFromCurrent m).2 = None →
     scoreFromLookup up m = None →
     resolvedOutcome up m = scoreFromCurrent m)
  ∧ (scoreFromCurrent m = (None, None) →
     scoreFromLookup up m = None →
     resolvedOutcome up m = (None, None)).
Proof.
  intros Hwf Hm Hlive Habsent w'. split_and!.
  - exists (finish cfg up m). split; [by apply checkFinished_absent|].
    unfold finish, finished_row. rewrite finalScore_resolved.
    destruct (resolvedOutcome up m) as [home away].
    by destruct (negb _ && _).
  - reflexivity.
  - intros home away Hcur. unfold resolvedOutcome. by rewrite Hcur.
  - intros home away Hcur Hlook. unfold resolvedOutcome. rewrite Hlook.
    destruct (scoreFromCurrent m) as [[?|] [?|]]; try done.
    by destruct Hcur.
  - intros Hcur Hlook. unfold resolvedOutcome. rewrite Hlook.
    by destruct (scoreFromCurrent m) as [[?|] [?|]].
  - intros Hcur Hlook. unfold resolvedOutcome. by rewrite Hcur, Hlook.
Qed.

Lemma absent_live_match_is_finished_witness :
  ∃ m', getMatch "a" (checkFinishedMatchesV2 Examples.cfg2 Examples.up_seq
                        [Examples.mt_c] Examples.w_three) = Some m'
        ∧ status m' = finished
        ∧ (final_score_home m', final_score_away m') = (Some 1, Some 0).
Proof.
  destruct (getMatch "a" Examples.w_three) as [m|] eqn:Hm;
    [|vm_compute in Hm; discriminate].
  assert (match_id m = "a"%string) as Hid
    by (vm_compute in Hm; by injection Hm as <-).
  assert (wf Examples.w_three) as Hwf
    by (refine (bool_decide_unpack _ _); vm_compute; exact I).
  destruct (absent_live_match_is_finished Examples.cfg2 Examples.up_seq
              [Examples.mt_c] Examples.w_three m)
    as ((m' & Hm' & Hst & _ & Hscore) & _).
  - exact Hwf.
  - by rewrite Hid.
  - vm_compute in Hm. by injection Hm as <-.
  - rewrite Hid. vm_compute. by intros [[=]|?%elem_of_nil]%elem_of_cons.
  - exists m'. rewrite Hid in Hm'. split; [exact Hm'|]. split; [exact Hst|].
    rewrite Hscore. vm_compute in Hm. by injection Hm as <-.
Defined.

(** C5 as stated fails in its last step: a stored score of which only
    one side parses, with no result from the lookup, leaves that side in
    the final score of the finished match. *)
Lemma half_parsed_score_is_kept :
  let stored := getMatch "m1" Examples.w_half_seen in
  let final := getMatch "m1" Examples.w_half_finished in
  (status <$> stored) = Some live
  ∧ (current_score <$> stored) = Some (Some "2-"%string)
  ∧ Score.parseScore "2-" = (Some 2, None)
  ∧ getMatchResult Examples.up_none "b1" = None
  ∧ (status <$> final) = Some finished
  ∧ (final_score_home <$> final) = Some (Some 2)
  ∧ (final_score_away <$> final) = Some None.
Proof. vm_compute. by repeat split. Qed.

End Claims3.

Section Cycle.
Import Tracker RowView.

Variable cfg : Config.t.
Variable parseFloat : string → option number.

Context (R : Match → Match → Prop) (N : Match → Prop) `{!RowOrder R N}.

(** A record that is there before and after is related by [R]. *)
Lemma tracks_record i r w w' m m' :
  tracks R N i w w' → wf w →
  record i r w = Some m → record i r w' = Some m' → R m m'.
Proof.
  intros (_ & _ & Hev) Hwf. unfold record.
  destruct (matches w !! i) as [m0|] eqn:Hm0; [|done].
  destruct (matches w' !! i) as [m0'|] eqn:Hm0'; [|done].
  case_bool_decide as Hr; [|done]. intros [= ->].
  case_bool_decide as Hr'; [|done]. intros [= ->].
  destruct (Hev m' Hm0') as [(m1 & Hm1 & HR)|[Hnew _]].
  - congruence.
  - destruct (Hwf _ _ Hm0) as [_ Hlt]. lia.
Qed.

(** A record that was created since satisfies [N]. *)
Lemma tracks_created i r w w' m' :
  tracks R N i w w' → (next_id w ≤ r)%nat → wf w →
  record i r w' = Some m' → N m'.
Proof.
  intros (_ & _ & Hev) Hr Hwf. unfold record.
  destruct (matches w' !! i) as [m0'|] eqn:Hm0'; [|done].
  case_bool_decide as Hr'; [|done]. intros [= ->].
  destruct (Hev m' Hm0') as [(m1 & Hm1 & HR)|[_ HN]]; [|done].
  destruct (Hwf _ _ Hm1) as [_ Hlt]. rewrite <- (row_id _ _ HR) in Hlt. lia.
Qed.

Lemma enforce_tracks i w : wf w → tracks R N i w (enforceMatchLimit cfg w).
Proof.
  intros Hwf. rewrite enforceMatchLimit_eq.
  assert (∀ j m, evict (evicted cfg w) (matches w) !! j = Some m →
                 matches w !! j = Some m) as Hsub.
  { intros j m. rewrite lookup_evict. by case_decide. }
  split; [|split; [done|]].
  - intros j m Hm. apply Hwf. by apply Hsub.
  - intros m' Hm'. left. exists m'. split; [by apply Hsub|apply row_refl].
Qed.

Section OnePoll.

Variables (i : string) (up : Upstream) (feed : list LiveMatch).

Hypothesis observed : ∀ mt m,
  mt ∈ feed → lm_id mt = i →
  R m (observe cfg mt (resolveGoalLine up mt) m).

Hypothesis inserted : ∀ mt rowid,
  mt ∈ feed → lm_id mt = i →
  N (created cfg up mt (resolveGoalLine up mt) rowid).

Hypothesis completed : ∀ m, R m (finish cfg up m).

Lemma processes_tracks l w :
  l ⊆ feed → wf w →
  tracks R N i w
    (foldl (λ w mt, processMatchWithGoalLine cfg parseFloat up mt w) w l).
Proof.
  revert w. induction l as [|mt l IH]; intros w Hl Hwf.
  - by apply tracks_refl.
  - cbn [foldl].
    assert (mt ∈ feed) as Hmt by (apply Hl; left).
    assert (tracks R N i w (processMatchWithGoalLine cfg parseFloat up mt w))
      as Htr.
    { apply process_tracks; [done|done| |].
      - intros Hi m _. by apply observed.
      - intros Hi _. by apply inserted. }
    eapply tracks_trans; [done|done|].
    apply IH; [|by destruct Htr].
    intros x Hx. apply Hl. by right.
Qed.

Lemma checkFinished_tracks w :
  wf w → tracks R N i w (checkFinishedMatchesV2 cfg up feed w).
Proof.
  intros Hwf. rewrite checkFinished_unfold.
  eapply (loop_tracks cfg R N i _ _ _ _ w
            (finishIfAbsent_eq cfg up (lm_id <$> feed))).
  - intros m. case_bool_decide.
    + split; [done|]. split; [done|apply row_refl].
    + split; [apply finish_id|]. split; [apply finish_match_id|].
      apply completed.
  - done.
  - eapply NoDup_snapshot; [done|apply getLiveMatches_rows].
  - eapply snapshot_current; [done|apply getLiveMatches_rows].
Qed.

Lemma poll_tracks w :
  wf w → tracks R N i w (poll cfg parseFloat up feed w).
Proof.
  intros Hwf. unfold poll.
  pose proof (processes_tracks feed w (reflexivity _) Hwf) as H1.
  eapply tracks_trans; [done|done|].
  destruct H1 as (Hwf1 & _).
  pose proof (checkFinished_tracks _ Hwf1) as H2.
  eapply tracks_trans; [done|done|].
  apply enforce_tracks. by destruct H2.
Qed.

End OnePoll.

Lemma polls_tracks i ps w :
  (∀ p mt m, p ∈ ps → mt ∈ p.2 → lm_id mt = i →
     R m (observe cfg mt (resolveGoalLine p.1 mt) m)) →
  (∀ p mt rowid, p ∈ ps → mt ∈ p.2 → lm_id mt = i →
     N (created cfg p.1 mt (resolveGoalLine p.1 mt) rowid)) →
  (∀ p m, p ∈ ps → R m (finish cfg p.1 m)) →
  wf w → tracks R N i w (polls cfg parseFloat ps w).
Proof.
  revert w. induction ps as [|p ps IH]; intros w Hobs Hnew Hfin Hwf.
  - by apply tracks_refl.
  - unfold polls. cbn [foldl].
    assert (tracks R N i w (poll cfg parseFloat p.1 p.2 w)) as Htr.
    { apply poll_tracks; [| | |done].
      - intros mt m Hmt Hi. apply (Hobs p); [left|done|done].
      - intros mt rowid Hmt Hi. apply (Hnew p); [left|done|done].
      - intros m. apply Hfin. left. }
    eapply tracks_trans; [done|done|].
    apply IH; [| | |by destruct Htr].
    + intros p' mt m Hp'. apply Hobs. by right.
    + intros p' mt rowid Hp'. apply Hnew. by right.
    + intros p' m Hp'. apply Hfin. by right.
Qed.

(** The backfill passes. *)
Lemma backfillScores_tracks i up w :
  (∀ m, R m (backfilled_score up m)) →
  wf w → tracks R N i w (backfillMissingScores up w).
Proof.
  intros HR Hwf. unfold backfillMissingScores.
  eapply (loop_tracks cfg R N i (λ w m, backfillScore up m w) _ _ _ w
            (backfillScore_eq cfg up)).
  - intros m. split_and!; [| |apply HR];
      unfold backfilled_score; by repeat case_match.
  - done.
  - eapply NoDup_snapshot; [done|apply backfillScores_rows].
  - eapply snapshot_current; [done|apply backfillScores_rows].
Qed.

Lemma backfillGoalLines_tracks i up w :
  (∀ m, R m (backfilled_line up m)) →
  wf w → tracks R N i w (backfillMissingGoalLines up w).
Proof.
  intros HR Hwf. unfold backfillMissingGoalLines.
  eapply (loop_tracks cfg R N i (λ w m, backfillGoalLine up m w) _ _ _ w
            (backfillGoalLine_eq cfg up)).
  - intros m. split_and!; [| |apply HR];
      unfold backfilled_line; by repeat case_match.
  - done.
  - eapply NoDup_snapshot; [done|apply backfillGoalLines_rows].
  - eapply snapshot_current; [done|apply backfillGoalLines_rows].
Qed.

End Cycle.

Section Monotone.
Import Tracker RowView.

Variable cfg : Config.t.
Variable parseFloat : string → option number.

Global Instance settles_order : RowOrder settles (λ _, True).
Proof.
  split; unfold settles.
  - intros m. by split_and!.
  - intros m1 m2 m3 (? & ? & ? & ? & ?) (? & ? & ? & ? & ?).
    split_and!; [congruence|congruence|auto..].
  - by intros m m' (? & _).
  - done.
Qed.

Lemma settles_observe mt g m : settles m (observe cfg mt g m).
Proof.
  unfold observe, settles. destruct g as [g|]; [|done].
  repeat case_match; by split_and!.
Qed.

Lemma quiet_finish up m : quiet m (finish cfg up m).
Proof. unfold finish, quiet, settles. by case_match. Qed.

Lemma settles_finish up m : settles m (finish cfg up m).
Proof. apply quiet_finish. Qed.

Lemma settles_backfilled_score up m : settles m (backfilled_score up m).
Proof. unfold backfilled_score, settles. by repeat case_match. Qed.

Lemma settles_backfilled_line up m : settles m (backfilled_line up m).
Proof. unfold backfilled_line, settles. by repeat case_match. Qed.

Lemma step_settles i op w :
  wf w → tracks settles (λ _, True) i w (step cfg parseFloat op w).
Proof.
  intros Hwf. destruct op as [up feed|up|up]; cbn [step].
  - apply poll_tracks; auto using settles_observe, settles_finish with typeclass_instances.
  - apply backfillScores_tracks; auto using settles_backfilled_score with typeclass_instances.
  - apply backfillGoalLines_tracks; auto using settles_backfilled_line with typeclass_instances.
Qed.

Lemma steps_settles i ops : ∀ w,
  wf w → tracks settles (λ _, True) i w (steps cfg parseFloat ops w).
Proof.
  induction ops as [|op ops IH]; intros w Hwf.
  - by apply tracks_refl; [apply _|].
  - unfold steps. cbn [foldl].
    pose proof (step_settles i op w Hwf) as Htr.
    eapply tracks_trans; [apply _|done|]. apply IH. by destruct Htr.
Qed.

End Monotone.

Section Claims4.
Import Tracker RowView.

(** C7.  Over any sequence of poll cycles and backfill passes, the
    status of a record either stays what it was or goes from live to
    finished: a record that is finished is finished ever after. *)
Theorem status_is_monotonic (cfg : Config.t)
    (parseFloat : string → option number) (ops : list (Op)) (w : World)
    (i : string) (r : nat) (m m' : Match) :
  wf w →
  record i r w = Some m →
  record i r (steps cfg parseFloat ops w) = Some m' →
  (status m' = status m ∨ (status m = live ∧ status m' = finished))
  ∧ (status m = finished → status m' = finished).
Proof.
  intros Hwf Hm Hm'.
  pose proof (steps_settles cfg parseFloat i ops w Hwf) as Htr.
  pose proof (tracks_record _ _ i r _ _ m m' Htr Hwf Hm Hm')
    as (_ & _ & Hst & _).
  split; [|done].
  destruct (status m) eqn:Hs, (status m') eqn:Hs'; auto.
Qed.

Lemma status_is_monotonic_witness :
  ∃ m', record "a" 1 (steps Examples.cfg0 Examples.pf0
                        [Poll Examples.up_seq [Examples.mt_a;
                                               Examples.mt_c];
                         BackfillScores Examples.up_seq]
                        Examples.w_over) = Some m'
        ∧ status m' = finished.
Proof.
  assert (wf Examples.w_over) as Hwf
    by (refine (bool_decide_unpack _ _); vm_compute; exact I).
  destruct (record "a" 1 Examples.w_over) as [m|] eqn:Hm;
    [|vm_compute in Hm; discriminate].
  destruct (record "a" 1 (steps _ _ _ _)) as [m'|] eqn:Hm';
    [|vm_compute in Hm'; discriminate].
  exists m'. split; [reflexivity|].
  apply (status_is_monotonic Examples.cfg0 Examples.pf0 _ Examples.w_over
           "a" 1%nat m m' Hwf Hm Hm').
  vm_compute in Hm. by injection Hm as <-.
Defined.

End Claims4.

Section Frozen.
Import Tracker RowView.

Variable cfg : Config.t.
Variable parseFloat : string → option number.
Variable t : number.

Global Instance frozen_order : RowOrder (frozen t) (settled_at t).
Proof.
  split; unfold frozen.
  - intros m. by split_and!.
  - intros m1 m2 m3 [Hid12 H12] [Hid23 H23]. split; [congruence|].
    intros Hs1. destruct (H12 Hs1) as [Hs2 Ht12].
    destruct (H23 Hs2) as [Hs3 Ht23]. split; [done|].
    intros Ht1. destruct (Ht12 Ht1) as [Ht2 Hd12].
    destruct (Ht23 Ht2) as [Ht3 Hd23]. split; congruence.
  - by intros m m' [? _].
  - intros m m' Hs [_ H]. by destruct (H Hs).
Qed.

Lemma frozen_quiet m m' : quiet m m' → frozen t m m'.
Proof.
  intros ((Hid & _) & Hd & Ht & Ha). split; [done|].
  unfold settled_at. rewrite Hd, Ht, Ha. auto.
Qed.

Lemma frozen_observe mt g m :
  Config.getTargetGoalLine cfg (leagueId mt) = t →
  frozen t m (observe cfg mt g m).
Proof.
  intros Htarget. split; [apply (observe_id cfg)|].
  unfold observe, settled_at. rewrite Htarget.
  destruct g as [g|]; [|by cbn; auto].
  case_bool_decide as Hh.
  - destruct (alert_sent m) eqn:Ha; cbn [negb].
    + cbn. rewrite Ha. auto.
    + intros Hs. destruct (Telegram.accepts cfg); cbn; rewrite Hh;
        (split; [auto|]); intros Ht; (split; [done|]);
        by destruct (Hs Ht) as [?| ->].
  - destruct (touched_15 m) eqn:Ht; cbn; rewrite ?Ht; auto.
    intros _. split; [done|]. done.
Qed.

Lemma settled_created up mt g rowid :
  Config.getTargetGoalLine cfg (leagueId mt) = t →
  settled_at t (created cfg up mt g rowid).
Proof.
  intros Htarget. unfold settled_at, created. cbn. rewrite Htarget.
  intros Hh%bool_decide_eq_true. by right.
Qed.

Lemma polls_frozen i ps w :
  (∀ p mt, p ∈ ps → mt ∈ p.2 → lm_id mt = i →
     Config.getTargetGoalLine cfg (leagueId mt) = t) →
  wf w →
  tracks (frozen t) (settled_at t) i w (polls cfg parseFloat ps w).
Proof.
  intros Htarget Hwf. apply polls_tracks; [apply _| | | |done].
  - intros p mt m Hp Hmt Hi. apply frozen_observe. by eapply Htarget.
  - intros p mt rowid Hp Hmt Hi. apply settled_created. by eapply Htarget.
  - intros p m _. apply frozen_quiet, quiet_finish.
Qed.

End Frozen.

Section Claims5.
Import Tracker RowView.

(** C1, as the code has it.  Take a record whose touched flag, if set,
    stands the way the poll cycle sets it (with the alert recorded, or
    with the target of the league as detected goal line), or a record
    that does not exist yet.  Once the flag is set at some point of a
    sequence of poll cycles, the detected goal line is the same, and the
    flag is still set, after any further poll cycles in which the match
    is observed with that target; and every observation that carries a
    goal line stores it as current goal line of an existing row. *)
Theorem detected_odds_is_frozen (cfg : Config.t)
    (parseFloat : string → option number) (t : number)
    (ps1 ps2 : list (Upstream * list LiveMatch)) (w : World)
    (i : string) (r : nat) (m1 m2 : Match) :
  wf w →
  (∀ p mt, p ∈ ps1 ++ ps2 → mt ∈ p.2 → lm_id mt = i →
     Config.getTargetGoalLine cfg (leagueId mt) = t) →
  ((next_id w ≤ r)%nat ∨ ∃ m, record i r w = Some m ∧ settled_at t m) →
  record i r (polls cfg parseFloat ps1 w) = Some m1 →
  touched_15 m1 = true →
  record i r (polls cfg parseFloat (ps1 ++ ps2) w) = Some m2 →
  (touched_15 m2 = true
   ∧ detected_odds m2 = detected_odds m1
   ∧ (alert_sent m1 = true ∨ detected_odds m1 = Some t))
  ∧ (∀ up mt g w0 m0,
       wf w0 → getMatch (lm_id mt) w0 = Some m0 →
       resolveGoalLine up mt = Some g →
       ∃ m0', getMatch (lm_id mt)
                (processMatchWithGoalLine cfg parseFloat up mt w0)
              = Some m0'
              ∧ current_goal_line m0' = Some (handicap g)).
Proof.
  intros Hwf Htarget Hstart Hm1 Ht1 Hm2. split.
  - unfold polls in Hm2. rewrite foldl_app in Hm2.
    fold (polls cfg parseFloat ps1 w) in Hm2.
    fold (polls cfg parseFloat ps2 (polls cfg parseFloat ps1 w)) in Hm2.
    assert (tracks (frozen t) (settled_at t) i w (polls cfg parseFloat ps1 w))
      as Htr1.
    { apply polls_frozen; [|done]. intros p mt Hp. apply Htarget.
      apply elem_of_app. by left. }
    assert (wf (polls cfg parseFloat ps1 w)) as Hwf1 by (by destruct Htr1).
    assert (tracks (frozen t) (settled_at t) i (polls cfg parseFloat ps1 w)
              (polls cfg parseFloat ps2 (polls cfg parseFloat ps1 w)))
      as Htr2.
    { apply polls_frozen; [|done]. intros p mt Hp. apply Htarget.
      apply elem_of_app. by right. }
    assert (settled_at t m1) as Hs1.
    { destruct Hstart as [Hnew|(m & Hm & Hs)].
      - by eapply (tracks_created _ _ i r w).
      - by destruct (tracks_record _ _ i r _ _ m m1 Htr1 Hwf Hm Hm1)
          as [_ [? _]]. }
    destruct (tracks_record _ _ i r _ _ m1 m2 Htr2 Hwf1 Hm1 Hm2)
      as [_ Hfr].
    destruct (Hfr Hs1) as [_ Hfr']. destruct (Hfr' Ht1) as [? ?].
    split_and!; [done|done|by apply Hs1].
  - intros up mt g w0 m0 Hwf0 Hm0 Hg. unfold getMatch in *.
    destruct (Hwf0 _ _ Hm0) as [Hkey _].
    rewrite (process_existing cfg parseFloat up mt w0 m0 Hm0 Hkey), Hg.
    cbn [matches]. rewrite lookup_insert_eq. eexists. split; [done|].
    unfold observe. by repeat case_match.
Qed.

Lemma detected_odds_is_frozen_witness :
  ∃ m2, record "m1" 1
          (polls Examples.cfg0 Examples.pf0
             ([Examples.cycle (Q2Qc 1.5)]
              ++ [Examples.cycle (Q2Qc 3); Examples.cycle (Q2Qc 1.5);
                  Examples.cycle (Q2Qc 1)])
             empty_world) = Some m2
        ∧ detected_odds m2 = Some (Q2Qc 1.5).
Proof.
  destruct (record "m1" 1
              (polls Examples.cfg0 Examples.pf0
                 [Examples.cycle (Q2Qc 1.5)] empty_world))
    as [m1|] eqn:Hm1; [|vm_compute in Hm1; discriminate].
  destruct (record "m1" 1 (polls _ _ (_ ++ _) _)) as [m2|] eqn:Hm2;
    [|vm_compute in Hm2; discriminate].
  exists m2. split; [reflexivity|].
  destruct (detected_odds_is_frozen Examples.cfg0 Examples.pf0 (Q2Qc 1.5)
              [Examples.cycle (Q2Qc 1.5)]
              [Examples.cycle (Q2Qc 3); Examples.cycle (Q2Qc 1.5);
               Examples.cycle (Q2Qc 1)]
              empty_world "m1" 1%nat m1 m2) as [(_ & -> & _) _].
  - done.
  - intros p mt Hp Hmt _.
    assert (mt = Examples.mt0) as ->; [|by vm_compute].
    rewrite !elem_of_app, !elem_of_cons, !elem_of_nil in Hp.
    destruct Hp as [[->|[]]|[->|[->|[->|[]]]]];
      by apply list_elem_of_singleton in Hmt.
  - left. cbn. lia.
  - exact Hm1.
  - vm_compute in Hm1. by injection Hm1 as <-.
  - exact Hm2.
  - vm_compute in Hm1. by injection Hm1 as <-.
Defined.

(** C1 as stated fails: the touched flag can be set while the alert is
    not recorded and the detected goal line is not the target (a
    backfill pass writes the line the match started at); the next
    observation at the target then rewrites the detected goal line. *)
Lemma backfilled_touched_record_is_rewritten :
  let before := record "m1" 1 Examples.w_backfilled in
  let after := record "m1" 1 Examples.w_backfilled_then_target in
  extractHistoricalAsianGoalLine Examples.summary_2_then_target
  = Some (Q2Qc 2, true)
  ∧ (touched_15 <$> before) = Some true
  ∧ (alert_sent <$> before) = Some false
  ∧ (detected_odds <$> before) = Some (Some (Q2Qc 2))
  ∧ (touched_15 <$> after) = Some true
  ∧ (detected_odds <$> after) = Some (Some (Q2Qc 1.5))
  ∧ Q2Qc 2 ≠ Q2Qc 1.5.
Proof. vm_compute. by repeat split. Qed.

End Claims5.

Section OnceOnly.
Import Tracker RowView.

Variable cfg : Config.t.

Context (p : string → nat → Telegram.QueueItem → bool) (f : Match → bool)
        (base : string → nat → nat).

Lemma count_app q a b : count q (a ++ b) = (count q a + count q b)%nat.
Proof. unfold count. by rewrite filter_app, length_app. Qed.

(** A piece of work that hands nothing over and keeps the flags. *)
Lemma once_only_quiet new w w' :
  (∀ i, tracks settles (λ _, True) i w w') →
  (∀ m m', settles m m' → f m = true → f m' = true) →
  once_only p f base new w → once_only p f base new w'.
Proof.
  intros Htr Hf Hk i r. destruct (Hk i r) as [Hle Hone].
  split; [done|]. intros Heq. destruct (Hone Heq) as [Hr Hrows].
  destruct (Htr i) as (_ & Hn & Hev). split; [lia|].
  intros m' Hm' Hid.
  destruct (Hev m' Hm') as [(m & Hm & Hs)|[Hnew _]]; [|lia].
  apply (Hf m m' Hs). apply Hrows; [done|].
  destruct Hs as (<- & _). done.
Qed.

(** A piece of work that rewrites the row under [k] and hands over
    [msgs], all about that row, at most one of the kind, and that one
    only if the flag was not set and is set now. *)
Lemma once_only_rewrite new w k m m' msgs odds tg :
  wf w → matches w !! k = Some m →
  id m' = id m →
  (f m = true → f m' = true) →
  (∀ i r, (i, r) ≠ (k, id m) → count (p i r) (queued cfg msgs) = 0%nat) →
  (count (p k (id m)) (queued cfg msgs) ≤ 1)%nat →
  (count (p k (id m)) (queued cfg msgs) = 1%nat →
     f m = false ∧ f m' = true) →
  once_only p f base new w →
  once_only p f base (new ++ queued cfg msgs)
    (mkWorld (<[k := m']> (matches w)) (next_id w) odds tg).
Proof.
  intros Hwf Hm Hid Hmono Hother Hself Hguard Hk i r.
  destruct (Hk i r) as [Hle Hone]. rewrite count_app. cbn [matches next_id].
  destruct (decide ((i, r) = (k, id m))) as [[= -> ->]|Hne].
  - destruct (Hwf _ _ Hm) as [_ Hlt].
    destruct (decide (count (p k (id m)) (queued cfg msgs) = 1%nat))
      as [Hc|Hc].
    + destruct (Hguard Hc) as [Hf Hf'].
      assert (count (p k (id m)) new + base k (id m) ≠ 1)%nat as Hz.
      { intros Heq. destruct (Hone Heq) as [_ Hrows].
        rewrite (Hrows m Hm eq_refl) in Hf. done. }
      split; [lia|]. intros _. split; [done|].
      intros m0. rewrite lookup_insert_eq. by intros [= <-].
    + assert (count (p k (id m)) (queued cfg msgs) = 0%nat) as -> by lia.
      split; [lia|]. intros Heq. split; [done|].
      intros m0. rewrite lookup_insert_eq. intros [= <-] _.
      apply Hmono. apply Hone; [lia|done|done].
  - rewrite (Hother i r Hne). split; [lia|]. intros Heq.
    destruct Hone as [Hr Hrows]; [lia|]. split; [done|].
    intros m0. rewrite lookup_insert. case_decide as Hik.
    + intros [= <-] Hr'. exfalso. apply Hne. congruence.
    + apply Hrows.
Qed.

(** A piece of work that inserts a row with the next rowid. *)
Lemma once_only_insert new w k row msgs odds tg :
  id row = next_id w →
  (∀ i r, (i, r) ≠ (k, next_id w) →
     count (p i r) (queued cfg msgs) = 0%nat) →
  (count (p k (next_id w)) (queued cfg msgs) ≤ 1)%nat →
  (count (p k (next_id w)) (queued cfg msgs) = 1%nat → f row = true) →
  once_only p f base new w →
  once_only p f base (new ++ queued cfg msgs)
    (mkWorld (<[k := row]> (matches w)) (S (next_id w)) odds tg).
Proof.
  intros Hid Hother Hself Hguard Hk i r.
  destruct (Hk i r) as [Hle Hone]. rewrite count_app. cbn [matches next_id].
  destruct (decide ((i, r) = (k, next_id w))) as [[= -> ->]|Hne].
  - assert (count (p k (next_id w)) new + base k (next_id w) = 0)%nat as Hz.
    { destruct (decide (count (p k (next_id w)) new
                        + base k (next_id w) = 1)%nat) as [Heq|?]; [|lia].
      destruct (Hone Heq) as [? _]. lia. }
    split; [lia|]. intros Heq. split; [lia|].
    intros m0. rewrite lookup_insert_eq. intros [= <-] _.
    apply Hguard. lia.
  - rewrite (Hother i r Hne). split; [lia|]. intros Heq.
    destruct Hone as [Hr Hrows]; [lia|]. split; [lia|].
    intros m0. rewrite lookup_insert. case_decide as Hik.
    + intros [= <-] Hr'. exfalso. apply Hne. congruence.
    + apply Hrows.
Qed.

End OnceOnly.

Section Notified.
Import Tracker RowView.

Variable cfg : Config.t.
Variable parseFloat : string → option number.
Variables (bd br : string → nat → nat) (q0 : list Telegram.QueueItem).

Lemma count_queued_nil q : count q (queued cfg []) = 0%nat.
Proof. done. Qed.

Lemma count_queued_one q msg :
  count q (queued cfg [msg])
  = if q (Telegram.mkItem (Config.chatId cfg) msg 0) then 1%nat else 0%nat.
Proof.
  unfold count, queued. cbn [fmap list_fmap].
  rewrite filter_cons, filter_nil.
  destruct (q _); [by rewrite decide_True|by rewrite decide_False].
Qed.

Lemma queue_push msgs tg :
  Telegram.messageQueue (push cfg msgs tg)
  = Telegram.messageQueue tg ++ queued cfg msgs.
Proof. done. Qed.

Ltac count_simpl :=
  rewrite ?count_queued_nil, ?count_queued_one;
  cbn [detection_for completion_for Telegram.message].

Ltac other_subject Hne :=
  rewrite bool_decide_eq_false_2; [done|];
  intros [? ?]; apply Hne; congruence.

(** A row is rewritten and at most one notification about it is handed
    over, with its flag going from unset to set. *)
Lemma notified_rewrite w k m m' msgs odds :
  matches w !! k = Some m →
  id m' = id m → match_id m' = match_id m → settles m m' →
  (msgs = []
   ∨ (∃ m0 g t, msgs = [Telegram.TargetDetectionAlert m0 g t]
                ∧ match_id m0 = k ∧ id m0 = id m
                ∧ alert_sent m = false ∧ alert_sent m' = true)
   ∨ (∃ m0, msgs = [Telegram.ResultAlert m0]
            ∧ match_id m0 = k ∧ id m0 = id m
            ∧ result_alert_sent m = false ∧ result_alert_sent m' = true)) →
  notified_once bd br q0 w →
  notified_once bd br q0
    (mkWorld (<[k := m']> (matches w)) (next_id w) odds
       (push cfg msgs (telegram w))).
Proof.
  intros Hm Hid Hkey Hs Hmsgs (Hwf & new & Hq & Hd & Hr).
  split; [by eapply wf_insert_row|].
  exists (new ++ queued cfg msgs). cbn [telegram].
  rewrite queue_push, Hq, app_assoc. split; [done|].
  destruct Hs as (_ & _ & _ & Ha & Hra).
  split.
  - apply (once_only_rewrite cfg _ _ _ new w k m); try done.
    + intros i r Hne.
      destruct Hmsgs as [->|[(m0 & g & t & -> & Hk0 & Hi0 & _)
                             |(m0 & -> & _)]]; count_simpl;
        [done|other_subject Hne|done].
    + destruct Hmsgs as [->|[(m0 & g & t & -> & _)|(m0 & -> & _)]];
        count_simpl; [lia|(case_match; lia)|lia].
    + destruct Hmsgs as [->|[(m0 & g & t & -> & _ & _ & ? & ?)
                             |(m0 & -> & _)]]; count_simpl; done.
  - apply (once_only_rewrite cfg _ _ _ new w k m); try done.
    + intros i r Hne.
      destruct Hmsgs as [->|[(m0 & g & t & -> & _)
                             |(m0 & -> & Hk0 & Hi0 & _)]]; count_simpl;
        [done|done|other_subject Hne].
    + destruct Hmsgs as [->|[(m0 & g & t & -> & _)|(m0 & -> & _)]];
        count_simpl; [lia|lia|(case_match; lia)].
    + destruct Hmsgs as [->|[(m0 & g & t & -> & _)
                             |(m0 & -> & _ & _ & ? & ?)]]; count_simpl; done.
Qed.

(** A row is inserted and at most one detection alert about it is handed
    over. *)
Lemma notified_insert w k row msgs odds :
  id row = next_id w → match_id row = k →
  (msgs = []
   ∨ ∃ m0 g t, msgs = [Telegram.TargetDetectionAlert m0 g t]
               ∧ match_id m0 = k ∧ id m0 = next_id w
               ∧ alert_sent row = true) →
  notified_once bd br q0 w →
  notified_once bd br q0
    (mkWorld (<[k := row]> (matches w)) (S (next_id w)) odds
       (push cfg msgs (telegram w))).
Proof.
  intros Hid Hkey Hmsgs (Hwf & new & Hq & Hd & Hr). split.
  { intros j mj. cbn [matches next_id]. rewrite lookup_insert.
    case_decide as Hj.
    - intros [= <-]. split; [congruence|lia].
    - intros Hmj. destruct (Hwf _ _ Hmj). split; [done|lia]. }
  exists (new ++ queued cfg msgs). cbn [telegram].
  rewrite queue_push, Hq, app_assoc. split; [done|]. split.
  - apply (once_only_insert cfg); try done.
    + intros i r Hne.
      destruct Hmsgs as [->|(m0 & g & t & -> & Hk0 & Hi0 & _)]; count_simpl;
        [done|other_subject Hne].
    + destruct Hmsgs as [->|(m0 & g & t & -> & _)]; count_simpl;
        [lia|(case_match; lia)].
    + destruct Hmsgs as [->|(m0 & g & t & -> & _ & _ & ?)]; count_simpl;
        done.
  - apply (once_only_insert cfg); try done.
    + intros i r Hne.
      destruct Hmsgs as [->|(m0 & g & t & -> & _)]; count_simpl; done.
    + destruct Hmsgs as [->|(m0 & g & t & -> & _)]; count_simpl; lia.
    + destruct Hmsgs as [->|(m0 & g & t & -> & _)]; count_simpl; done.
Qed.

End Notified.

Section NotifiedSteps.
Import Tracker RowView.

Variable cfg : Config.t.
Variable parseFloat : string → option number.
Variables (bd br : string → nat → nat) (q0 : list Telegram.QueueItem).

Lemma notified_process up mt w :
  notified_once bd br q0 w →
  notified_once bd br q0 (processMatchWithGoalLine cfg parseFloat up mt w).
Proof.
  intros Hn. pose proof Hn as (Hwf & _).
  destruct (matches w !! lm_id mt) as [m|] eqn:Hm.
  - destruct (Hwf _ _ Hm) as [Hkey _].
    rewrite (process_existing cfg parseFloat up mt w m Hm Hkey).
    apply (notified_rewrite cfg bd br q0 w _ m);
      auto using observe_id, observe_match_id, settles_observe.
    unfold observe_alerts, observe.
    destruct (resolveGoalLine up mt) as [g|]; [|by left].
    destruct (bool_decide (handicap g = _)); [|by left].
    destruct (alert_sent m) eqn:Ha; [by left|].
    destruct (Telegram.accepts cfg); [|by left].
    right. left. eexists _, _, _. by split_and!.
  - rewrite (process_new cfg parseFloat up mt w Hm).
    apply (notified_insert cfg bd br q0 w); [done|done| |done].
    unfold created_alerts, created.
    destruct (resolveGoalLine up mt) as [g|]; [|by left].
    cbn [fmap option_fmap option_map].
    case_bool_decide as Hh; [|by left].
    destruct (Telegram.accepts cfg); [|by left].
    right. eexists _, _, _. split_and!; try done. cbn.
    rewrite bool_decide_eq_true_2; [done|by f_equal].
Qed.

Lemma notified_finishIfAbsent up ids w m :
  matches w !! match_id m = Some m →
  notified_once bd br q0 w →
  notified_once bd br q0 (finishIfAbsent cfg up ids w m).
Proof.
  intros Hm Hn. rewrite (finishIfAbsent_eq cfg up ids w m Hm).
  apply (notified_rewrite cfg bd br q0 w _ m); try done.
  - case_bool_decide; [done|apply finish_id].
  - case_bool_decide; [done|apply finish_match_id].
  - case_bool_decide; [|apply settles_finish].
    unfold settles. by split_and!.
  - case_bool_decide; [by left|].
    unfold finish_alerts, finish.
    destruct (result_alert_sent m) eqn:Hr; [by left|].
    destruct (Telegram.accepts cfg); [|by left].
    right. right. eexists. by split_and!.
Qed.

Lemma notified_checkFinished up feed w :
  notified_once bd br q0 w →
  notified_once bd br q0 (checkFinishedMatchesV2 cfg up feed w).
Proof.
  intros Hn. pose proof Hn as (Hwf & _). rewrite checkFinished_unfold.
  apply (snapshot_fold (notified_once bd br q0)); try done.
  - eapply NoDup_snapshot; [done|apply getLiveMatches_rows].
  - eapply snapshot_current; [done|apply getLiveMatches_rows].
  - intros w' m j Hm Hj. rewrite (finishIfAbsent_eq cfg up _ w' m Hm).
    cbn [matches]. by rewrite lookup_insert_ne.
  - intros w' m _ Hm. by apply notified_finishIfAbsent.
Qed.

(** Pieces of work that hand nothing over. *)
Lemma notified_quiet w w' :
  (∀ i, tracks settles (λ _, True) i w w') →
  Telegram.messageQueue (telegram w') = Telegram.messageQueue (telegram w) →
  notified_once bd br q0 w → notified_once bd br q0 w'.
Proof.
  intros Htr Hq (Hwf & new & Hnew & Hd & Hr).
  split; [by destruct (Htr ""%string)|].
  exists new. rewrite Hq. split; [done|]. split.
  - eapply once_only_quiet; [done| |done]. by intros m m' (_ & _ & _ & ? & _).
  - eapply once_only_quiet; [done| |done]. by intros m m' (_ & _ & _ & _ & ?).
Qed.

Lemma notified_enforce w :
  notified_once bd br q0 w →
  notified_once bd br q0 (enforceMatchLimit cfg w).
Proof.
  intros Hn. pose proof Hn as (Hwf & _).
  apply (notified_quiet w); [|by rewrite enforceMatchLimit_eq|done].
  intros i. by apply enforce_tracks; [apply _|].
Qed.

Lemma notified_poll up feed w :
  notified_once bd br q0 w →
  notified_once bd br q0 (poll cfg parseFloat up feed w).
Proof.
  intros Hn. unfold poll.
  apply notified_enforce, notified_checkFinished.
  revert w Hn. induction feed as [|mt feed IH]; intros w Hn; [done|].
  cbn [foldl]. by apply IH, notified_process.
Qed.

Lemma queue_loop (body : World → Match → World) (F : Match → Match) l :
  (∀ w m, matches w !! match_id m = Some m →
     body w m = mkWorld (<[match_id m := F m]> (matches w)) (next_id w)
                  (odds_history w) (push cfg [] (telegram w))) →
  ∀ w, NoDup (match_id <$> l) →
  (∀ m, m ∈ l → matches w !! match_id m = Some m) →
  telegram (foldl body w l) = telegram w.
Proof.
  intros Hbody w Hnd Hsnap.
  apply (snapshot_fold (λ w', telegram w' = telegram w) body l w);
    try done.
  - intros w' m j Hm Hj. rewrite (Hbody w' m Hm). cbn [matches].
    by rewrite lookup_insert_ne.
  - intros w' m _ Hm <-. rewrite (Hbody w' m Hm). cbn [telegram].
    apply push_nil.
Qed.

Lemma notified_step op w :
  notified_once bd br q0 w →
  notified_once bd br q0 (step cfg parseFloat op w).
Proof.
  intros Hn. pose proof Hn as (Hwf & _).
  destruct op as [up feed|up|up]; cbn [step].
  - by apply notified_poll.
  - apply (notified_quiet w); [| |done].
    + intros i. apply (backfillScores_tracks cfg); [apply _| |done].
      apply settles_backfilled_score.
    + unfold backfillMissingScores.
      rewrite (queue_loop (λ w m, backfillScore up m w) _ _
                 (backfillScore_eq cfg up)); [done| |].
      * eapply NoDup_snapshot; [done|apply backfillScores_rows].
      * eapply snapshot_current; [done|apply backfillScores_rows].
  - apply (notified_quiet w); [| |done].
    + intros i. apply (backfillGoalLines_tracks cfg); [apply _| |done].
      apply settles_backfilled_line.
    + unfold backfillMissingGoalLines.
      rewrite (queue_loop (λ w m, backfillGoalLine up m w) _ _
                 (backfillGoalLine_eq cfg up)); [done| |].
      * eapply NoDup_snapshot; [done|apply backfillGoalLines_rows].
      * eapply snapshot_current; [done|apply backfillGoalLines_rows].
Qed.

Lemma notified_steps ops : ∀ w,
  notified_once bd br q0 w →
  notified_once bd br q0 (steps cfg parseFloat ops w).
Proof.
  induction ops as [|op ops IH]; intros w Hn; [done|].
  unfold steps. cbn [foldl]. by apply IH, notified_step.
Qed.

End NotifiedSteps.

Section Claims6.
Import Tracker RowView.

Lemma notified_start w :
  wf w →
  notified_once (flagged alert_sent w) (flagged result_alert_sent w)
    (Telegram.messageQueue (telegram w)) w.
Proof.
  intros Hwf. split; [done|]. exists []. split; [by rewrite app_nil_r|].
  assert (∀ p f, once_only p f (flagged f w) [] w) as Hstart; [|by split].
  intros p f i r. unfold flagged, record, count.
  rewrite filter_nil. cbn [length].
  destruct (matches w !! i) as [m|] eqn:Hm; [|split; [lia|intros; lia]].
  case_bool_decide as Hr; [|split; [lia|intros; lia]].
  destruct (f m) eqn:Hf; [|split; [lia|intros; lia]].
  split; [lia|]. intros _. destruct (Hwf _ _ Hm) as [_ Hlt].
  split; [lia|]. intros m0 Hm0 _. congruence.
Qed.

(** C8.  Over any sequence of poll cycles and backfill passes, at most
    one detection alert and at most one completion alert about a given
    record are handed to the queue, and none of a kind whose flag was
    already set on the record at the start. *)
Theorem notifications_fire_at_most_once (cfg : Config.t)
    (parseFloat : string → option number) (ops : list Op) (w : World)
    (i : string) (r : nat) :
  wf w →
  ∃ new,
    Telegram.messageQueue (telegram (steps cfg parseFloat ops w))
    = Telegram.messageQueue (telegram w) ++ new
    ∧ (count (detection_for i r) new + flagged alert_sent w i r ≤ 1)%nat
    ∧ (count (completion_for i r) new + flagged result_alert_sent w i r
       ≤ 1)%nat.
Proof.
  intros Hwf.
  destruct (notified_steps cfg parseFloat _ _ _ ops w (notified_start w Hwf))
    as (_ & new & Hq & Hd & Hr).
  exists new. split; [done|]. split; [apply Hd|apply Hr].
Qed.

Lemma notifications_fire_at_most_once_witness :
  ∃ new,
    Telegram.messageQueue
      (telegram (steps Examples.cfg0 Examples.pf0
                   Examples.seen_twice_gone_twice empty_world)) = new
    ∧ count (detection_for "m1" 1) new = 1%nat
    ∧ count (completion_for "m1" 1) new = 1%nat.
Proof.
  destruct (notifications_fire_at_most_once Examples.cfg0 Examples.pf0
              Examples.seen_twice_gone_twice empty_world "m1" 1)
    as (new & Hq & _).
  - refine (bool_decide_unpack _ _). vm_compute. exact I.
  - exists new. split; [exact Hq|].
    change (Telegram.messageQueue (telegram empty_world) ++ new)
      with new in Hq.
    rewrite <- Hq. vm_compute. split; reflexivity.
Defined.

End Claims6.

(* ------------------------------------------------------------------ *)
(** ** More on the drain loop *)

Section QueueDelivery.
Import Telegram QueueView.

Lemma delivered_app a b : delivered (a ++ b) = delivered a ++ delivered b.
Proof. unfold delivered. by rewrite omap_app. Qed.

Lemma dropped_app a b : dropped (a ++ b) = dropped a ++ dropped b.
Proof. unfold dropped. by rewrite omap_app. Qed.

(** While the gateway accepts every call, the loop delivers the queue
    as it stands, front first. *)
Lemma drain_accepting gateway fuel : ∀ n q,
  (length q ≤ fuel)%nat →
  (∀ k, (n ≤ k < n + length q)%nat → gateway k = true) →
  drain fuel gateway n q
  = (q ≫= (λ i, [Delivered i; Slept 100]), [], (n + length q)%nat).
Proof.
  induction fuel as [|fuel IH]; intros n q Hlen Hok.
  - destruct q; [|cbn in Hlen; lia]. cbn. by rewrite Nat.add_0_r.
  - destruct q as [|item rest]; [cbn; by rewrite Nat.add_0_r|].
    cbn [drain]. rewrite (Hok n) by (cbn; lia).
    cbn [iteration]. rewrite (IH (S n) rest).
    + cbn. do 2 f_equal. lia.
    + cbn in Hlen. lia.
    + intros k Hk. apply Hok. cbn. lia.
Qed.

(** X1.  A gateway that accepts every call gets each queued item
    exactly once, in the order of the queue, with one call per item and
    no failure, retry or drop; the queue is empty afterwards. *)
Theorem accepting_gateway_gets_queue_in_order (gateway : nat → bool)
    (fuel n : nat) (tg : Telegram.t) :
  isProcessingQueue tg = false →
  (length (messageQueue tg) ≤ fuel)%nat →
  (∀ k, (n ≤ k < n + length (messageQueue tg))%nat → gateway k = true) →
  let r := processQueue fuel gateway n tg in
  delivered r.1.1 = messageQueue tg
  ∧ Forall (λ e, is_failure e = false) r.1.1
  ∧ messageQueue r.1.2 = []
  ∧ isProcessingQueue r.1.2 = false
  ∧ r.2 = (n + length (messageQueue tg))%nat.
Proof.
  intros Hidle Hfuel Hok r. unfold r, processQueue. rewrite Hidle.
  cbn [orb]. case_bool_decide as Hq.
  - cbn [fst snd]. rewrite !Hq. cbn. split_and!; try done; lia.
  - rewrite (drain_accepting gateway fuel n _ Hfuel Hok). cbn [fst snd].
    rewrite bool_decide_eq_true_2 by done. cbn [negb messageQueue
      isProcessingQueue]. split_and!; try done.
    + clear. induction (messageQueue tg) as [|i q IH]; [done|].
      cbn. by rewrite <- IH at 2.
    + clear. induction (messageQueue tg) as [|i q IH]; [constructor|].
      cbn. by repeat constructor.
Qed.

Lemma accepting_gateway_gets_queue_in_order_witness :
  delivered
    (processQueue 2 (λ _, true) 0
       (Telegram.mk [Examples.item0; bump Examples.item0] false)).1.1
  = [Examples.item0; bump Examples.item0].
Proof.
  apply (accepting_gateway_gets_queue_in_order (λ _, true) 2 0
           (Telegram.mk [Examples.item0; bump Examples.item0] false)).
  - reflexivity.
  - cbn. lia.
  - reflexivity.
Defined.

(** Whatever the gateway answers, each item leaves the loop once:
    delivered or dropped. *)
Lemma drain_settles gateway fuel : ∀ n q,
  (total_work q ≤ fuel)%nat →
  (message <$> delivered (drain fuel gateway n q).1.1)
  ++ (message <$> dropped (drain fuel gateway n q).1.1)
  ≡ₚ message <$> q.
Proof.
  induction fuel as [|fuel IH]; intros n q Hq.
  - destruct q as [|i q]; [done|].
    rewrite total_work_cons in Hq. unfold work in Hq. lia.
  - destruct q as [|item rest]; [done|]. cbn [drain].
    pose proof (iteration_progress (gateway n) item rest) as [_ Hw].
    unfold iteration in *. destruct (gateway n).
    + cbn [snd] in Hw. specialize (IH (S n) rest ltac:(lia)).
      destruct (drain fuel gateway (S n) rest) as [[evs qf] nf].
      cbn [fst snd] in *. cbn. by rewrite IH.
    + destruct (retries item <? maxRetries)%nat; cbn [snd] in Hw.
      * specialize (IH (S n) (rest ++ [bump item]) ltac:(lia)).
        destruct (drain fuel gateway (S n) _) as [[evs qf] nf].
        cbn [fst snd] in *. cbn. rewrite IH, fmap_app. cbn.
        by rewrite <- Permutation_cons_append.
      * specialize (IH (S n) rest ltac:(lia)).
        destruct (drain fuel gateway (S n) rest) as [[evs qf] nf].
        cbn [fst snd] in *. cbn.
        rewrite <- Permutation_middle. by rewrite IH.
Qed.

(** X2.  Whatever the gateway answers, one run of the loop with an
    idle service ends with an empty queue after at most four calls per
    fresh item, and every message that was queued has been either
    delivered once or dropped once: none is lost, none is sent twice. *)
Theorem processQueue_settles_every_message (gateway : nat → bool)
    (fuel n : nat) (tg : Telegram.t) :
  isProcessingQueue tg = false →
  (total_work (messageQueue tg) ≤ fuel)%nat →
  let r := processQueue fuel gateway n tg in
  messageQueue r.1.2 = []
  ∧ isProcessingQueue r.1.2 = false
  ∧ (message <$> delivered r.1.1) ++ (message <$> dropped r.1.1)
    ≡ₚ message <$> messageQueue tg
  ∧ (r.2 - n ≤ total_work (messageQueue tg))%nat
  ∧ (Forall (λ i, retries i = 0%nat) (messageQueue tg) →
     (r.2 - n ≤ 4 * length (messageQueue tg))%nat).
Proof.
  intros Hidle Hfuel r. unfold r, processQueue. rewrite Hidle.
  cbn [orb]. case_bool_decide as Hq.
  - cbn [fst snd]. rewrite Hq. cbn. split_and!; try done; lia.
  - pose proof (drain_terminates gateway fuel n _ Hfuel) as (He & Ha & Hn).
    pose proof (drain_settles gateway fuel n _ Hfuel) as Hp.
    destruct (drain fuel gateway n (messageQueue tg)) as [[evs qf] nf].
    cbn [fst snd] in *. subst qf.
    rewrite bool_decide_eq_true_2 by done.
    cbn [negb messageQueue isProcessingQueue].
    split_and!; try done; [lia|].
    intros Hfresh. assert (total_work (messageQueue tg)
                           = 4 * length (messageQueue tg))%nat as <-; [|lia].
    clear -Hfresh. induction Hfresh as [|i q Hi _ IH]; [done|].
    rewrite total_work_cons, IH. unfold work, maxRetries. cbn. lia.
Qed.

Lemma processQueue_settles_every_message_witness :
  messageQueue
    (processQueue 8 (λ k, bool_decide (k = 2%nat)) 0
       (Telegram.mk [Examples.item0; Examples.item0] false)).1.2 = [].
Proof.
  apply (processQueue_settles_every_message
           (λ k, bool_decide (k = 2%nat)) 8 0
           (Telegram.mk [Examples.item0; Examples.item0] false)).
  - reflexivity.
  - vm_compute. lia.
Defined.

Lemma iteration_within_bounds ok item rest :
  (retries item ≤ maxRetries)%nat →
  Forall (λ i, retries i ≤ maxRetries)%nat rest →
  Forall within_bounds (iteration ok item rest).1
  ∧ Forall (λ i, retries i ≤ maxRetries)%nat (iteration ok item rest).2.
Proof.
  intros Hi Hrest. unfold iteration. destruct ok.
  - cbn [fst snd]. split; [|done]. rewrite !Forall_cons. cbn.
    unfold retryDelay, maxRetries. split_and!; try done; lia.
  - destruct (Nat.ltb_spec (retries item) maxRetries) as [Hlt|Hge];
      cbn [fst snd].
    + split.
      * rewrite !Forall_cons. cbn. unfold retryDelay, maxRetries in *.
        split_and!; try done; lia.
      * apply Forall_app. split; [done|]. rewrite Forall_singleton.
        cbn. lia.
    + split; [|done]. rewrite !Forall_cons. cbn.
      unfold retryDelay, maxRetries. split_and!; try done; lia.
Qed.

(** X3.  Starting from items whose retry count is within the ceiling
    (as [sendMessage] queues them), the loop never raises a count above
    3, never pauses longer than 3000 ms, and whatever is still queued
    when it is interrupted is within the ceiling too. *)
Theorem drain_keeps_retries_bounded (gateway : nat → bool)
    (fuel n : nat) (q : list QueueItem) :
  Forall (λ i, retries i ≤ maxRetries)%nat q →
  Forall within_bounds (drain fuel gateway n q).1.1
  ∧ Forall (λ i, retries i ≤ maxRetries)%nat (drain fuel gateway n q).1.2.
Proof.
  revert n q. induction fuel as [|fuel IH]; intros n q Hq.
  - destruct q; cbn; by split.
  - destruct q as [|item rest]; [cbn; by split|]. cbn [drain].
    apply Forall_cons in Hq as [Hi Hrest].
    pose proof (iteration_within_bounds (gateway n) item rest Hi Hrest)
      as [Hev Hq'].
    destruct (iteration (gateway n) item rest) as [ev q'].
    cbn [fst snd] in *.
    specialize (IH (S n) q' Hq') as [IH1 IH2].
    destruct (drain fuel gateway (S n) q') as [[evs qf] nf].
    cbn [fst snd] in *. split; [|done]. by apply Forall_app.
Qed.

Lemma drain_keeps_retries_bounded_witness :
  Forall within_bounds
    (drain 3 (λ _, false) 0 [Examples.item0; Examples.item0]).1.1.
Proof.
  apply (drain_keeps_retries_bounded (λ _, false) 3 0
           [Examples.item0; Examples.item0]).
  rewrite !Forall_cons. cbn. unfold maxRetries. split_and!; try done; lia.
Defined.

End QueueDelivery.

(* ------------------------------------------------------------------ *)
(** ** Score strings *)

Section ScoreStrings.
Import Score ScoreView.
Open Scope string_scope.
Open Scope Z_scope.










Lemma split_dash_nonempty s : split_dash s ≠ [].
Proof.
  induction s as [|c s IH]; [done|]. cbn.
  destruct (Ascii.eqb c "-"); [done|]. by destruct (split_dash s).
Qed.

Lemma split_dash_no_dash s :
  all_chars not_dash s = true → split_dash s = [s].
Proof.
  induction s as [|c s IH]; [done|]. cbn.
  intros [Hc Hs]%andb_true_iff. unfold not_dash in Hc.
  apply negb_true_iff in Hc. rewrite Hc, (IH Hs). done.
Qed.


(** The parts [split] returns hold no dash. *)
Lemma split_dash_parts s :
  Forall (λ p, all_chars not_dash p = true) (split_dash s).
Proof.
  induction s as [|c s IH]; [by repeat constructor|]. cbn.
  destruct (Ascii.eqb c "-") eqn:Hc; [by constructor|].
  destruct (split_dash s) as [|p ps].
  - constructor; [|done]. cbn. unfold not_dash. by rewrite Hc.
  - apply Forall_cons in IH as [Hp Hps]. constructor; [|done].
    cbn. unfold not_dash at 1. by rewrite Hc.
Qed.

Lemma trim_start_sound P s :
  all_chars P s = true → all_chars P (trim_start s) = true.
Proof.
  induction s as [|c s IH]; [done|]. cbn.
  intros [Hc Hs]%andb_true_iff. destruct (is_space c); [by apply IH|].
  cbn. by rewrite Hc, Hs.
Qed.

Lemma trim_end_sound P s :
  all_chars P s = true → all_chars P (trim_end s) = true.
Proof.
  induction s as [|c s IH]; [done|]. cbn.
  intros [Hc Hs]%andb_true_iff. specialize (IH Hs).
  destruct (trim_end s) eqn:Ht.
  - destruct (is_space c); [done|]. cbn. by rewrite Hc.
  - cbn in *. by rewrite Hc, IH.
Qed.


Lemma digits_nonneg s : ∀ acc v,
  (∀ a, acc = Some a → 0 ≤ a) → digits acc s = Some v → 0 ≤ v.
Proof.
  induction s as [|c s IH]; intros acc v Hacc; cbn.
  - intros ->. by apply Hacc.
  - destruct (digit c) as [d|] eqn:Hd; [|intros ->; by apply Hacc].
    apply IH. intros a [= <-].
    assert (0 ≤ d).
    { unfold digit in Hd. case_match; [|done]. injection Hd as <-. lia. }
    destruct acc as [a0|]; cbn; [specialize (Hacc a0 eq_refl)|]; lia.
Qed.


Lemma parseInt_no_dash s v :
  all_chars not_dash s = true → parseInt s = Some v → 0 ≤ v.
Proof.
  intros Hs. unfold parseInt.
  pose proof (trim_start_sound not_dash s Hs) as Ht.
  destruct (trim_start s) as [|c s'] eqn:Hts; [done|].
  cbn in Ht. apply andb_true_iff in Ht as [Hc _].
  assert (c ≠ "-"%char) as Hne.
  { intros ->. done. }
  assert (∀ z, digits None (String c s') = Some z → 0 ≤ z) as Hd1
    by (intros z; by apply digits_nonneg).
  assert (∀ z, digits None s' = Some z → 0 ≤ z) as Hd2
    by (intros z; by apply digits_nonneg).
  destruct c as [[] [] [] [] [] [] [] []]; try done; auto.
Qed.



(** X5.  A score string never yields a negative side: what stands
    between two dashes holds no sign.  So a string without a dash gives
    no away score, and a string that starts with a dash gives no home
    score. *)
Theorem parseScore_sides_are_naturals (ss : string) :
  (∀ home, (parseScore ss).1 = Some home → 0 ≤ home)
  ∧ (∀ away, (parseScore ss).2 = Some away → 0 ≤ away)
  ∧ (all_chars not_dash ss = true → (parseScore ss).2 = None)
  ∧ parseScore (String "-" ss) = (None, (parseScore ss).1).
Proof.
  assert (∀ k v, mjoin (((λ s, parseInt (trim s)) <$> split_dash ss) !! k)
                 = Some v → 0 ≤ v) as Hside.
  { intros k v. rewrite list_lookup_fmap.
    destruct (split_dash ss !! k) as [p|] eqn:Hp; [|done]. cbn.
    apply parseInt_no_dash. unfold trim.
    apply trim_end_sound, trim_start_sound.
    pose proof (split_dash_parts ss) as Hall.
    by apply (Forall_lookup_1 _ _ _ _ Hall Hp). }
  split_and!.
  - intros home. apply Hside.
  - intros away. apply Hside.
  - intros Hnd. unfold parseScore. by rewrite split_dash_no_dash.
  - unfold parseScore. cbn [split_dash]. cbn.
    by destruct (split_dash ss).
Qed.

End ScoreStrings.

(* ------------------------------------------------------------------ *)
(** ** Columns that agree *)

Section Sound.
Import Tracker RowView Coherence.

Variable cfg : Config.t.
Variable parseFloat : string → option number.

Global Instance keeps_order : RowOrder keeps sound.
Proof.
  split; unfold keeps.
  - by intros m.
  - intros m1 m2 m3 [? ?] [? ?]. split; [congruence|auto].
  - by intros m m' [? _].
  - intros m m' Hm [_ Hk]. auto.
Qed.

Ltac columns :=
  repeat match goal with
         | |- context [bool_decide _] => case_bool_decide
         | |- context [if ?b then _ else _] => destruct b eqn:?
         | |- context [match ?x with _ => _ end] => destruct x eqn:?
         end;
  cbn in *;
  repeat match goal with b : bool |- _ => destruct b end;
  cbn in *; intuition (try congruence).

Lemma keeps_observe mt g m : keeps m (observe cfg mt g m).
Proof.
  split; [apply observe_id|]. unfold observe, sound.
  destruct m, g as [g|]; cbn. all: columns.
Qed.

Lemma sound_created up mt g rowid : sound (created cfg up mt g rowid).
Proof. unfold created, sound. destruct g as [g|]; cbn. all: columns. Qed.

Lemma keeps_finish up m : keeps m (finish cfg up m).
Proof.
  split; [apply finish_id|]. unfold finish, finished_row, sound, set_result_alert_sent, set_finished,
    coalesce.
  destruct (finalScore up m) as [home away].
  destruct m; cbn. all: columns.
Qed.

Lemma keeps_backfilled_score up m :
  status m = finished → keeps m (backfilled_score up m).
Proof.
  intros Hst. split; unfold backfilled_score, sound, set_final_score,
    coalesce.
  - by repeat case_match.
  - destruct m; cbn in *. subst. all: columns.
Qed.

Lemma keeps_backfilled_line up m :
  detected_odds m = None → keeps m (backfilled_line up m).
Proof.
  intros Hst. split; unfold backfilled_line, sound.
  - by repeat case_match.
  - destruct m; cbn in *. subst. all: columns.
Qed.

(** A loop over a snapshot whose body rewrites the row it was given,
    judged on the rows of the snapshot only. *)
Lemma loop_tracks_on (R : Match → Match → Prop) (N : Match → Prop)
    `{!RowOrder R N} i (body : World → Match → World)
    (F : Match → Match) (A : Match → list Telegram.Message) l w :
  (∀ w m, matches w !! match_id m = Some m →
     body w m = mkWorld (<[match_id m := F m]> (matches w)) (next_id w)
                  (odds_history w) (push cfg (A m) (telegram w))) →
  (∀ m, id (F m) = id m ∧ match_id (F m) = match_id m) →
  (∀ m, m ∈ l → R m (F m)) →
  wf w →
  NoDup (match_id <$> l) →
  (∀ m, m ∈ l → matches w !! match_id m = Some m) →
  tracks R N i w (foldl body w l).
Proof.
  intros Hbody HF HR Hwf Hnd Hsnap.
  apply (snapshot_fold (λ w', tracks R N i w w') body l w Hnd Hsnap).
  - intros w' m j Hm Hj. rewrite (Hbody w' m Hm). cbn [matches].
    by rewrite lookup_insert_ne.
  - intros w' m Hin Hm Htr. eapply tracks_trans; [done|done|].
    destruct Htr as (Hwf' & _ & _). destruct (HF m) as (Hid & Hkey).
    rewrite (Hbody w' m Hm).
    destruct (decide (match_id m = i)) as [<-|Hne].
    + apply (tracks_rewrite _ _ _ w' m); auto.
    + apply tracks_frame; [done| |done|].
      * by eapply wf_insert_row.
      * cbn [matches]. by rewrite lookup_insert_ne.
  - by apply tracks_refl.
Qed.

Lemma backfillScores_keeps i up w :
  wf w → tracks keeps sound i w (backfillMissingScores up w).
Proof.
  intros Hwf. unfold backfillMissingScores.
  eapply (loop_tracks_on keeps sound i (λ w m, backfillScore up m w)
            _ _ _ w (backfillScore_eq cfg up)).
  - intros m. unfold backfilled_score. by repeat case_match.
  - intros m [[Hst _] _]%list_elem_of_filter.
    by apply keeps_backfilled_score.
  - done.
  - eapply NoDup_snapshot; [done|apply backfillScores_rows].
  - eapply snapshot_current; [done|apply backfillScores_rows].
Qed.

Lemma backfillGoalLines_keeps i up w :
  wf w → tracks keeps sound i w (backfillMissingGoalLines up w).
Proof.
  intros Hwf. unfold backfillMissingGoalLines.
  eapply (loop_tracks_on keeps sound i (λ w m, backfillGoalLine up m w)
            _ _ _ w (backfillGoalLine_eq cfg up)).
  - intros m. unfold backfilled_line. by repeat case_match.
  - intros m Hm%elem_of_take. destruct Hm as (k & Hm & _).
    apply list_elem_of_lookup_2 in Hm. rewrite elem_of_reverse in Hm.
    apply list_elem_of_filter in Hm as [Hd _].
    by apply keeps_backfilled_line.
  - done.
  - eapply NoDup_snapshot; [done|apply backfillGoalLines_rows].
  - eapply snapshot_current; [done|apply backfillGoalLines_rows].
Qed.

Lemma step_keeps i op w :
  wf w → tracks keeps sound i w (step cfg parseFloat op w).
Proof.
  intros Hwf. destruct op as [up feed|up|up]; cbn [step].
  - apply poll_tracks; [apply _| | | |done].
    + intros mt m _ _. apply keeps_observe.
    + intros mt rowid _ _. apply sound_created.
    + intros m. apply keeps_finish.
  - by apply backfillScores_keeps.
  - by apply backfillGoalLines_keeps.
Qed.

Lemma steps_keeps i ops : ∀ w,
  wf w → tracks keeps sound i w (steps cfg parseFloat ops w).
Proof.
  induction ops as [|op ops IH]; intros w Hwf.
  - by apply tracks_refl; [apply _|].
  - unfold steps. cbn [foldl].
    pose proof (step_keeps i op w Hwf) as Htr.
    eapply tracks_trans; [apply _|done|]. apply IH. by destruct Htr.
Qed.

(** Whatever the tracker does, rows whose columns agree stay so, and
    the rows it creates agree from the start. *)
Lemma steps_all_sound ops w :
  wf w → all_sound w → all_sound (steps cfg parseFloat ops w).
Proof.
  intros Hwf Hall i m' Hm'.
  destruct (steps_keeps i ops w Hwf) as (_ & _ & Hev).
  destruct (Hev m' Hm') as [(m & Hm & _ & Hk)|[_ Hn]]; [|done].
  apply Hk. by apply (Hall i).
Qed.

Lemma all_sound_empty : all_sound empty_world.
Proof.
  intros i m Hm. unfold getMatch, empty_world in Hm. cbn in Hm.
  by rewrite lookup_empty in Hm.
Qed.

End Sound.

Section SoundClaims.
Import Tracker RowView Coherence.



(** X7.  In every such database a row always has its score; a live
    row has no final score, no end time and no recorded result alert; a
    finished row has its end time; so a result alert is only ever
    recorded on a finished row. *)
Theorem completion_columns_agree (cfg : Config.t)
    (parseFloat : string → option number) (ops : list Op) (w : World)
    (i : string) (m : Match) :
  wf w → all_sound w →
  getMatch i (steps cfg parseFloat ops w) = Some m →
  current_score m ≠ None
  ∧ (status m = live →
     final_score_home m = None ∧ final_score_away m = None
     ∧ match_end_time m = None ∧ result_alert_sent m = false)
  ∧ (status m = finished → match_end_time m ≠ None)
  ∧ (result_alert_sent m = true → status m = finished).
Proof.
  intros Hwf Hall Hm.
  destruct (steps_all_sound cfg parseFloat ops w Hwf Hall i m Hm)
    as (Hsc & _ & _ & _ & Hlive & Hfin).
  split_and!; [done..|].
  intros Hr. destruct (status m) eqn:Hst; [|done].
  destruct (Hlive eq_refl) as (_ & _ & _ & Hr'). congruence.
Qed.

Lemma completion_columns_agree_witness :
  ∃ m, getMatch "m1"
         (steps Examples.cfg0 Examples.pf0 Examples.seen_twice_gone_twice
            empty_world) = Some m
       ∧ status m = finished ∧ match_end_time m ≠ None.
Proof.
  destruct (getMatch "m1" (steps _ _ _ _)) as [m|] eqn:Hm;
    [|vm_compute in Hm; discriminate].
  exists m. split; [done|].
  assert (status m = finished) as Hst
    by (vm_compute in Hm; by injection Hm as <-).
  split; [done|].
  by apply (completion_columns_agree Examples.cfg0 Examples.pf0
              Examples.seen_twice_gone_twice empty_world "m1" m
              ltac:(refine (bool_decide_unpack _ _); vm_compute; exact I)
              all_sound_empty Hm).
Defined.

End SoundClaims.

Section Restart.
Import Tracker RowView Coherence Schema.





End Restart.

(* ------------------------------------------------------------------ *)
(** ** One poll cycle, seen from the feed *)

Section PollFeed.
Import Tracker RowView PollView.

Variable cfg : Config.t.
Variable parseFloat : string → option number.

Lemma process_frame up mt w j :
  wf w → lm_id mt ≠ j →
  matches (processMatchWithGoalLine cfg parseFloat up mt w) !! j
  = matches w !! j.
Proof.
  intros Hwf Hne. destruct (matches w !! lm_id mt) as [m|] eqn:Hm.
  - destruct (Hwf _ _ Hm) as [Hkey _].
    rewrite (process_existing cfg parseFloat up mt w m Hm Hkey).
    cbn [matches]. by rewrite lookup_insert_ne.
  - rewrite (process_new cfg parseFloat up mt w Hm).
    cbn [matches]. by rewrite lookup_insert_ne.
Qed.

Lemma process_next_id up mt w :
  wf w →
  (next_id w ≤ next_id (processMatchWithGoalLine cfg parseFloat up mt w))%nat.
Proof.
  intros Hwf. destruct (matches w !! lm_id mt) as [m|] eqn:Hm.
  - destruct (Hwf _ _ Hm) as [Hkey _].
    by rewrite (process_existing cfg parseFloat up mt w m Hm Hkey).
  - rewrite (process_new cfg parseFloat up mt w Hm). cbn. lia.
Qed.

Lemma processes_frame up l : ∀ w j,
  wf w → j ∉ lm_id <$> l →
  matches (foldl (λ w mt, processMatchWithGoalLine cfg parseFloat up mt w)
             w l) !! j = matches w !! j.
Proof.
  induction l as [|mt l IH]; intros w j Hwf Hj; [done|].
  cbn [foldl]. rewrite fmap_cons in Hj.
  apply not_elem_of_cons in Hj as [Hne Hj].
  rewrite IH; [|by apply wf_process|done].
  by apply process_frame.
Qed.

Lemma processes_seen up l : ∀ w mt,
  wf w → NoDup (lm_id <$> l) → mt ∈ l →
  ∃ m', matches (foldl (λ w mt, processMatchWithGoalLine cfg parseFloat
                                  up mt w) w l) !! lm_id mt = Some m'
        ∧ seen cfg up mt w m'.
Proof.
  induction l as [|mt0 l IH]; intros w mt Hwf Hnd Hin.
  - by apply elem_of_nil in Hin.
  - rewrite fmap_cons in Hnd. apply NoDup_cons in Hnd as [Hmt0 Hnd].
    cbn [foldl]. apply elem_of_cons in Hin as [->|Hin].
    + rewrite processes_frame; [|by apply wf_process|done].
      destruct (matches w !! lm_id mt0) as [m|] eqn:Hm.
      * destruct (Hwf _ _ Hm) as [Hkey _].
        rewrite (process_existing cfg parseFloat up mt0 w m Hm Hkey).
        cbn [matches]. rewrite lookup_insert_eq. eexists. split; [done|].
        left. by exists m.
      * rewrite (process_new cfg parseFloat up mt0 w Hm).
        cbn [matches]. rewrite lookup_insert_eq. eexists. split; [done|].
        right. split; [done|]. by exists (next_id w).
    + assert (lm_id mt0 ≠ lm_id mt) as Hne.
      { intros Heq. apply Hmt0. rewrite Heq. by apply list_elem_of_fmap_2. }
      destruct (IH (processMatchWithGoalLine cfg parseFloat up mt0 w) mt)
        as (m' & Hm' & Hseen); [by apply wf_process|done|done|].
      exists m'. split; [done|].
      pose proof (process_next_id up mt0 w Hwf) as Hn.
      unfold seen in *. rewrite process_frame in Hseen by done.
      destruct Hseen as [?|[? (r & Hr & ->)]]; [by left|right].
      split; [done|]. exists r. split; [lia|done].
Qed.

Lemma wf_processes up l : ∀ w,
  wf w →
  wf (foldl (λ w mt, processMatchWithGoalLine cfg parseFloat up mt w) w l).
Proof.
  induction l as [|mt l IH]; intros w Hwf; [done|].
  cbn [foldl]. by apply IH, wf_process.
Qed.

(** The completion loop rewrites the live rows that are absent from
    the feed, and no other row. *)
Lemma checkFinished_lookup up feed w i :
  wf w →
  matches (checkFinishedMatchesV2 cfg up feed w) !! i
  = (λ m, if bool_decide (status m = live ∧ i ∉ lm_id <$> feed)
          then finish cfg up m else m) <$> matches w !! i.
Proof.
  intros Hwf. rewrite checkFinished_unfold.
  pose proof (NoDup_snapshot w _ Hwf (getLiveMatches_rows w)) as Hnd.
  pose proof (snapshot_current w _ Hwf (getLiveMatches_rows w)) as Hsnap.
  destruct (matches w !! i) as [m|] eqn:Hm.
  - destruct (Hwf _ _ Hm) as [Hkey _]. cbn.
    destruct (decide (status m = live)) as [Hlive|Hfin].
    + assert (m ∈ getLiveMatches w) as Hin.
      { apply list_elem_of_filter. split; [done|].
        apply elem_of_rows_wf; [done|]. by rewrite Hkey. }
      rewrite <- Hkey at 1.
      rewrite (loop_lookup_in cfg _ _ _
                 (finishIfAbsent_eq cfg up (lm_id <$> feed)) _ w m Hnd
                 Hsnap Hin).
      rewrite Hkey. f_equal.
      destruct (decide (i ∈ lm_id <$> feed)).
      * rewrite bool_decide_eq_true_2 by done.
        rewrite bool_decide_eq_false_2; [done|]. by intros [_ ?].
      * rewrite bool_decide_eq_false_2 by done.
        by rewrite bool_decide_eq_true_2.
    + rewrite (loop_lookup_out cfg _ _ _
                 (finishIfAbsent_eq cfg up (lm_id <$> feed)) _ w i Hnd
                 Hsnap).
      * rewrite Hm. f_equal. rewrite bool_decide_eq_false_2; [done|].
        by intros [? _].
      * intros (m2 & Hi & Hm2)%list_elem_of_fmap.
        apply list_elem_of_filter in Hm2 as [Hlive Hrow].
        apply elem_of_rows_wf in Hrow; [|done]. congruence.
  - cbn. rewrite (loop_lookup_out cfg _ _ _
               (finishIfAbsent_eq cfg up (lm_id <$> feed)) _ w i Hnd Hsnap);
      [done|].
    intros (m2 & Hi & Hm2)%list_elem_of_fmap.
    apply list_elem_of_filter in Hm2 as [Hlive Hrow].
    apply elem_of_rows_wf in Hrow; [|done]. congruence.
Qed.

Lemma wf_checkFinished up feed w :
  wf w → wf (checkFinishedMatchesV2 cfg up feed w).
Proof.
  intros Hwf.
  by destruct (checkFinished_tracks cfg settles (λ _, True) "" up feed
                 (settles_finish cfg up) w Hwf) as [? _].
Qed.

Lemma finish_status up m : status (finish cfg up m) = finished.
Proof. unfold finish, finished_row. by case_match. Qed.

(** The retention pass only takes finished rows away. *)
Lemma enforce_lookup w i :
  wf w →
  matches (enforceMatchLimit cfg w) !! i
  = if decide (i ∈ evicted cfg w) then None else matches w !! i.
Proof. intros _. rewrite enforceMatchLimit_eq. cbn. apply lookup_evict. Qed.

Lemma evicted_finished w i :
  wf w → i ∈ evicted cfg w →
  ∃ m, matches w !! i = Some m ∧ status m = finished.
Proof.
  intros Hwf. unfold evicted. case_bool_decide; [by intros ?%elem_of_nil|].
  intros Hi. destruct (elem_of_oldestFinished _ _ _ Hwf Hi)
    as (m & Hm & Hst & _). eauto.
Qed.

(** X9.  After a poll cycle every row that is still live belongs to
    a match of the feed the cycle was given: whatever was live and is no
    longer fed has been finished. *)
Theorem live_rows_are_fed (up : Upstream) (feed : list LiveMatch)
    (w : World) (i : string) (m : Match) :
  wf w →
  getMatch i (poll cfg parseFloat up feed w) = Some m →
  status m = live →
  i ∈ lm_id <$> feed.
Proof.
  intros Hwf Hm Hlive. unfold getMatch, poll in Hm.
  set (w1 := foldl _ w feed) in Hm.
  assert (wf w1) as Hwf1 by (by apply wf_processes).
  pose proof (wf_checkFinished up feed w1 Hwf1) as Hwf2.
  rewrite (enforce_lookup _ _ Hwf2) in Hm. case_decide; [done|].
  rewrite (checkFinished_lookup up feed w1 i Hwf1) in Hm.
  destruct (matches w1 !! i) as [m1|]; [|done]. cbn in Hm.
  injection Hm as <-. case_bool_decide as Hc.
  - by rewrite finish_status in Hlive.
  - destruct (decide (i ∈ lm_id <$> feed)); [done|].
    exfalso. apply Hc. by split.
Qed.

Lemma seen_columns up mt w m' :
  seen cfg up mt w m' →
  current_score m' = Some (score mt)
  ∧ (∀ g, resolveGoalLine up mt = Some g →
       current_goal_line m' = Some (handicap g))
  ∧ (matches w !! lm_id mt = None →
     status m' = live ∧ (next_id w ≤ id m')%nat)
  ∧ (∀ m0, matches w !! lm_id mt = Some m0 →
       status m' = status m0 ∧ id m' = id m0).
Proof.
  intros [(m & Hm & ->)|(Hm & r & Hr & ->)].
  - split_and!.
    + unfold observe. by repeat case_match.
    + intros g ->. unfold observe. by repeat case_match.
    + congruence.
    + intros m0 Hm0. rewrite Hm in Hm0. injection Hm0 as <-.
      split; [|apply observe_id].
      unfold observe. by repeat case_match.
  - split_and!; [done| |done|congruence].
    by intros g ->.
Qed.

End PollFeed.

Section PollClaims.
Import Tracker RowView PollView.

Lemma live_rows_are_fed_witness :
  "m1"%string ∈ lm_id <$> [Examples.mt0].
Proof.
  destruct (getMatch "m1" Examples.w_seen) as [m|] eqn:Hm;
    [|vm_compute in Hm; discriminate].
  apply (live_rows_are_fed Examples.cfg0 Examples.pf0 Examples.up_none
           [Examples.mt0] empty_world "m1" m).
  - refine (bool_decide_unpack _ _). vm_compute. exact I.
  - exact Hm.
  - vm_compute in Hm. by injection Hm as <-.
Defined.

(** X10.  After a poll cycle on a feed without repeated ids, the row
    of a fed match carries the score of the feed and, when a goal line
    was resolved, that goal line as current goal line; a match that had
    no row has a live row with a fresh rowid, and a match whose row was
    live still has that row, live. *)
Theorem fed_match_is_recorded (cfg : Config.t)
    (parseFloat : string → option number) (up : Upstream)
    (feed : list LiveMatch) (w : World) (mt : LiveMatch) :
  wf w → NoDup (lm_id <$> feed) → mt ∈ feed →
  let w' := poll cfg parseFloat up feed w in
  (∀ m, getMatch (lm_id mt) w' = Some m →
     current_score m = Some (score mt)
     ∧ ∀ g, resolveGoalLine up mt = Some g →
            current_goal_line m = Some (handicap g))
  ∧ (getMatch (lm_id mt) w = None →
     ∃ m, getMatch (lm_id mt) w' = Some m ∧ status m = live
          ∧ (next_id w ≤ id m)%nat)
  ∧ (∀ m0, getMatch (lm_id mt) w = Some m0 → status m0 = live →
     ∃ m, getMatch (lm_id mt) w' = Some m ∧ status m = live
          ∧ id m = id m0).
Proof.
  intros Hwf Hnd Hin w'. unfold w', getMatch, poll.
  set (w1 := foldl _ w feed).
  assert (wf w1) as Hwf1 by (by apply wf_processes).
  pose proof (wf_checkFinished cfg up feed w1 Hwf1) as Hwf2.
  destruct (processes_seen cfg parseFloat up feed w mt Hwf Hnd Hin)
    as (m1 & Hm1 & Hseen). fold w1 in Hm1.
  destruct (seen_columns cfg up mt w m1 Hseen) as (Hsc & Hgl & Hnew & Hold).
  assert (matches (checkFinishedMatchesV2 cfg up feed w1) !! lm_id mt
          = Some m1) as Hm2.
  { rewrite (checkFinished_lookup cfg up feed w1 _ Hwf1), Hm1. cbn.
    rewrite bool_decide_eq_false_2; [done|]. intros [_ Hne].
    apply Hne. by apply list_elem_of_fmap_2. }
  assert (status m1 = live →
          matches (enforceMatchLimit cfg
                     (checkFinishedMatchesV2 cfg up feed w1)) !! lm_id mt
          = Some m1) as Hkeep.
  { intros Hlive. rewrite (enforce_lookup cfg _ _ Hwf2).
    case_decide as Hev; [|done].
    destruct (evicted_finished cfg _ _ Hwf2 Hev) as (m2 & Hm2' & Hfin).
    congruence. }
  split_and!.
  - intros m. rewrite (enforce_lookup cfg _ _ Hwf2).
    case_decide; [done|]. rewrite Hm2. by intros [= <-].
  - intros Hnone. destruct (Hnew Hnone) as [Hlive Hid].
    exists m1. by rewrite (Hkeep Hlive).
  - intros m0 Hm0 Hlive. destruct (Hold m0 Hm0) as [Hst Hid].
    exists m1. rewrite Hkeep by congruence. split_and!; congruence.
Qed.

Lemma fed_match_is_recorded_witness :
  ∃ m, getMatch "m1" Examples.w_touched = Some m
       ∧ current_score m = Some "0-0"%string
       ∧ current_goal_line m = Some (Q2Qc 1.5).
Proof.
  destruct (getMatch "m1" Examples.w_touched) as [m|] eqn:Hm;
    [|vm_compute in Hm; discriminate].
  exists m. split; [done|].
  destruct (fed_match_is_recorded Examples.cfg0 Examples.pf0
              (Examples.up_line (Q2Qc 1.5)) [Examples.mt0] empty_world
              Examples.mt0) as (Hrow & _).
  - refine (bool_decide_unpack _ _). vm_compute. exact I.
  - apply NoDup_singleton.
  - apply list_elem_of_singleton. reflexivity.
  - destruct (Hrow m Hm) as [Hsc Hgl]. split; [exact Hsc|].
    by apply (Hgl (mkGoalLine (Q2Qc 1.5) "1.90" "1.95" "0-0")).
Defined.

End PollClaims.

(* ------------------------------------------------------------------ *)
(** ** The tracker without a configured gateway *)

Section Unconfigured.
Import Tracker RowView Silence.

Variable cfg : Config.t.
Variable parseFloat : string → option number.

Hypothesis off : Telegram.accepts cfg = false.

Global Instance unflagged_order : RowOrder unflagged flagless.
Proof.
  split; unfold unflagged, flagless.
  - by intros m.
  - intros m1 m2 m3 (? & ? & ?) (? & ? & ?). split_and!; congruence.
  - by intros m m' (? & _).
  - intros m m' [? ?] (_ & ? & ?). split; congruence.
Qed.

Lemma unflagged_observe mt g m : unflagged m (observe cfg mt g m).
Proof.
  unfold unflagged, observe. rewrite off.
  destruct g; by repeat case_match.
Qed.

Lemma flagless_created up mt g r : flagless (created cfg up mt g r).
Proof. unfold flagless, created. cbn. by rewrite off, andb_false_r. Qed.

Lemma unflagged_finish up m : unflagged m (finish cfg up m).
Proof. unfold unflagged, finish. by rewrite off, andb_false_r. Qed.

Lemma silent_observe mt g m : observe_alerts cfg mt g m = [].
Proof.
  unfold observe_alerts. destruct g; [|done].
  by rewrite off, andb_false_r.
Qed.

Lemma silent_created up mt g r : created_alerts cfg up mt g r = [].
Proof.
  unfold created_alerts. destruct g; [|done].
  by rewrite off, andb_false_r.
Qed.

Lemma silent_finish up m : finish_alerts cfg up m = [].
Proof. unfold finish_alerts. by rewrite off, andb_false_r. Qed.

Lemma silent_process up mt w :
  wf w →
  telegram (processMatchWithGoalLine cfg parseFloat up mt w) = telegram w.
Proof.
  intros Hwf. destruct (matches w !! lm_id mt) as [m|] eqn:Hm.
  - destruct (Hwf _ _ Hm) as [Hkey _].
    rewrite (process_existing cfg parseFloat up mt w m Hm Hkey).
    cbn [telegram]. by rewrite silent_observe, push_nil.
  - rewrite (process_new cfg parseFloat up mt w Hm).
    cbn [telegram]. by rewrite silent_created, push_nil.
Qed.

Lemma silent_poll up feed w :
  wf w → telegram (poll cfg parseFloat up feed w) = telegram w.
Proof.
  intros Hwf. unfold poll. rewrite enforceMatchLimit_eq. cbn [telegram].
  assert (∀ l w0, wf w0 →
            wf (foldl (λ w mt, processMatchWithGoalLine cfg parseFloat
                                 up mt w) w0 l)
            ∧ telegram (foldl (λ w mt, processMatchWithGoalLine cfg
                                         parseFloat up mt w) w0 l)
              = telegram w0) as Hloop.
  { induction l as [|mt l IH]; intros w0 Hwf0; [done|]. cbn [foldl].
    destruct (IH _ (wf_process cfg parseFloat up mt w0 Hwf0)) as [? ->].
    split; [done|]. by apply silent_process. }
  destruct (Hloop feed w Hwf) as [Hwf1 <-].
  rewrite checkFinished_unfold.
  apply (snapshot_fold (λ w', telegram w' = telegram _)); try done.
  - eapply NoDup_snapshot; [done|apply getLiveMatches_rows].
  - eapply snapshot_current; [done|apply getLiveMatches_rows].
  - intros w' m j Hm Hj. rewrite (finishIfAbsent_eq cfg up _ w' m Hm).
    cbn [matches]. by rewrite lookup_insert_ne.
  - intros w' m _ Hm <-. rewrite (finishIfAbsent_eq cfg up _ w' m Hm).
    cbn [telegram]. rewrite silent_finish.
    case_bool_decide; apply push_nil.
Qed.

Lemma silent_step op w :
  wf w →
  telegram (step cfg parseFloat op w) = telegram w
  ∧ ∀ i, tracks unflagged flagless i w (step cfg parseFloat op w).
Proof.
  intros Hwf. destruct op as [up feed|up|up]; cbn [step].
  - split; [by apply silent_poll|]. intros i.
    apply poll_tracks; [apply _| | | |done].
    + intros mt m _ _. apply unflagged_observe.
    + intros mt rowid _ _. apply flagless_created.
    + intros m. apply unflagged_finish.
  - split.
    + unfold backfillMissingScores.
      rewrite (queue_loop cfg (λ w m, backfillScore up m w) _ _
                 (backfillScore_eq cfg up)); [done| |].
      * eapply NoDup_snapshot; [done|apply backfillScores_rows].
      * eapply snapshot_current; [done|apply backfillScores_rows].
    + intros i. apply (backfillScores_tracks cfg); [apply _| |done].
      intros m. unfold unflagged, backfilled_score. by repeat case_match.
  - split.
    + unfold backfillMissingGoalLines.
      rewrite (queue_loop cfg (λ w m, backfillGoalLine up m w) _ _
                 (backfillGoalLine_eq cfg up)); [done| |].
      * eapply NoDup_snapshot; [done|apply backfillGoalLines_rows].
      * eapply snapshot_current; [done|apply backfillGoalLines_rows].
    + intros i. apply (backfillGoalLines_tracks cfg); [apply _| |done].
      intros m. unfold unflagged, backfilled_line. by repeat case_match.
Qed.

Lemma silent_steps ops : ∀ w,
  wf w →
  telegram (steps cfg parseFloat ops w) = telegram w
  ∧ ∀ i, tracks unflagged flagless i w (steps cfg parseFloat ops w).
Proof.
  induction ops as [|op ops IH]; intros w Hwf.
  - split; [done|]. intros i. by apply tracks_refl; [apply _|].
  - unfold steps. cbn [foldl].
    destruct (silent_step op w Hwf) as [Htg Htr].
    assert (wf (step cfg parseFloat op w)) as Hwf'
      by (by destruct (Htr ""%string)).
    destruct (IH _ Hwf') as [Htg' Htr'].
    split; [unfold steps in Htg'; congruence|].
    intros i. eapply tracks_trans; [apply _|apply Htr|apply Htr'].
Qed.

End Unconfigured.

Section UnconfiguredClaims.
Import Tracker RowView Silence.

(** X11.  While the bot token or the chat id is missing, the tracker
    hands nothing to the notification queue and records no alert as
    sent, whatever it polls or backfills: the rows that were there keep
    their two alert flags and the rows it creates have neither. *)
Theorem unconfigured_gateway_records_nothing (cfg : Config.t)
    (parseFloat : string → option number) (ops : list Op) (w : World) :
  Telegram.accepts cfg = false → wf w →
  telegram (steps cfg parseFloat ops w) = telegram w
  ∧ ∀ i m', getMatch i (steps cfg parseFloat ops w) = Some m' →
      (∃ m, getMatch i w = Some m
            ∧ id m' = id m
            ∧ alert_sent m' = alert_sent m
            ∧ result_alert_sent m' = result_alert_sent m)
      ∨ ((next_id w ≤ id m')%nat
         ∧ alert_sent m' = false ∧ result_alert_sent m' = false).
Proof.
  intros Hoff Hwf.
  destruct (silent_steps cfg parseFloat Hoff ops w Hwf) as [Htg Htr].
  split; [done|]. intros i m' Hm'.
  destruct (Htr i) as (_ & _ & Hev).
  destruct (Hev m' Hm') as [(m & Hm & Hu)|[Hn [Ha Hr]]].
  - left. by exists m.
  - by right.
Qed.

Lemma unconfigured_gateway_records_nothing_witness :
  telegram (steps cfg_off Examples.pf0 Examples.seen_twice_gone_twice
              empty_world) = telegram empty_world.
Proof.
  apply (unconfigured_gateway_records_nothing cfg_off Examples.pf0
           Examples.seen_twice_gone_twice empty_world).
  - reflexivity.
  - refine (bool_decide_unpack _ _). vm_compute. exact I.
Defined.

End UnconfiguredClaims.

(* ------------------------------------------------------------------ *)
(** ** The rolling limit when finished rows run short *)

Section ShortOfFinished.
Import Tracker RowView.

Lemma oldestFinished_all limit w :
  (length (finishedRows w) ≤ Z.to_nat limit)%nat →
  ∀ i, i ∈ oldestFinished limit w
       ↔ ∃ m, m ∈ finishedRows w ∧ match_id m = i.
Proof.
  intros Hlen i. rewrite oldestFinished_unfold.
  rewrite take_ge by (by rewrite merge_sort_Permutation).
  rewrite list_elem_of_fmap. setoid_rewrite merge_sort_Permutation.
  split; intros (m & ? & ?); by exists m.
Qed.

(** X12.  When the table is over the limit by more rows than there
    are finished ones, the retention pass removes every finished row
    and no other: the live rows stay as they are, only live rows are
    left, and the table stays above the limit. *)
Theorem enforceMatchLimit_short_of_finished (cfg : Config.t) (w : World) :
  wf w →
  Z.of_nat (length (finishedRows w))
  < Z.of_nat (size (matches w)) - Config.maxMatches cfg →
  let w' := enforceMatchLimit cfg w in
  (∀ i m, getMatch i w = Some m → status m = live → getMatch i w' = Some m)
  ∧ (∀ i m, getMatch i w' = Some m →
       status m = live ∧ getMatch i w = Some m)
  ∧ (size (matches w') + length (finishedRows w) = size (matches w))%nat
  ∧ Config.maxMatches cfg < Z.of_nat (size (matches w')).
Proof.
  intros Hwf Hshort w'.
  assert (evicted cfg w
          = oldestFinished (Z.of_nat (size (matches w))
                            - Config.maxMatches cfg) w) as Hev.
  { unfold evicted. rewrite bool_decide_eq_false_2; [done|]. lia. }
  assert (∀ i, i ∈ evicted cfg w
               ↔ ∃ m, m ∈ finishedRows w ∧ match_id m = i) as Hin.
  { intros i. rewrite Hev. apply oldestFinished_all. lia. }
  assert (∀ i, getMatch i w'
               = if decide (i ∈ evicted cfg w) then None else getMatch i w)
    as Hlook.
  { intros i. unfold w', getMatch. rewrite enforceMatchLimit_eq.
    cbn [matches]. apply lookup_evict. }
  assert (size (matches w') + length (finishedRows w)
          = size (matches w))%nat as Hsize.
  { unfold w'. rewrite enforceMatchLimit_eq. cbn [matches].
    assert (length (evicted cfg w) = length (finishedRows w)) as Hlen.
    { rewrite Hev, length_oldestFinished. lia. }
    rewrite <- Hlen. apply size_evict.
    - rewrite Hev. by apply NoDup_oldestFinished.
    - intros i (m & Hm & <-)%Hin.
      apply list_elem_of_filter in Hm as [_ Hm].
      apply elem_of_rows_wf in Hm; [|done]. by rewrite Hm. }
  split_and!; [| |done|lia].
  - intros i m Hm Hlive. rewrite Hlook. case_decide as Hi; [|done].
    apply Hin in Hi as (m' & Hm' & <-).
    apply list_elem_of_filter in Hm' as [Hfin Hm'].
    apply elem_of_rows_wf in Hm'; [|done].
    unfold getMatch in Hm. congruence.
  - intros i m. rewrite Hlook. case_decide as Hi; [done|].
    intros Hm. split; [|done].
    destruct (status m) eqn:Hst; [done|]. exfalso. apply Hi, Hin.
    exists m. destruct (Hwf _ _ Hm) as [Hkey _]. split; [|done].
    apply list_elem_of_filter. split; [done|].
    apply elem_of_rows_wf; [done|]. by rewrite Hkey.
Qed.

Lemma enforceMatchLimit_short_of_finished_witness :
  Config.maxMatches Examples.cfg2
  < Z.of_nat (size (matches (enforceMatchLimit Examples.cfg2
                               Examples.w_three))).
Proof.
  apply (enforceMatchLimit_short_of_finished Examples.cfg2
           Examples.w_three).
  - refine (bool_decide_unpack _ _). vm_compute. exact I.
  - vm_compute. reflexivity.
Defined.

End ShortOfFinished.

(* ------------------------------------------------------------------ *)
(** ** The backfill passes and their reports *)

Section BackfillRuns.
Import Tracker RowView Backfill.

Lemma backfillScoreCounted_world up st m :
  sr_world (backfillScoreCounted up st m)
  = backfillScore up m (sr_world st).
Proof.
  unfold backfillScoreCounted, backfillScore.
  by repeat case_match.
Qed.

Lemma backfillScoreCounted_counts up st m :
  let st' := backfillScoreCounted up st m in
  (sr_updated st'
   = sr_updated st
     + match scoreFromLookup up m with Some _ => 1 | None => 0 end)%nat
  ∧ (sr_updated st' + sr_failed st'
     = S (sr_updated st + sr_failed st))%nat
  ∧ length (sr_details st') = S (length (sr_details st)).
Proof.
  unfold backfillScoreCounted, scoreFromLookup.
  repeat case_match; cbn; rewrite ?length_app; cbn; split_and!; lia.
Qed.

Lemma scoreRun_fold up l : ∀ st,
  let st' := foldl (backfillScoreCounted up) st l in
  sr_world st' = foldl (λ w m, backfillScore up m w) (sr_world st) l
  ∧ (sr_updated st'
     = sr_updated st
       + length (filter (λ m, is_Some (scoreFromLookup up m)) l))%nat
  ∧ (sr_updated st' + sr_failed st'
     = sr_updated st + sr_failed st + length l)%nat
  ∧ length (sr_details st') = (length (sr_details st) + length l)%nat.
Proof.
  induction l as [|m l IH]; intros st; cbn [foldl].
  - cbn. split_and!; [done|lia..].
  - destruct (IH (backfillScoreCounted up st m)) as (Hw & Hu & Hs & Hd).
    destruct (backfillScoreCounted_counts up st m) as (Hu1 & Hs1 & Hd1).
    cbn zeta in *. split_and!.
    + by rewrite Hw, backfillScoreCounted_world.
    + rewrite Hu, Hu1, filter_cons.
      destruct (scoreFromLookup up m); case_decide as Hdec; cbn; try lia.
      * exfalso. apply Hdec. by eexists.
      * by destruct Hdec.
    + cbn [length]. lia.
    + rewrite Hd, Hd1. cbn [length]. lia.
Qed.



(** A loop over a snapshot whose body rewrites the row it was given
    touches neither the history nor the queue. *)
Lemma loop_tables cfg (body : World → Match → World) (F : Match → Match)
    l w :
  (∀ w m, matches w !! match_id m = Some m →
     body w m = mkWorld (<[match_id m := F m]> (matches w)) (next_id w)
                  (odds_history w) (push cfg [] (telegram w))) →
  NoDup (match_id <$> l) →
  (∀ m, m ∈ l → matches w !! match_id m = Some m) →
  odds_history (foldl body w l) = odds_history w
  ∧ telegram (foldl body w l) = telegram w
  ∧ next_id (foldl body w l) = next_id w.
Proof.
  intros Hbody Hnd Hsnap.
  apply (snapshot_fold
           (λ w', odds_history w' = odds_history w
                  ∧ telegram w' = telegram w
                  ∧ next_id w' = next_id w) body l w); try done.
  - intros w' m j Hm Hj. rewrite (Hbody w' m Hm). cbn [matches].
    by rewrite lookup_insert_ne.
  - intros w' m _ Hm (<- & <- & <-). rewrite (Hbody w' m Hm).
    cbn. by rewrite push_nil.
Qed.

Lemma backfilled_score_lookup up m :
  backfilled_score up m
  = match scoreFromLookup up m with
    | Some (home, away) =>
        set_final_score home away
          (default ""%string
             (default None
                (getMatchResult up (default ""%string (bet365_id m)))))
          m
    | None => m
    end.
Proof.
  unfold backfilled_score, scoreFromLookup. by repeat case_match.
Qed.

Global Instance by_rowid_trans : Transitive by_rowid.
Proof. unfold by_rowid. intros a b c. lia. Qed.

Global Instance by_rowid_total : Total by_rowid.
Proof. unfold by_rowid. intros a b. lia. Qed.



End BackfillRuns.

Section BackfillClaims.
Import Tracker RowView Backfill.

(** X13.  One pass of the score backfill takes the finished rows with
    a missing final score; it reports each of them once, as updated or
    as failed; a row is updated exactly when the remote lookup gives a
    score with two numbers, and then holds these as final score; every
    other row, the history and the queue are left alone, and no row
    changes status. *)
Theorem backfillMissingScores_reports (up : Upstream) (w : World) :
  wf w →
  let res := backfillMissingScoresReport up w in
  let sel :=
    filter (λ m, status m = finished
                 ∧ (final_score_home m = None ∨ final_score_away m = None))
      (rows w) in
  res.1 = backfillMissingScores up w
  ∧ processed res.2 = length sel
  ∧ processed res.2 = (updated res.2 + failed res.2)%nat
  ∧ length (details res.2) = processed res.2
  ∧ updated res.2
    = length (filter (λ m, is_Some (scoreFromLookup up m)) sel)
  ∧ (∀ m, m ∈ sel →
       ∃ m', getMatch (match_id m) res.1 = Some m'
             ∧ status m' = finished
             ∧ match scoreFromLookup up m with
               | Some (home, away) =>
                   final_score_home m' = Some home
                   ∧ final_score_away m' = Some away
               | None => m' = m
               end)
  ∧ (∀ i, i ∉ match_id <$> sel → getMatch i res.1 = getMatch i w)
  ∧ odds_history res.1 = odds_history w
  ∧ telegram res.1 = telegram w.
Proof.
  intros Hwf res sel. subst res.
  unfold backfillMissingScoresReport.
  cbn [fst snd processed updated failed details]. fold sel.
  pose proof (scoreRun_fold up sel (mkScoreRun w 0 0 []))
    as (Hw & Hu & Hs & Hd).
  cbn zeta in *. cbn [sr_world sr_updated sr_failed sr_details] in *.
  pose proof Hw as Hres. rewrite Hw.
  pose proof (NoDup_snapshot w _ Hwf (backfillScores_rows w)) as Hnd.
  pose proof (snapshot_current w _ Hwf (backfillScores_rows w)) as Hsnap.
  pose proof (backfillScore_eq Examples.cfg0 up) as Hbody.
  fold sel in Hnd, Hsnap.
  assert (foldl (λ w m, backfillScore up m w) w sel
          = backfillMissingScores up w) as Hfirst by done.
  assert (∀ m, m ∈ sel → status m = finished) as Hfin
    by (by intros m [[? _] _]%list_elem_of_filter).
  clearbody sel.
  split_and!.
  - done.
  - done.
  - lia.
  - rewrite Hd. cbn [length]. lia.
  - rewrite Hu. lia.
  - intros m Hm. unfold getMatch.
    rewrite (loop_lookup_in Examples.cfg0 _ _ _ Hbody _ w m Hnd Hsnap Hm).
    eexists. split; [done|].
    pose proof (Hfin m Hm) as Hst.
    rewrite backfilled_score_lookup.
    destruct (scoreFromLookup up m) as [[home away]|]; by split.
  - intros i Hi. unfold getMatch.
    by rewrite (loop_lookup_out Examples.cfg0 _ _ _ Hbody _ w i Hnd Hsnap).
  - idtac.
    by destruct (loop_tables Examples.cfg0 _ _ _ w Hbody Hnd Hsnap)
      as (? & _).
  - idtac.
    by destruct (loop_tables Examples.cfg0 _ _ _ w Hbody Hnd Hsnap)
      as (_ & ? & _).
Qed.

Lemma backfillMissingScores_reports_witness :
  let res := backfillMissingScoresReport Examples.up_none
               Examples.w_half_finished in
  processed res.2 = (updated res.2 + failed res.2)%nat.
Proof.
  apply (backfillMissingScores_reports Examples.up_none
           Examples.w_half_finished).
  refine (bool_decide_unpack _ _). vm_compute. exact I.
Defined.



End BackfillClaims.

(* ------------------------------------------------------------------ *)
(** ** Starting and stopping *)

Section LifecycleProps.
Import Lifecycle.

Lemma calls_invariant cs : ∀ s,
  timers s = option_list (pollingInterval s) →
  (isRunning s = true ↔ pollingInterval s ≠ None) →
  let s' := calls cs s in
  timers s' = option_list (pollingInterval s')
  ∧ (isRunning s' = true ↔ pollingInterval s' ≠ None)
  ∧ initialPolls s' = (initialPolls s + effective (isRunning s) cs)%nat.
Proof.
  induction cs as [|c cs IH]; intros s Ht Hr.
  - cbn. split_and!; [done|done|lia].
  - unfold calls. cbn [foldl]. fold (calls cs (call s c)).
    destruct c; cbn [call effective].
    + unfold start. pose proof (IH s Ht Hr) as IHs.
      destruct (isRunning s) eqn:Hrun.
      * destruct IHs as (? & ? & Hp).
        cbn zeta in *. split_and!; [done|done|lia].
      * assert (pollingInterval s = None) as Hnone.
        { destruct (pollingInterval s) as [h|]; [|done].
          assert (false = true) as Habs by (by apply Hr). done. }
        rewrite Hnone in Ht. cbn in Ht. rewrite Ht. cbn [app].
        destruct (IH (mk true (Some (next_handle s)) [next_handle s]
                        (S (next_handle s)) (S (initialPolls s))))
          as (? & ? & Hp); [done|done|].
        cbn zeta in *. cbn [initialPolls isRunning] in Hp.
        split_and!; [done|done|lia].
    + unfold stop. destruct (pollingInterval s) as [h|] eqn:Hh.
      * cbn in Ht. rewrite Ht.
        destruct (IH (mk false None (filter (λ k, k ≠ h) [h])
                        (next_handle s) (initialPolls s)))
          as (? & ? & Hp).
        { cbn. by rewrite decide_False by (by intros ?). }
        { done. }
        cbn zeta in *. cbn [initialPolls isRunning] in Hp.
        split_and!; [done|done|lia].
      * destruct (IH (mk false None (timers s) (next_handle s)
                        (initialPolls s))) as (? & ? & Hp); [done|done|].
        cbn zeta in *. cbn [initialPolls isRunning] in Hp.
        split_and!; [done|done|lia].
Qed.

(** X15.  However the start and stop calls arrive, at most one
    polling timer is set, and one is set exactly while the service says
    it is running; a start on a running service changes nothing, a stop
    always leaves the service stopped with no timer, and [start] has
    launched one immediate poll for each start that found the service
    stopped. *)
Theorem at_most_one_polling_timer (cs : list Call) :
  let s := calls cs initial in
  (length (timers s) ≤ 1)%nat
  ∧ (isTrackerRunning s = true ↔ timers s ≠ [])
  ∧ start (start s) = start s
  ∧ isTrackerRunning (stop s) = false
  ∧ timers (stop s) = []
  ∧ initialPolls s = effective false cs.
Proof.
  destruct (calls_invariant cs initial) as (Ht & Hr & Hp); [done|done|].
  cbn zeta in *. set (s := calls cs initial) in *. clearbody s.
  unfold isTrackerRunning. split_and!.
  - rewrite Ht. destruct (pollingInterval s); cbn; lia.
  - rewrite Hr, Ht. destruct (pollingInterval s); cbn; split; congruence.
  - unfold start. destruct (isRunning s) eqn:Hrun; [by rewrite Hrun|done].
  - unfold stop. by destruct (pollingInterval s).
  - unfold stop. rewrite Ht. destruct (pollingInterval s) as [h|]; [|done].
    cbn. by rewrite decide_False by (by intros ?).
  - done.
Qed.

End LifecycleProps.

(* ------------------------------------------------------------------ *)
(** ** The feed client *)

Section FeedClient.
Import Tracker RowView BetsAPI.
Open Scope string_scope.
Open Scope Z_scope.




Lemma getCached_setCache {A} t t' key (d : A) cache :
  getCached t' key (setCache t key d cache)
  = if bool_decide (t' - t < cacheTTL) then Some d else None.
Proof. unfold getCached, setCache. by rewrite lookup_insert_eq. Qed.

(** X17.  A list the feed client has fetched is served again, without
    a request and without touching the cache, to every call made less
    than 10 seconds after it was stored; from 10 seconds on the client
    asks again.  A request that fails gives the empty list and stores
    nothing. *)
Theorem feed_is_served_from_cache (lc : Leagues)
    (results : option (list BetsAPIMatch))
    (response : option (option (list BetsAPIMatch)))
    (t_get t_set t t' : Z)
    (cache : gmap string (Entry (list LiveMatch))) :
  getCached t_get cacheKey cache = None →
  let first := getInplayFilterMatches lc (Some results) t_get t_set cache in
  first.1 = selectTargets lc (default [] results)
  ∧ (t - t_set < 10000 →
     getInplayFilterMatches lc response t t' first.2 = first)
  ∧ (10000 ≤ t - t_set →
     getInplayFilterMatches lc None t t' first.2 = ([], first.2))
  ∧ getInplayFilterMatches lc None t_get t_set cache = ([], cache).
Proof.
  intros Hmiss first. unfold first, getInplayFilterMatches.
  rewrite Hmiss. cbn [fst snd]. rewrite !getCached_setCache.
  unfold cacheTTL. split_and!; [done| | |done].
  - intros Hlt. by rewrite bool_decide_eq_true_2.
  - intros Hge. rewrite bool_decide_eq_false_2; [done|lia].
Qed.

Lemma feed_is_served_from_cache_witness :
  let lc := mkLeagues [37298] ∅ [] in
  let results :=
    Some [mkApiMatch "m1" None (Some "37298") None None None None] in
  getInplayFilterMatches lc None 5000 5001
    (getInplayFilterMatches lc (Some results) 0 1 ∅).2
  = getInplayFilterMatches lc (Some results) 0 1 ∅.
Proof.
  intros lc results.
  destruct (feed_is_served_from_cache lc results None 0 1 5000 5001 ∅)
    as (_ & Hserved & _).
  - reflexivity.
  - apply Hserved. lia.
Defined.

(** What a poll cycle on an empty feed leaves. *)
Lemma poll_empty_feed cfg parseFloat up w i m :
  wf w →
  getMatch i (poll cfg parseFloat up [] w) = Some m →
  ∃ m0, getMatch i w = Some m0
        ∧ m = (if bool_decide (status m0 = live) then finish cfg up m0
               else m0).
Proof.
  intros Hwf. unfold getMatch, poll. cbn [foldl].
  pose proof (wf_checkFinished cfg up [] w Hwf) as Hwf2.
  rewrite (enforce_lookup cfg _ _ Hwf2). case_decide; [done|].
  rewrite (checkFinished_lookup cfg up [] w i Hwf).
  destruct (matches w !! i) as [m0|]; [|done]. cbn. intros [= <-].
  exists m0. split; [done|].
  destruct (decide (status m0 = live)) as [Hl|Hl].
  - rewrite !bool_decide_eq_true_2; [done|done|].
    split; [done|]. by intros ?%elem_of_nil.
  - rewrite !bool_decide_eq_false_2; [done|done|]. by intros [? _].
Qed.

(** X18.  When the request for the feed fails and nothing fresh is
    cached, the client returns the empty list; the poll cycle that gets
    it takes every live match for absent: its completion step finishes
    each row that was live, and after the cycle every row of the
    database is finished. *)
Theorem failed_request_finishes_live_matches (cfg : Config.t)
    (parseFloat : string → option number) (up : Upstream) (lc : Leagues)
    (t_get t_set : Z) (cache : gmap string (Entry (list LiveMatch)))
    (w : World) :
  wf w →
  getCached t_get cacheKey cache = None →
  let liveMatches :=
    (getInplayFilterMatches lc None t_get t_set cache).1 in
  liveMatches = []
  ∧ (∀ i m, getMatch i (poll cfg parseFloat up liveMatches w) = Some m →
       status m = finished)
  ∧ (∀ i m0, getMatch i w = Some m0 → status m0 = live →
       getMatch i (checkFinishedMatchesV2 cfg up liveMatches w)
       = Some (finish cfg up m0)).
Proof.
  intros Hwf Hmiss liveMatches.
  assert (liveMatches = []) as ->.
  { unfold liveMatches, getInplayFilterMatches. by rewrite Hmiss. }
  split; [done|]. split.
  - intros i m Hm.
    destruct (poll_empty_feed cfg parseFloat up w i m Hwf Hm)
      as (m0 & _ & ->).
    case_bool_decide as Hl; [apply finish_status|].
    by destruct (status m0).
  - intros i m0 Hm0 Hlive. unfold getMatch in *.
    rewrite (checkFinished_lookup cfg up [] w i Hwf), Hm0. cbn.
    rewrite bool_decide_eq_true_2; [done|].
    split; [done|]. by intros ?%elem_of_nil.
Qed.

Lemma failed_request_finishes_live_matches_witness :
  (getInplayFilterMatches (mkLeagues [37298] ∅ []) None 0 1 ∅).1 = [].
Proof.
  destruct (failed_request_finishes_live_matches Examples.cfg0
              Examples.pf0 Examples.up_none (mkLeagues [37298] ∅ []) 0 1
              ∅ Examples.w_seen) as (Hempty & _).
  - refine (bool_decide_unpack _ _). vm_compute. exact I.
  - reflexivity.
  - exact Hempty.
Defined.

End FeedClient.

(* ------------------------------------------------------------------ *)
(** ** Listing the matches *)

Section Listing.
Import Tracker RowView Queries.

Global Instance newest_first_trans : Transitive newest_first.
Proof.
  intros a b c Hab Hbc. unfold newest_first in *.
  by apply (by_detection_time_trans c b a).
Qed.

Global Instance newest_first_total : Total newest_first.
Proof. intros a b. apply (by_detection_time_total b a). Qed.

Lemma length_listing o w : length (listing o w) = getMatchesCount o w.
Proof. unfold listing, getMatchesCount. by rewrite merge_sort_Permutation. Qed.

Lemma elem_of_listing o w m :
  m ∈ listing o w ↔ selected o m ∧ m ∈ rows w.
Proof.
  unfold listing. rewrite merge_sort_Permutation.
  apply list_elem_of_filter.
Qed.

Lemma sorted_listing o w : StronglySorted newest_first (listing o w).
Proof. apply StronglySorted_merge_sort; apply _. Qed.

Lemma sorted_window {A} (R : relation A) n k (l : list A) :
  StronglySorted R l → StronglySorted R (take n (drop k l)).
Proof.
  intros Hl. rewrite <- (take_drop k l) in Hl.
  apply StronglySorted_app_1_r in Hl.
  rewrite <- (take_drop n (drop k l)) in Hl.
  by apply StronglySorted_app_1_l in Hl.
Qed.

(** X19.  With a positive limit and an offset that is not negative,
    [getAllMatches] returns the window of the listing that starts after
    [offset] rows and holds [limit] rows, or as many as are left: all of
    them match the filter, newest first; and the total the history
    route reports beside the page, [getMatchesCount], is the length of
    the whole listing. *)
Theorem getAllMatches_pages (o : ListOptions) (w : World)
    (limit offset : Z) :
  o_limit o = Some limit → 0 < limit →
  o_offset o = Some offset → 0 ≤ offset →
  ∃ page,
    getAllMatches o w = Some page
    ∧ page = take (Z.to_nat limit) (drop (Z.to_nat offset) (listing o w))
    ∧ length page
      = (Z.to_nat limit `min` (getMatchesCount o w - Z.to_nat offset))%nat
    ∧ StronglySorted newest_first page
    ∧ (∀ m, m ∈ page → selected o m ∧ m ∈ rows w)
    ∧ getMatchesCount o w = length (listing o w).
Proof.
  intros Hlimit Hpos Hoffset Hnn.
  exists (take (Z.to_nat limit) (drop (Z.to_nat offset) (listing o w))).
  split_and!.
  - unfold getAllMatches, truthy_number, sql_limit, sql_offset.
    rewrite Hlimit, Hoffset.
    change (default 0 (Some limit)) with limit.
    change (default 0 (Some offset)) with offset.
    destruct (Z.eqb_spec limit 0) as [?|_]; [lia|]. cbn [negb].
    destruct (Z.ltb_spec limit 0) as [?|_]; [lia|].
    destruct (Z.eqb_spec offset 0) as [->|_]; cbn [negb]; reflexivity.
  - done.
  - by rewrite length_take, length_drop, length_listing.
  - apply sorted_window, sorted_listing.
  - intros m Hm. apply elem_of_listing.
    apply elem_of_take in Hm as (k & Hm & _).
    rewrite lookup_drop in Hm. by apply list_elem_of_lookup_2 in Hm.
  - by rewrite length_listing.
Qed.

Lemma getAllMatches_pages_witness :
  ∃ page,
    getAllMatches (mkOptions (Some "live"%string) None (Some 2) (Some 1))
      Examples.w_three = Some page
    ∧ length page = 2%nat.
Proof.
  destruct (getAllMatches_pages
              (mkOptions (Some "live"%string) None (Some 2) (Some 1))
              Examples.w_three 2 1) as (page & Hp & _ & Hlen & _).
  - reflexivity.
  - lia.
  - reflexivity.
  - lia.
  - exists page. split; [exact Hp|]. rewrite Hlen. vm_compute. reflexivity.
Defined.

(** X20.  A limit that is missing, not a number or zero is no limit:
    with an offset of zero or none the call returns every row that
    matches the filter, as many as [getMatchesCount] counts; with any
    other offset the statement it builds has an [OFFSET] without a
    [LIMIT] and the call throws.  A negative limit is no limit either,
    and then the offset is applied. *)
Theorem getAllMatches_unlimited (o : ListOptions) (w : World) :
  (truthy_number (o_limit o) = false →
   getAllMatches o w
   = (if truthy_number (o_offset o) then None else Some (listing o w))
   ∧ (truthy_number (o_offset o) = false →
      ∃ all, getAllMatches o w = Some all
             ∧ length all = getMatchesCount o w))
  ∧ (∀ limit, o_limit o = Some limit → limit < 0 →
       getAllMatches o w
       = Some (drop (Z.to_nat (default 0 (o_offset o))) (listing o w))).
Proof.
  split.
  - intros Hlimit. unfold getAllMatches. rewrite Hlimit. split; [done|].
    intros ->. exists (listing o w). split; [done|apply length_listing].
  - intros limit Hlimit Hneg. unfold getAllMatches, sql_limit, sql_offset.
    rewrite Hlimit. cbn [truthy_number].
    change (default 0 (Some limit)) with limit.
    destruct (Z.eqb_spec limit 0) as [?|_]; [lia|]. cbn [negb].
    destruct (Z.ltb_spec limit 0) as [_|?]; [|lia].
    destruct (o_offset o) as [off|]; cbn [truthy_number].
    + destruct (Z.eqb_spec off 0) as [->|_]; cbn [negb]; reflexivity.
    + reflexivity.
Qed.

Lemma getAllMatches_unlimited_witness :
  getAllMatches (mkOptions None None (Some 0) (Some 5)) Examples.w_three
  = None.
Proof.
  destruct (getAllMatches_unlimited
              (mkOptions None None (Some 0) (Some 5)) Examples.w_three)
    as [Hnone _].
  destruct (Hnone eq_refl) as [Heq _]. exact Heq.
Defined.

End Listing.

(* ------------------------------------------------------------------ *)
(** ** The constraints of the history table *)

Section HistoryConstraints.
Import Tracker RowView Queries.

Variable cfg : Config.t.
Variable parseFloat : string → option number.










End HistoryConstraints.

Section HistoryClaims.
Import Tracker RowView Queries.



End HistoryClaims.

(* ------------------------------------------------------------------ *)
(** ** The statistics *)

Section Statistics.
Import Tracker RowView Queries.

Lemma length_by_status (l : list Match) :
  length l
  = (length (filter (λ m, status m = live) l)
     + length (filter (λ m, status m = finished) l))%nat.
Proof.
  induction l as [|m l IH]; [done|]. rewrite !filter_cons.
  destruct (status m) eqn:Hst; repeat case_decide; try done;
    cbn [length]; lia.
Qed.

(** Building an object from one row per key. *)
Lemma lookup_grouped {V} (f : Z → V) ks : ∀ (acc : gmap Z V) k,
  foldl (λ acc (row : Z * V), <[row.1 := row.2]> acc) acc
    ((λ k, (k, f k)) <$> ks) !! k
  = if decide (k ∈ ks) then Some (f k) else acc !! k.
Proof.
  induction ks as [|k0 ks IH]; intros acc k; cbn [fmap list_fmap foldl].
  - by rewrite decide_False by (by intros ?%elem_of_nil).
  - rewrite IH. cbn [fst snd]. destruct (decide (k ∈ ks)) as [Hin|Hout].
    + rewrite decide_True; [done|by right].
    + destruct (decide (k = k0)) as [->|Hne].
      * rewrite lookup_insert_eq. rewrite decide_True; [done|by left].
      * rewrite lookup_insert_ne by done.
        rewrite decide_False; [done|].
        by intros [?|?]%elem_of_cons.
Qed.

Lemma elem_of_leagues w k : k ∈ leagues w ↔ inLeague k w ≠ [].
Proof.
  unfold leagues, inLeague. rewrite elem_of_remove_dups, list_elem_of_fmap.
  split.
  - intros (m & -> & Hm) Hnil.
    assert (m ∈ filter (λ m0, league_id m0 = league_id m) (rows w)) as Hin
      by (by apply list_elem_of_filter).
    rewrite Hnil in Hin. by apply elem_of_nil in Hin.
  - intros Hne. destruct (filter _ _) as [|m l] eqn:Hf; [done|].
    assert (m ∈ filter (λ m0, league_id m0 = k) (rows w)) as Hin
      by (rewrite Hf; left).
    apply list_elem_of_filter in Hin as [<- Hin]. by exists m.
Qed.

Lemma sum_indicator (a : Z) ks :
  NoDup ks → a ∈ ks →
  sum_list ((λ k, if decide (a = k) then 1 else 0)%nat <$> ks) = 1%nat.
Proof.
  induction 1 as [|k ks Hk Hnd IH]; [by intros ?%elem_of_nil|].
  cbn. intros [->|Hin]%elem_of_cons.
  - rewrite decide_True by done.
    assert (sum_list ((λ k0, if decide (k = k0) then 1 else 0)%nat <$> ks)
            = 0%nat) as ->; [|done].
    clear -Hk. induction ks as [|k1 ks IH]; [done|]. cbn.
    apply not_elem_of_cons in Hk as [Hne Hk].
    rewrite decide_False by done. by rewrite IH.
  - rewrite decide_False by (by intros ->). by rewrite IH.
Qed.

Lemma sum_groups (l : list Match) ks :
  NoDup ks → (∀ m, m ∈ l → league_id m ∈ ks) →
  sum_list ((λ k, length (filter (λ m, league_id m = k) l)) <$> ks)
  = length l.
Proof.
  intros Hnd. induction l as [|m l IH]; intros Hin.
  - cbn. clear. induction ks as [|k ks IH]; [done|]. cbn. by rewrite IH.
  - assert (sum_list
              ((λ k, length (filter (λ m0, league_id m0 = k) (m :: l)))
               <$> ks)
            = (sum_list ((λ k, if decide (league_id m = k) then 1 else 0)
                         <$> ks)
               + sum_list ((λ k, length (filter (λ m0, league_id m0 = k) l))
                           <$> ks))%nat) as ->.
    { clear. induction ks as [|k ks IH]; [done|]. rewrite !fmap_cons.
      cbn [sum_list_with]. rewrite IH, filter_cons.
      destruct (decide (league_id m = k)); cbn [length];
        unfold Datatypes.id; lia. }
    rewrite sum_indicator; [|done|apply Hin; left].
    rewrite IH; [done|]. intros m0 Hm0. apply Hin. by right.
Qed.

(** X22.  The figures of [getStats] agree with each other: the total
    is the number of live rows plus the number of finished ones, and
    also the sum of the per-league counts; a league has an entry exactly
    when it has rows, and the entry is their number; the entry of the
    second table has the same total, never more touched rows than rows,
    and its ratio is computed on a total that is not zero. *)
Theorem getStats_figures_agree (percent : nat → nat → number)
    (w : World) :
  let s := getStats percent w in
  totalMatches s = size (matches w)
  ∧ totalMatches s = (liveMatches s + finishedMatches s)%nat
  ∧ (touchedTargetTotal s ≤ totalMatches s)%nat
  ∧ sum_list ((λ k, length (inLeague k w)) <$> leagues w)
    = totalMatches s
  ∧ (∀ k, byLeague s !! k
          = if decide (inLeague k w = []) then None
            else Some (length (inLeague k w)))
  ∧ (∀ k, lt_total <$> touchedTargetByLeague s !! k = byLeague s !! k)
  ∧ (∀ k t, touchedTargetByLeague s !! k = Some t →
       (lt_touched t ≤ lt_total t)%nat
       ∧ (0 < lt_total t)%nat
       ∧ lt_touched t = length (touchedRows (inLeague k w))
       ∧ lt_ratio t = percent (lt_touched t) (lt_total t)).
Proof.
  intros s. unfold s, getStats.
  cbn [totalMatches liveMatches finishedMatches touchedTargetTotal
       byLeague touchedTargetByLeague].
  assert (∀ k, foldl (λ acc (row : Z * nat), <[row.1 := row.2]> acc)
                 (∅ : gmap Z nat)
                 ((λ k, (k, length (inLeague k w))) <$> leagues w) !! k
               = if decide (inLeague k w = []) then None
                 else Some (length (inLeague k w))) as Hby.
  { intros k. rewrite (lookup_grouped (λ k, length (inLeague k w))).
    rewrite lookup_empty.
    destruct (decide (k ∈ leagues w)) as [Hin|Hout].
    - apply elem_of_leagues in Hin. by rewrite decide_False.
    - case_decide; [done|]. exfalso. by apply Hout, elem_of_leagues. }
  set (entry k :=
         mkLeagueTouched (length (inLeague k w))
           (length (touchedRows (inLeague k w)))
           (if (0 <? length (inLeague k w))%nat
            then percent (length (touchedRows (inLeague k w)))
                   (length (inLeague k w))
            else Q2Qc 0)).
  assert (∀ k, foldl
                 (λ acc (row : Z * nat * nat),
                    let '(k, total, touched) := row in
                    <[k := mkLeagueTouched total touched
                             (if (0 <? total)%nat
                              then percent touched total else Q2Qc 0)]> acc)
                 (∅ : gmap Z LeagueTouched)
                 ((λ k, (k, length (inLeague k w),
                         length (touchedRows (inLeague k w))))
                  <$> leagues w) !! k
               = if decide (inLeague k w = []) then None
                 else Some (entry k)) as Htouched.
  { intros k.
    assert (∀ ks (acc : gmap Z LeagueTouched),
              foldl
                (λ acc (row : Z * nat * nat),
                   let '(k, total, touched) := row in
                   <[k := mkLeagueTouched total touched
                            (if (0 <? total)%nat
                             then percent touched total else Q2Qc 0)]> acc)
                acc
                ((λ k, (k, length (inLeague k w),
                        length (touchedRows (inLeague k w)))) <$> ks)
              = foldl (λ acc (row : Z * LeagueTouched),
                         <[row.1 := row.2]> acc) acc
                  ((λ k, (k, entry k)) <$> ks)) as ->.
    { induction ks as [|k0 ks IH]; intros acc; [done|].
      cbn [fmap list_fmap foldl]. by rewrite IH. }
    rewrite (lookup_grouped entry). rewrite lookup_empty.
    destruct (decide (k ∈ leagues w)) as [Hin|Hout].
    - apply elem_of_leagues in Hin. by rewrite decide_False.
    - case_decide; [done|]. exfalso. by apply Hout, elem_of_leagues. }
  split_and!.
  - apply length_rows.
  - apply length_by_status.
  - apply length_filter.
  - apply sum_groups; [apply NoDup_remove_dups|].
    intros m Hm. apply elem_of_remove_dups. by apply list_elem_of_fmap_2.
  - done.
  - intros k. rewrite Hby, Htouched. by case_decide.
  - intros k t. rewrite Htouched. case_decide as Hne; [done|].
    intros [= <-]. subst entry. cbn [lt_total lt_touched lt_ratio].
    assert (0 < length (inLeague k w))%nat as Hpos
      by (destruct (inLeague k w); [done|cbn; lia]).
    split_and!; [apply length_filter|done|done|].
    by apply Nat.ltb_lt in Hpos as ->.
Qed.

End Statistics.

(* ------------------------------------------------------------------ *)
(** ** Goal lines of a league *)

Section GoalLines.
Import Tracker RowView Queries.

Lemma map_get_set k v l g :
  map_get g (map_set k v l) = if decide (k = g) then Some v else map_get g l.
Proof.
  induction l as [|[k' v'] l IH]; cbn [map_set map_get].
  - by destruct (decide (k = g)).
  - destruct (decide (k' = k)) as [->|Hne]; cbn [map_get].
    + by destruct (decide (k = g)).
    + rewrite IH. destruct (decide (k' = g)) as [->|]; [|done].
      by rewrite decide_False.
Qed.

Lemma map_set_keys k v l :
  (map_set k v l).*1 = if decide (k ∈ l.*1) then l.*1 else l.*1 ++ [k].
Proof.
  induction l as [|[k' v'] l IH]; cbn [map_set].
  - by rewrite decide_False by (by intros ?%elem_of_nil).
  - destruct (decide (k' = k)) as [->|Hne]; cbn.
    + rewrite decide_True; [done|by left].
    + rewrite IH. destruct (decide (k ∈ l.*1)).
      * rewrite decide_True; [done|by right].
      * rewrite decide_False; [done|]. by intros [?|?]%elem_of_cons.
Qed.

Lemma map_set_NoDup k v l : NoDup l.*1 → NoDup (map_set k v l).*1.
Proof.
  intros Hnd. rewrite map_set_keys. case_decide as Hin; [done|].
  apply NoDup_app. split_and!; [done| |apply NoDup_singleton].
  intros x Hx ->%list_elem_of_singleton. done.
Qed.

Lemma map_get_elem g t l :
  NoDup l.*1 → (g, t) ∈ l ↔ map_get g l = Some t.
Proof.
  induction l as [|[k v] l IH]; cbn [map_get].
  - intros _. split; [by intros ?%elem_of_nil|done].
  - rewrite fmap_cons. cbn [fst]. intros [Hk Hnd]%NoDup_cons.
    rewrite elem_of_cons, (IH Hnd).
    destruct (decide (k = g)) as [->|Hne].
    + split.
      * intros [[= ->]|Hin]; [done|]. exfalso. apply Hk.
        apply (IH Hnd) in Hin. apply list_elem_of_fmap.
        by exists (g, t).
      * intros [= ->]. by left.
    + split; [|by right]. by intros [[= ? ?]|?].
Qed.

Lemma tally_spec rs :
  NoDup (foldl tallyRow [] rs).*1
  ∧ ∀ g, map_get g (foldl tallyRow [] rs)
         = if decide (offered g rs = []) then None
           else Some (mkTally (length (offered g rs))
                        (length (over g rs))).
Proof.
  induction rs as [|r rs [IHnd IH]] using rev_ind.
  - split; [apply NoDup_nil_2|done].
  - rewrite foldl_snoc. split; [by apply map_set_NoDup|].
    intros g. unfold tallyRow at 1. rewrite map_get_set.
    assert (offered g (rs ++ [r])
            = offered g rs
              ++ (if decide (or_handicap r = g) then [r] else [])) as ->.
    { unfold offered. rewrite filter_app, filter_cons, filter_nil.
      by destruct (decide (or_handicap r = g)). }
    assert (over g (rs ++ [r])
            = over g rs
              ++ (if decide (or_handicap r = g) then
                    if bool_decide
                         (g < Qc_of_Z (or_final_score_home r
                                       + or_final_score_away r))%Qc
                    then [r] else []
                  else [])) as ->.
    { unfold over, offered.
      rewrite filter_app, filter_cons, filter_nil.
      destruct (decide (or_handicap r = g)); rewrite filter_app.
      - rewrite filter_cons, filter_nil. by case_bool_decide; case_decide.
      - by rewrite filter_nil. }
    destruct (decide (or_handicap r = g)) as [Hg|Hg].
    + rewrite decide_False by (by intros [_ ?]%app_eq_nil).
      subst g. rewrite IH. rewrite !length_app. f_equal.
      case_bool_decide as Hov;
        case_decide as Hnil; cbn [default t_total t_hits length];
        unfold Datatypes.id; cbn [t_total t_hits].
      * rewrite Hnil.
        assert (over (or_handicap r) rs = []) as ->; [|done].
        unfold over. by rewrite Hnil.
      * f_equal; lia.
      * rewrite Hnil.
        assert (over (or_handicap r) rs = []) as ->; [|done].
        unfold over. by rewrite Hnil.
      * f_equal; lia.
    + rewrite IH. rewrite !app_nil_r. done.
Qed.

Lemma length_over g rs : (length (over g rs) ≤ length (offered g rs))%nat.
Proof. apply length_filter. Qed.

Lemma StronglySorted_strict (l : list GoalLineStat) :
  StronglySorted by_goalLine l → NoDup (gl_goalLine <$> l) →
  StronglySorted (λ a b, gl_goalLine a < gl_goalLine b)%Qc l.
Proof.
  induction 1 as [|a l Hs IH Hall]; [constructor|].
  rewrite fmap_cons. intros [Ha Hnd]%NoDup_cons. constructor; [by apply IH|].
  apply Forall_forall. intros b Hb.
  rewrite Forall_forall in Hall. specialize (Hall b Hb).
  unfold by_goalLine in Hall. apply Qcle_lt_or_eq in Hall as [?|Heq]; [done|].
  exfalso. apply Ha. rewrite Heq. by apply list_elem_of_fmap_2.
Qed.

Lemma elem_of_oddsRows k w row :
  row ∈ oddsRows k w ↔
  ∃ r m, r ∈ odds_history w ∧ getMatch (oh_match_id r) w = Some m
         ∧ scored k m
         ∧ oh_handicap r = Some (or_handicap row)
         ∧ or_match_id row = oh_match_id r
         ∧ final_score_home m = Some (or_final_score_home row)
         ∧ final_score_away m = Some (or_final_score_away row).
Proof.
  unfold oddsRows. rewrite elem_of_remove_dups, list_elem_of_omap.
  unfold joinedRow, scored. split.
  - intros (r & Hr & Hj). exists r.
    destruct (getMatch (oh_match_id r) w) as [m|]; [|done]. cbn in Hj.
    destruct (oh_handicap r) as [h|]; [|done]. cbn in Hj.
    destruct (final_score_home m) as [home|] eqn:Hh; [|done]. cbn in Hj.
    destruct (final_score_away m) as [away|] eqn:Ha; [|done]. cbn in Hj.
    case_decide as Hd; [|done]. injection Hj as <-. cbn.
    exists m. destruct Hd. by rewrite Hh, Ha.
  - intros (r & m & Hr & Hm & (Hl & Hst & _ & _) & Hh & Hid & Hhome & Haway).
    exists r. split; [done|]. rewrite Hm. cbn. rewrite Hh. cbn.
    rewrite Hhome, Haway. cbn. rewrite decide_True by done.
    destruct row; cbn in *. by subst.
Qed.

(** The rows of one goal line belong to different matches. *)
Lemma offered_ids_NoDup k w g :
  NoDup (or_match_id <$> offered g (oddsRows k w)).
Proof.
  apply NoDup_fmap_2_strong.
  - intros a b [Hga Ha]%list_elem_of_filter [Hgb Hb]%list_elem_of_filter Hid.
    apply elem_of_oddsRows in Ha
      as (ra & ma & _ & Hma & _ & _ & Hida & Hha & Haa).
    apply elem_of_oddsRows in Hb
      as (rb & mb & _ & Hmb & _ & _ & Hidb & Hhb & Hab).
    rewrite <- Hida in Hma. rewrite <- Hidb, <- Hid, Hma in Hmb.
    injection Hmb as <-. destruct a, b; cbn in *. subst.
    rewrite Hha in Hhb. rewrite Haa in Hab. congruence.
  - apply NoDup_filter, NoDup_remove_dups.
Qed.

Lemma offered_matches k w g :
  wf w →
  length (offered g (oddsRows k w))
  = length (filter (λ m, scored k m ∧ has_line g w m) (rows w)).
Proof.
  intros Hwf.
  rewrite <- (length_fmap or_match_id (offered g (oddsRows k w))).
  rewrite <- (length_fmap match_id (filter _ (rows w))).
  apply Permutation_length, NoDup_Permutation.
  - apply offered_ids_NoDup.
  - apply NoDup_fmap_2_strong; [|apply NoDup_filter].
    + intros a b [_ Ha]%list_elem_of_filter [_ Hb]%list_elem_of_filter Hid.
      apply (elem_of_rows_wf _ _ Hwf) in Ha, Hb. congruence.
    + eapply NoDup_fmap_1, NoDup_rows_match_id, Hwf.
  - intros i. rewrite !list_elem_of_fmap. split.
    + intros (row & -> & [Hg Hrow]%list_elem_of_filter).
      apply elem_of_oddsRows in Hrow
        as (r & m & Hr & Hm & Hsc & Hh & Hid & _).
      exists m. unfold getMatch in Hm.
      destruct (Hwf _ _ Hm) as [Hkey _].
      split; [congruence|]. apply list_elem_of_filter. split.
      * split; [done|]. apply Exists_exists. exists r.
        split_and!; [done|congruence|congruence].
      * apply elem_of_rows. eauto.
    + intros (m & -> & [[Hsc Hl] Hm]%list_elem_of_filter).
      apply Exists_exists in Hl as (r & Hr & Hid & Hh).
      apply (elem_of_rows_wf _ _ Hwf) in Hm.
      destruct Hsc as (Hlg & Hst & Hhome & Haway).
      destruct (final_score_home m) as [home|] eqn:Ehome; [|done].
      destruct (final_score_away m) as [away|] eqn:Eaway; [|done].
      exists (mkOddsRow (match_id m) g home away). split; [done|].
      apply list_elem_of_filter. split; [done|].
      apply elem_of_oddsRows. exists r, m. cbn.
      unfold getMatch. rewrite Hid.
      split_and!; try done. unfold scored. by rewrite Ehome, Eaway.
Qed.

Lemma toStat_goalLines hr ro (l : list (number * Tally)) :
  gl_goalLine <$> (toStat hr ro <$> l) = l.*1.
Proof. induction l as [|e l IH]; [done|]. cbn. by f_equal. Qed.

Lemma goalLines_NoDup hr ro rs :
  NoDup (gl_goalLine <$> goalLineStatsOf hr ro rs).
Proof.
  unfold goalLineStatsOf. rewrite merge_sort_Permutation, toStat_goalLines.
  apply tally_spec.
Qed.

Lemma length_filter_both {A} (P Q : A → Prop)
    `{!∀ x, Decision (P x), !∀ x, Decision (Q x)} (l : list A) :
  (length (filter (λ x, P x ∧ Q x) l) ≤ length (filter P l))%nat.
Proof.
  induction l as [|x l IH]; [done|]. rewrite !filter_cons.
  destruct (decide (P x ∧ Q x)) as [[HP _]|Hn].
  - rewrite decide_True by done. cbn. lia.
  - destruct (decide (P x)); cbn; lia.
Qed.

End GoalLines.

Section GoalLineClaims.
Import Tracker RowView Queries.

(** X23.  The goal-line table of a league lists each goal line once,
    in ascending order; a goal line is listed exactly when the history
    has it for a finished match of the league with a final score; its
    [timesAvailable] is the number of such matches, however many
    history rows they have at that line, so it is positive and never
    above [totalMatches]; [overHits] counts those of them with more
    goals than the line and is never above [timesAvailable].  The
    order in which the statement returns its groups does not matter. *)
Theorem getLeagueGoalLineStats_counts_matches
    (roundedHitRate roundedRoi : nat → nat → number)
    (leagueId : Z) (w : World) (rs : list OddsRow) :
  wf w → rs ≡ₚ oddsRows leagueId w →
  let stats := goalLineStatsOf roundedHitRate roundedRoi rs in
  let totalMatches :=
    lg_totalMatches
      (getLeagueGoalLineStats roundedHitRate roundedRoi leagueId w) in
  StronglySorted (λ a b, gl_goalLine a < gl_goalLine b)%Qc stats
  ∧ stats ≡ₚ goalLineStats
               (getLeagueGoalLineStats roundedHitRate roundedRoi
                  leagueId w)
  ∧ (∀ g, g ∈ gl_goalLine <$> stats ↔
          ∃ m, m ∈ rows w ∧ scored leagueId m ∧ has_line g w m)
  ∧ (∀ e, e ∈ stats →
       timesAvailable e
       = length (filter (λ m, scored leagueId m
                              ∧ has_line (gl_goalLine e) w m) (rows w))
       ∧ overHits e
         = length (over (gl_goalLine e) (oddsRows leagueId w))
       ∧ (0 < timesAvailable e)%nat
       ∧ (overHits e ≤ timesAvailable e)%nat
       ∧ (timesAvailable e ≤ totalMatches)%nat
       ∧ hitRate e = roundedHitRate (overHits e) (timesAvailable e)
       ∧ roi e = roundedRoi (overHits e) (timesAvailable e)).
Proof.
  intros Hwf Hperm stats totalMatches.
  destruct (tally_spec rs) as [Hnd Hget].
  assert (∀ g, offered g rs ≡ₚ offered g (oddsRows leagueId w)) as Hoff
    by (intros g; unfold offered; by rewrite Hperm).
  assert (∀ g, over g rs ≡ₚ over g (oddsRows leagueId w)) as Hover
    by (intros g; unfold over; by rewrite Hoff).
  assert (∀ e, e ∈ stats ↔
            ∃ g, offered g rs ≠ []
                 ∧ e = toStat roundedHitRate roundedRoi
                         (g, mkTally (length (offered g rs))
                               (length (over g rs)))) as Hstats.
  { intros e. unfold stats, goalLineStatsOf.
    rewrite merge_sort_Permutation, list_elem_of_fmap. split.
    - intros ([g t] & -> & Hin). apply (map_get_elem _ _ _ Hnd) in Hin.
      rewrite Hget in Hin. case_decide; [done|]. injection Hin as <-.
      by exists g.
    - intros (g & Hne & ->). eexists. split; [done|].
      apply (map_get_elem _ _ _ Hnd). rewrite Hget.
      by rewrite decide_False. }
  assert (∀ g, offered g rs ≠ [] ↔
            ∃ m, m ∈ rows w ∧ scored leagueId m ∧ has_line g w m) as Hline.
  { intros g.
    assert (offered g rs ≠ [] ↔ (0 < length (offered g rs))%nat) as ->.
    { destruct (offered g rs); cbn; [|split; [lia|done]].
      split; [done|lia]. }
    rewrite (Hoff g), (offered_matches _ _ _ Hwf).
    destruct (filter _ (rows w)) as [|m l] eqn:Hf.
    - cbn. split; [lia|]. intros (m & Hm & Hsc & Hl). exfalso.
      assert (m ∈ filter (λ m, scored leagueId m ∧ has_line g w m) (rows w))
        as Hin by (by apply list_elem_of_filter).
      rewrite Hf in Hin. by apply elem_of_nil in Hin.
    - cbn. split; [|lia]. intros _.
      assert (m ∈ filter (λ m, scored leagueId m ∧ has_line g w m) (rows w))
        as [[Hsc Hl] Hin]%list_elem_of_filter by (rewrite Hf; left).
      by exists m. }
  split_and!.
  - apply StronglySorted_strict.
    + unfold stats, goalLineStatsOf. apply StronglySorted_merge_sort.
      * intros a b c. unfold by_goalLine. apply Qcle_trans.
      * intros a b. unfold by_goalLine.
        destruct (Qc_le_total (gl_goalLine a) (gl_goalLine b)); auto.
    + apply goalLines_NoDup.
  - apply NoDup_Permutation.
    + eapply NoDup_fmap_1, goalLines_NoDup.
    + eapply NoDup_fmap_1, goalLines_NoDup.
    + intros e. rewrite Hstats.
      cbn [getLeagueGoalLineStats goalLineStats].
      unfold goalLineStatsOf.
      rewrite merge_sort_Permutation, list_elem_of_fmap.
      destruct (tally_spec (oddsRows leagueId w)) as [Hnd' Hget'].
      split.
      * intros (g & Hne & ->).
        exists (g, mkTally (length (offered g (oddsRows leagueId w)))
                     (length (over g (oddsRows leagueId w)))).
        split; [by rewrite (Hoff g), (Hover g)|].
        apply (map_get_elem _ _ _ Hnd'). rewrite Hget'.
        rewrite decide_False; [done|].
        intros Hnil. apply Hne. apply Permutation_nil_r.
        by rewrite <- Hnil, (Hoff g).
      * intros ([g t] & -> & Hin). apply (map_get_elem _ _ _ Hnd') in Hin.
        rewrite Hget' in Hin. case_decide as Hne; [done|].
        injection Hin as <-. exists g. split.
        -- intros Hnil. apply Hne. apply Permutation_nil_r.
           by rewrite <- Hnil, (Hoff g).
        -- by rewrite (Hoff g), (Hover g).
  - intros g. rewrite <- Hline, list_elem_of_fmap. split.
    + intros (e & -> & (g' & Hne & ->)%Hstats). done.
    + intros Hne. eexists. split; [|apply Hstats; by exists g]. done.
  - intros e (g & Hne & ->)%Hstats.
    cbn [toStat timesAvailable overHits hitRate roi gl_goalLine fst snd
         t_total t_hits].
    assert (length (offered g rs)
            = length (filter (λ m, scored leagueId m ∧ has_line g w m)
                        (rows w))) as Hlen
      by (by rewrite (Hoff g), (offered_matches _ _ _ Hwf)).
    split_and!; try done.
    + by rewrite (Hover g).
    + destruct (offered g rs); [done|cbn; lia].
    + apply length_over.
    + rewrite Hlen. subst totalMatches.
      cbn [getLeagueGoalLineStats lg_totalMatches].
      apply (length_filter_both (scored leagueId) (has_line g w)).
Qed.

Lemma getLeagueGoalLineStats_counts_matches_witness :
  Forall (λ e, (0 < timesAvailable e ≤ 1)%nat)
    (goalLineStats
       (getLeagueGoalLineStats (λ _ _, Q2Qc 0) (λ _ _, Q2Qc 0) 37298
          (poll Examples.cfg0 Examples.pf0 Examples.up_none []
             Examples.w_touched))).
Proof.
  apply Forall_forall.
  set (w := poll Examples.cfg0 Examples.pf0 Examples.up_none []
              Examples.w_touched).
  destruct (getLeagueGoalLineStats_counts_matches
              (λ _ _, Q2Qc 0) (λ _ _, Q2Qc 0) 37298 w (oddsRows 37298 w))
    as (_ & _ & _ & Hall).
  - refine (bool_decide_unpack _ _). vm_compute. exact I.
  - reflexivity.
  - intros e He. destruct (Hall e He) as (_ & _ & Hpos & _ & Hle & _).
    split; [exact Hpos|]. exact Hle.
Defined.

End GoalLineClaims.
